(** * lconfig: a shallow embedding of [lconfig.h] and its verified properties

    The embedding follows [src/lconfig.h] (the variant with the three
    categories int, double and string).  The three global arrays
    [lcfg_ints], [lcfg_dbls], [lcfg_strs] become a record of lists that is
    threaded through every function; the config file behind [LCONFIG_PATH]
    becomes a small file-system record next to it. *)

From Stdlib Require Import Ascii String.
From Stdlib Require Import ZArith List Bool Lia.
From Stdlib Require Import Floats.SpecFloat.
Import ListNotations.

Local Open Scope Z_scope.

(** ** C strings *)

(** A C string is modelled by the characters in front of its terminator, so
    a [cstr] holds no 0 byte; [names_are_strings] below says so for the
    stored names, where a proof depends on it. *)
Definition cstr := list ascii.

Definition lit (s : string) : cstr := list_ascii_of_string s.

Definition NUL : ascii := "000"%char.
Definition NL : ascii := "010"%char.
Definition SP : ascii := " "%char.

Definition code (c : ascii) : Z := Z.of_N (N_of_ascii c).

Module CString.

Definition strlen (s : cstr) : nat := length s.

(** [strncmp s1 s2 n]: compares at most [n] characters; the end of a list
    is the terminator, which compares as 0. *)
Fixpoint strncmp (s1 s2 : cstr) (n : nat) : Z :=
  match n with
  | O => 0
  | S n' =>
      match s1, s2 with
      | [], [] => 0
      | [], c2 :: _ => 0 - code c2
      | c1 :: _, [] => code c1
      | c1 :: r1, c2 :: r2 =>
          if Ascii.eqb c1 c2 then strncmp r1 r2 n' else code c1 - code c2
      end
  end.

(** [strcspn val "\n"]: length of the initial segment without a newline. *)
Fixpoint strcspn_nl (val : cstr) : nat :=
  match val with
  | [] => O
  | c :: r => if Ascii.eqb c NL then O else S (strcspn_nl r)
  end.

(** [&txt[n]] for [n <= strlen txt]. *)
Definition offset (n : nat) (txt : cstr) : cstr := skipn n txt.

(** The string a [char] buffer holds: the bytes in front of the first 0. *)
Fixpoint c_str (buf : list ascii) : cstr :=
  match buf with
  | [] => []
  | c :: r => if Ascii.eqb c NUL then [] else c :: c_str r
  end.

(** [s1] is an initial segment of [s2]. *)
Fixpoint prefixb (s1 s2 : cstr) : bool :=
  match s1, s2 with
  | [], _ => true
  | _ :: _, [] => false
  | c1 :: r1, c2 :: r2 => Ascii.eqb c1 c2 && prefixb r1 r2
  end.

End CString.
Import CString.

(** ** The C library's integer conversions *)

Module Libc.

Definition INT_MIN : Z := - 2147483648.
Definition INT_MAX : Z := 2147483647.
Definition LONG_MIN : Z := - 9223372036854775808.
Definition LONG_MAX : Z := 9223372036854775807.

Definition int_range (z : Z) : Prop := INT_MIN <= z <= INT_MAX.

Definition isspace (c : ascii) : bool :=
  let n := code c in (n =? 32) || ((9 <=? n) && (n <=? 13)).

Definition digit_val (c : ascii) : option Z :=
  let n := code c in
  if (48 <=? n) && (n <=? 57) then Some (n - 48) else None.

Fixpoint skip_space (s : cstr) : cstr :=
  match s with
  | c :: r => if isspace c then skip_space r else s
  | [] => []
  end.

(** The digit loop of [strtol] in base 10. *)
Fixpoint strtol_digits (acc : Z) (s : cstr) : Z :=
  match s with
  | c :: r =>
      match digit_val c with
      | Some d => strtol_digits (10 * acc + d) r
      | None => acc
      end
  | [] => acc
  end.

(** [strtol(s, NULL, 10)] with a 64-bit [long]: white space, an optional
    sign, digits; a value out of range saturates. *)
Definition strtol10 (s : cstr) : Z :=
  let s1 := skip_space s in
  let '(neg, s2) :=
    match s1 with
    | c :: r =>
        if Ascii.eqb c "-"%char then (true, r)
        else if Ascii.eqb c "+"%char then (false, r)
        else (false, s1)
    | [] => (false, s1)
    end in
  let v := strtol_digits 0 s2 in
  let v := if neg then - v else v in
  Z.max LONG_MIN (Z.min LONG_MAX v).

(** Conversion of a [long] to [int]: the low 32 bits, two's complement. *)
Definition to_int (z : Z) : Z := (z + 2147483648) mod 4294967296 - 2147483648.

(** [atoi] is [(int) strtol(s, NULL, 10)]. *)
Definition atoi (s : cstr) : Z := to_int (strtol10 s).

Definition digit_char (d : Z) : ascii := ascii_of_N (Z.to_N (48 + d)).

(** Decimal digits of [n >= 0], most significant first, in front of [acc]. *)
Fixpoint dec_digits (fuel : nat) (n : Z) (acc : cstr) : cstr :=
  match fuel with
  | O => acc
  | S f =>
      let acc' := digit_char (n mod 10) :: acc in
      if n <? 10 then acc' else dec_digits f (n / 10) acc'
  end.

Definition dec_fuel (n : Z) : nat := S (Z.to_nat (Z.log2 n)).

(** The conversion [%d] of [printf]. *)
Definition fmt_d (z : Z) : cstr :=
  if z <? 0 then "-"%char :: dec_digits (dec_fuel (- z)) (- z) []
  else dec_digits (dec_fuel z) z [].

(** [fprintf(stream, format)] with no argument behind the format, which is
    how [LCONFIG_LINE] calls it: an ordinary character is printed as it
    stands and [%%] prints one [%].  Any other conversion specification (a
    [%] that ends the format included) fetches an argument that is not
    there; the behaviour is undefined, [None]. *)
Fixpoint printf_noargs (format : cstr) : option cstr :=
  match format with
  | [] => Some []
  | c :: r =>
      if Ascii.eqb c "%"%char then
        match r with
        | c' :: r' =>
            if Ascii.eqb c' "%"%char
            then option_map (cons "%"%char) (printf_noargs r')
            else None
        | [] => None
        end
      else option_map (cons c) (printf_noargs r)
  end.

(** The floating-point conversions the library takes from libc: [atof] and
    the conversion [%.17g] of [printf].  They are not part of the
    repository; the model is parametric in them. *)
Class DoubleText := {
  atof : cstr -> spec_float;
  fmt_g17 : spec_float -> cstr
}.

End Libc.
Import Libc.

(** ** Configuration constants *)

Definition LCONFIG_LMAX : nat := 512.

(** ** The structs *)

Record lcfg_int := mk_int {
  int_name : option cstr;   (* name in config file, [None] is NULL *)
  int_min : Z;
  int_max : Z;
  int_def : Z;
  int_cur : Z
}.

Record lcfg_dbl := mk_dbl {
  dbl_name : option cstr;
  dbl_min : spec_float;
  dbl_max : spec_float;
  dbl_def : spec_float;
  dbl_cur : spec_float
}.

(** [len] is the bound of the array type [char[LEN+1]] of the buffer behind
    [cur], hence not negative; the comparison [len > cfg->len] is made at
    type [size_t], where such an [int] keeps its value. *)
Record lcfg_str := mk_str {
  str_name : option cstr;
  str_len : nat;
  str_def : cstr;
  str_cur : cstr            (* the string held by the buffer *)
}.

(** The zero-initialised element [{0}]: a hole of the sparse array. *)
Definition int_hole : lcfg_int := mk_int None 0 0 0 0.
Definition dbl_zero : spec_float := S754_zero false.
Definition dbl_hole : lcfg_dbl := mk_dbl None dbl_zero dbl_zero dbl_zero dbl_zero.
Definition str_hole : lcfg_str := mk_str None 0 [] [].

(** The internal globals. *)
Record store := mk_store {
  lcfg_ints : list lcfg_int;
  lcfg_dbls : list lcfg_dbl;
  lcfg_strs : list lcfg_str
}.

(** ** The template *)

(** The argument of [LCONFIG_LINE(...)] is pasted in front of the string
    literal ["\n"]; it is a string literal (possibly none), the label. *)
Inductive entry :=
| LCONFIG_LINE (text : cstr)
| LCONFIG_INT (id : nat) (name : cstr) (min max def : Z)
| LCONFIG_DBL (id : nat) (name : cstr) (min max def : spec_float)
| LCONFIG_STR (id : nat) (name : cstr) (len : nat) (def : cstr).

Definition template := list entry.

(** The compound literal [(char[LEN+1]){DEF}] behind [cur]: an array of
    [LEN+1] characters initialised from [DEF].  A [DEF] of at most [LEN]
    characters is held in full, with its terminator.  Of a longer [DEF] the
    array keeps the first [LEN+1] characters and no terminator: what is
    read from it as a string is then not determined by the array, and the
    properties of the start state are stated for defaults that fit. *)
Definition init_buffer (len : nat) (def : cstr) : cstr := firstn (S len) def.

(** A designated initialiser [[i] = x]: the array grows with holes up to
    index [i], a later initialiser of the same index replaces an earlier. *)
Fixpoint designate {A : Type} (hole : A) (i : nat) (x : A) (l : list A) : list A :=
  match i, l with
  | O, [] => [x]
  | O, _ :: r => x :: r
  | S i', [] => hole :: designate hole i' x []
  | S i', y :: r => y :: designate hole i' x r
  end.

Definition init_ints (t : template) : list lcfg_int :=
  fold_left (fun arr e =>
    match e with
    | LCONFIG_INT id name mn mx def =>
        designate int_hole id (mk_int (Some (name ++ [SP])) mn mx def def) arr
    | _ => arr
    end) t [int_hole].

Definition init_dbls (t : template) : list lcfg_dbl :=
  fold_left (fun arr e =>
    match e with
    | LCONFIG_DBL id name mn mx def =>
        designate dbl_hole id (mk_dbl (Some (name ++ [SP])) mn mx def def) arr
    | _ => arr
    end) t [dbl_hole].

Definition init_strs (t : template) : list lcfg_str :=
  fold_left (fun arr e =>
    match e with
    | LCONFIG_STR id name len def =>
        designate str_hole id
          (mk_str (Some (name ++ [SP])) len def (init_buffer len def)) arr
    | _ => arr
    end) t [str_hole].

(** The state of the globals at program start. *)
Definition init_store (t : template) : store :=
  mk_store (init_ints t) (init_dbls t) (init_strs t).

(** ** Internal functions: the clamping stores *)

Definition lcfgIntSet (cfg : lcfg_int) (val : Z) : lcfg_int :=
  let val := if val <? int_min cfg then int_min cfg else val in
  let val := if val >? int_max cfg then int_max cfg else val in
  mk_int (int_name cfg) (int_min cfg) (int_max cfg) (int_def cfg) val.

Definition lcfgDblSet (cfg : lcfg_dbl) (val : spec_float) : lcfg_dbl :=
  let val := if SFltb val (dbl_min cfg) then dbl_min cfg else val in
  let val := if SFltb (dbl_max cfg) val then dbl_max cfg else val in
  mk_dbl (dbl_name cfg) (dbl_min cfg) (dbl_max cfg) (dbl_def cfg) val.

Definition lcfgStrSet (cfg : lcfg_str) (val : cstr) : lcfg_str :=
  let len := strcspn_nl val in
  let len := if (str_len cfg <? len)%nat then str_len cfg else len in
  (* strncpy of [len] characters, then the terminator at [cur[len]] *)
  mk_str (str_name cfg) (str_len cfg) (str_def cfg) (firstn len val).

(** ** The environment: the file behind [LCONFIG_PATH] *)

Record filesys := mk_fs {
  fs_file : option (list ascii);   (* the bytes of the file, [None]: no file *)
  fs_may_read : bool;              (* [fopen(path, "r")] is permitted *)
  fs_may_write : bool              (* [fopen(path, "w")] is permitted *)
}.

Record world := mk_world {
  globals : store;
  disk : filesys
}.

(** [fopen(LCONFIG_PATH, "r")]: the stream, or [None] for NULL. *)
Definition fopen_r (fs : filesys) : option (list ascii) :=
  if fs_may_read fs then fs_file fs else None.

(** [fgets_chars n s]: at most [n] characters of the stream, ending after the
    first newline; the pair is (characters read, rest of the stream). *)
Fixpoint fgets_chars (n : nat) (s : list ascii) : list ascii * list ascii :=
  match n, s with
  | S n', c :: r =>
      if Ascii.eqb c NL then ([c], r)
      else let '(l, r') := fgets_chars n' r in (c :: l, r')
  | _, _ => ([], s)
  end.

(** [fgets(txt, size, stream)]: NULL ([None]) at the end of the file. *)
Definition fgets (size : nat) (stream : list ascii) : option (list ascii * list ascii) :=
  match stream with
  | [] => None
  | _ :: _ => Some (fgets_chars (size - 1) stream)
  end.

(** ** Array access *)

Fixpoint upd {A : Type} (i : nat) (f : A -> A) (l : list A) : list A :=
  match l, i with
  | [], _ => []
  | x :: r, O => f x :: r
  | x :: r, S i' => x :: upd i' f r
  end.

Definition has_name (name : option cstr) : bool :=
  match name with Some _ => true | None => false end.

(** What [%s] prints for a name; NULL is not printed by the code, the
    template only names elements it has initialised. *)
Definition name_text (name : option cstr) : cstr :=
  match name with Some n => n | None => [] end.

(** What [LCONFIG_LINE(text)] prints inside [lconfigWrite]:
    [fprintf(cfg, text "\n")], the label with its newline being the format
    and no argument following it.  Where C leaves the call undefined the
    model prints nothing; what is proved of the written text is stated for
    templates whose labels are defined formats ([labels_defined]). *)
Definition label_text (text : cstr) : cstr :=
  match printf_noargs (text ++ [NL]) with
  | Some printed => printed
  | None => []
  end.

Section Lconfig.

Context {libc_double : DoubleText}.

(** ** Internal functions: reading and printing one field *)

Definition lcfgIntRead (cfg : lcfg_int) (txt : cstr) : lcfg_int :=
  match int_name cfg with
  | Some name =>
      if strncmp name txt (strlen name) =? 0
      then lcfgIntSet cfg (atoi (offset (strlen name) txt))
      else cfg
  | None => cfg
  end.

Definition lcfgDblRead (cfg : lcfg_dbl) (txt : cstr) : lcfg_dbl :=
  match dbl_name cfg with
  | Some name =>
      if strncmp name txt (strlen name) =? 0
      then lcfgDblSet cfg (atof (offset (strlen name) txt))
      else cfg
  | None => cfg
  end.

Definition lcfgStrRead (cfg : lcfg_str) (txt : cstr) : lcfg_str :=
  match str_name cfg with
  | Some name =>
      if strncmp name txt (strlen name) =? 0
      then lcfgStrSet cfg (offset (strlen name) txt)
      else cfg
  | None => cfg
  end.

Definition lcfgIntPrint (cfg : lcfg_int) : cstr :=
  name_text (int_name cfg) ++ fmt_d (int_cur cfg) ++ [NL].

Definition lcfgDblPrint (cfg : lcfg_dbl) : cstr :=
  name_text (dbl_name cfg) ++ fmt_g17 (dbl_cur cfg) ++ [NL].

Definition lcfgStrPrint (cfg : lcfg_str) : cstr :=
  name_text (str_name cfg) ++ str_cur cfg ++ [NL].

(** ** Public functions *)

(** The three loops of [lconfigDefault]; iteration [i] touches element [i]
    only, so each loop is a [map]. *)
Definition default_store (st : store) : store :=
  mk_store
    (map (fun c => if has_name (int_name c) then lcfgIntSet c (int_def c) else c)
         (lcfg_ints st))
    (map (fun c => if has_name (dbl_name c) then lcfgDblSet c (dbl_def c) else c)
         (lcfg_dbls st))
    (map (fun c => if has_name (str_name c) then lcfgStrSet c (str_def c) else c)
         (lcfg_strs st)).

Definition lconfigDefault (w : world) : world :=
  mk_world (default_store (globals w)) (disk w).

(** The bodies of the three [for] loops of [lconfigRead] on one element. *)
Definition int_step (txt : cstr) (c : lcfg_int) : lcfg_int :=
  if has_name (int_name c) then lcfgIntRead c txt else c.
Definition dbl_step (txt : cstr) (c : lcfg_dbl) : lcfg_dbl :=
  if has_name (dbl_name c) then lcfgDblRead c txt else c.
Definition str_step (txt : cstr) (c : lcfg_str) : lcfg_str :=
  if has_name (str_name c) then lcfgStrRead c txt else c.

(** The body of the [while] loop of [lconfigRead] for one buffer [txt];
    iteration [i] of a [for] loop touches element [i] only. *)
Definition read_line (st : store) (txt : cstr) : store :=
  mk_store (map (int_step txt) (lcfg_ints st))
           (map (dbl_step txt) (lcfg_dbls st))
           (map (str_step txt) (lcfg_strs st)).

(** [while (fgets(txt, LCONFIG_LMAX, cfg)) ...]; [None] when the fuel runs
    out before the end of the file. *)
Fixpoint read_loop (fuel : nat) (lmax : nat) (cfg : list ascii) (st : store)
  : option store :=
  match fuel with
  | O => None
  | S f =>
      match fgets lmax cfg with
      | None => Some st
      | Some (buf, cfg') => read_loop f lmax cfg' (read_line st (c_str buf))
      end
  end.

(** Returns 0 on success and 1 when the file could not be opened. *)
Definition lconfigRead (w : world) : option (Z * world) :=
  match fopen_r (disk w) with
  | Some cfg =>
      match read_loop (S (length cfg)) LCONFIG_LMAX cfg (globals w) with
      | Some st => Some (0, mk_world st (disk w))
      | None => None
      end
  | None => Some (1, w)
  end.

(** What one entry of the template expands to inside [lconfigWrite]. *)
Definition print_entry (st : store) (e : entry) : cstr :=
  match e with
  | LCONFIG_LINE text => label_text text
  | LCONFIG_INT id _ _ _ _ => lcfgIntPrint (nth id (lcfg_ints st) int_hole)
  | LCONFIG_DBL id _ _ _ _ => lcfgDblPrint (nth id (lcfg_dbls st) dbl_hole)
  | LCONFIG_STR id _ _ _ => lcfgStrPrint (nth id (lcfg_strs st) str_hole)
  end.

Definition file_text (t : template) (st : store) : list ascii :=
  concat (map (print_entry st) t).

(** Returns 0 on success and 1 when the file could not be opened; the
    file is created or replaced by the canonical text. *)
Definition lconfigWrite (t : template) (w : world) : Z * world :=
  if fs_may_write (disk w)
  then (0, mk_world (globals w)
             (mk_fs (Some (file_text t (globals w)))
                    (fs_may_read (disk w)) (fs_may_write (disk w))))
  else (1, w).

Definition lconfigInit (t : template) (w : world) : option world :=
  match lconfigRead w with
  | Some (_, w1) => Some (snd (lconfigWrite t w1))
  | None => None
  end.

Definition valid_id {A : Type} (name : A -> option cstr) (hole : A)
           (arr : list A) (id : Z) : bool :=
  (0 <=? id) && (id <? Z.of_nat (length arr))
  && has_name (name (nth (Z.to_nat id) arr hole)).

Definition lconfigGetInt (w : world) (id : Z) : Z :=
  let arr := lcfg_ints (globals w) in
  if valid_id int_name int_hole arr id
  then int_cur (nth (Z.to_nat id) arr int_hole)
  else -1.

Definition lconfigSetInt (w : world) (id : Z) (val : Z) : world :=
  let st := globals w in
  if valid_id int_name int_hole (lcfg_ints st) id
  then mk_world
         (mk_store (upd (Z.to_nat id) (fun c => lcfgIntSet c val) (lcfg_ints st))
                   (lcfg_dbls st) (lcfg_strs st))
         (disk w)
  else w.

Definition NAN : spec_float := S754_nan.

Definition lconfigGetDouble (w : world) (id : Z) : spec_float :=
  let arr := lcfg_dbls (globals w) in
  if valid_id dbl_name dbl_hole arr id
  then dbl_cur (nth (Z.to_nat id) arr dbl_hole)
  else NAN.

Definition lconfigSetDouble (w : world) (id : Z) (val : spec_float) : world :=
  let st := globals w in
  if valid_id dbl_name dbl_hole (lcfg_dbls st) id
  then mk_world
         (mk_store (lcfg_ints st)
                   (upd (Z.to_nat id) (fun c => lcfgDblSet c val) (lcfg_dbls st))
                   (lcfg_strs st))
         (disk w)
  else w.

(** [None] is NULL, [Some s] the pointer to the buffer holding [s]. *)
Definition lconfigGetString (w : world) (id : Z) : option cstr :=
  let arr := lcfg_strs (globals w) in
  if valid_id str_name str_hole arr id
  then Some (str_cur (nth (Z.to_nat id) arr str_hole))
  else None.

Definition lconfigSetString (w : world) (id : Z) (val : cstr) : world :=
  let st := globals w in
  if valid_id str_name str_hole (lcfg_strs st) id
  then mk_world
         (mk_store (lcfg_ints st) (lcfg_dbls st)
                   (upd (Z.to_nat id) (fun c => lcfgStrSet c val) (lcfg_strs st)))
         (disk w)
  else w.

End Lconfig.

(** ** Vocabulary of the statements *)

(** [id] passes the test of the accessors: in range and with a name. *)
Definition registered_int (w : world) (id : Z) : Prop :=
  valid_id int_name int_hole (lcfg_ints (globals w)) id = true.
Definition registered_dbl (w : world) (id : Z) : Prop :=
  valid_id dbl_name dbl_hole (lcfg_dbls (globals w)) id = true.
Definition registered_str (w : world) (id : Z) : Prop :=
  valid_id str_name str_hole (lcfg_strs (globals w)) id = true.

(** The array element [lcfg_ints[id]], and its siblings. *)
Definition int_field (w : world) (id : Z) : lcfg_int :=
  nth (Z.to_nat id) (lcfg_ints (globals w)) int_hole.
Definition dbl_field (w : world) (id : Z) : lcfg_dbl :=
  nth (Z.to_nat id) (lcfg_dbls (globals w)) dbl_hole.
Definition str_field (w : world) (id : Z) : lcfg_str :=
  nth (Z.to_nat id) (lcfg_strs (globals w)) str_hole.

(** Membership in the closed interval of a double field, with the
    comparison of IEEE 754 (false on NaN). *)
Definition dbl_between (lo x hi : spec_float) : Prop :=
  SFleb lo x = true /\ SFleb x hi = true.

(** The text of [s] in front of its first newline. *)
Fixpoint before_newline (s : cstr) : cstr :=
  match s with
  | [] => []
  | c :: r => if Ascii.eqb c NL then [] else c :: before_newline r
  end.

(** A string field holds one line that fits its buffer. *)
Definition str_ok (cfg : lcfg_str) : Prop :=
  ~ In NL (str_cur cfg) /\ (length (str_cur cfg) <= str_len cfg)%nat.

(** ... for every named element of [lcfg_strs]. *)
Definition str_invariant (st : store) : Prop :=
  forall cfg, In cfg (lcfg_strs st) -> str_name cfg <> None -> str_ok cfg.

(** A field is identified by its category and its id within the category. *)
Inductive key := KInt (id : nat) | KDbl (id : nat) | KStr (id : nat).

Definition key_eqb (k1 k2 : key) : bool :=
  match k1, k2 with
  | KInt i, KInt j | KDbl i, KDbl j | KStr i, KStr j => Nat.eqb i j
  | _, _ => false
  end.

(** What an accessor returns. *)
Inductive value :=
| VInt (z : Z)
| VDbl (d : spec_float)
| VStr (s : option cstr).

(** [Get] of the field's category. *)
Definition get (w : world) (k : key) : value :=
  match k with
  | KInt id => VInt (lconfigGetInt w (Z.of_nat id))
  | KDbl id => VDbl (lconfigGetDouble w (Z.of_nat id))
  | KStr id => VStr (lconfigGetString w (Z.of_nat id))
  end.

(** The stored name of a field ([NAME " "]); [None] when the id is not
    registered in its category. *)
Definition name_at (st : store) (k : key) : option cstr :=
  match k with
  | KInt id => int_name (nth id (lcfg_ints st) int_hole)
  | KDbl id => dbl_name (nth id (lcfg_dbls st) dbl_hole)
  | KStr id => str_name (nth id (lcfg_strs st) str_hole)
  end.

(** Stored names are C strings: no character of theirs is the terminator. *)
Definition names_are_strings (st : store) : Prop :=
  forall k n, name_at st k = Some n -> ~ In NUL n.

(** No stored name is an initial segment of the stored name of another
    field, of whichever category. *)
Definition prefix_free (st : store) : Prop :=
  forall k1 k2 n1 n2,
    name_at st k1 = Some n1 -> name_at st k2 = Some n2 ->
    prefixb n1 n2 = true -> k1 = k2.

(** [n] occurs somewhere in the text. *)
Definition occurs_in (n : cstr) (text : list ascii) : Prop :=
  exists pre post, text = pre ++ n ++ post.

(** The lines of a source, each with its newline (the last one may lack
    it). *)
Fixpoint lines_of (source : list ascii) : list (list ascii) :=
  match source with
  | [] => []
  | c :: r =>
      if Ascii.eqb c NL then [c] :: lines_of r
      else match lines_of r with
           | [] => [[c]]
           | l :: ls => (c :: l) :: ls
           end
  end.

(** What one call of [fgets] delivers: at least one character, and no
    newline in front of the last one. *)
Fixpoint chunkb (buf : list ascii) : bool :=
  match buf with
  | [] => false
  | c :: r =>
      match r with
      | [] => true
      | _ :: _ => negb (Ascii.eqb c NL) && chunkb r
      end
  end.

(** The text is made of complete lines: it is empty, or its last character
    is a newline. *)
Fixpoint complete_lines (s : list ascii) : bool :=
  match s with
  | [] => true
  | c :: r =>
      match r with
      | [] => Ascii.eqb c NL
      | _ :: _ => complete_lines r
      end
  end.

(** A line of a file, with its newline or (the last one) without, that
    [fgets] reads in one piece: it has at most [LCONFIG_LMAX - 1]
    characters, the newline counted. *)
Definition whole_line (l : list ascii) : Prop :=
  chunkb l = true /\ (length l <= LCONFIG_LMAX - 1)%nat.

(** The named elements of the three arrays with their keys. *)
Fixpoint names_from {A : Type} (mk : nat -> key) (name : A -> option cstr)
         (i : nat) (arr : list A) : list (key * cstr) :=
  match arr with
  | [] => []
  | c :: r =>
      match name c with
      | Some n => (mk i, n) :: names_from mk name (S i) r
      | None => names_from mk name (S i) r
      end
  end.

Definition all_names (st : store) : list (key * cstr) :=
  names_from KInt int_name 0 (lcfg_ints st)
  ++ names_from KDbl dbl_name 0 (lcfg_dbls st)
  ++ names_from KStr str_name 0 (lcfg_strs st).

Definition names_are_stringsb (st : store) : bool :=
  forallb (fun p => negb (existsb (Ascii.eqb NUL) (snd p))) (all_names st).

Definition prefix_freeb (st : store) : bool :=
  forallb (fun p =>
    forallb (fun q => implb (prefixb (snd p) (snd q)) (key_eqb (fst p) (fst q)))
            (all_names st))
    (all_names st).

Fixpoint occursb (n : cstr) (text : list ascii) : bool :=
  prefixb n text
  || match text with
     | [] => false
     | _ :: r => occursb n r
     end.

(** ** Conditions of the round trip *)

(** [l] is one line of text: its last character is its only newline, and it
    holds no 0 byte. *)
Fixpoint one_line (l : list ascii) : bool :=
  match l with
  | [] => false
  | c :: r =>
      match r with
      | [] => Ascii.eqb c NL
      | _ :: _ => negb (Ascii.eqb c NL) && negb (Ascii.eqb c NUL) && one_line r
      end
  end.

(** Every line [lconfigWrite] prints is one line of text that [fgets] reads
    in one piece. *)
Definition lines_fit `{DoubleText} (t : template) (st : store) : Prop :=
  Forall (fun e => one_line (print_entry st e) = true
                   /\ (length (print_entry st e) <= LCONFIG_LMAX - 1)%nat) t.

(** The template prints named elements only. *)
Definition template_registered (t : template) (st : store) : Prop :=
  Forall (fun e =>
    match e with
    | LCONFIG_LINE _ => True
    | LCONFIG_INT id _ _ _ _ => name_at st (KInt id) <> None
    | LCONFIG_DBL id _ _ _ _ => name_at st (KDbl id) <> None
    | LCONFIG_STR id _ _ _ => name_at st (KStr id) <> None
    end) t.

(** The field an entry of the template prints. *)
Definition entry_key (e : entry) : option key :=
  match e with
  | LCONFIG_LINE _ => None
  | LCONFIG_INT id _ _ _ _ => Some (KInt id)
  | LCONFIG_DBL id _ _ _ _ => Some (KDbl id)
  | LCONFIG_STR id _ _ _ => Some (KStr id)
  end.

(** Every named element is printed by an entry of the template. *)
Definition template_complete (t : template) (st : store) : Prop :=
  forall k, name_at st k <> None -> exists e, In e t /\ entry_key e = Some k.

Definition template_completeb (t : template) (st : store) : bool :=
  forallb (fun p =>
    existsb (fun e =>
      match entry_key e with
      | Some k => key_eqb k (fst p)
      | None => false
      end) t)
    (all_names st).

(** The labels of the template are formats [fprintf] is defined on without
    an argument: their only conversion specification is [%%]. *)
Definition labels_defined (t : template) : Prop :=
  forall text, In (LCONFIG_LINE text) t -> printf_noargs (text ++ [NL]) <> None.

Definition labels_definedb (t : template) : bool :=
  forallb (fun e =>
    match e with
    | LCONFIG_LINE text =>
        match printf_noargs (text ++ [NL]) with Some _ => true | None => false end
    | _ => true
    end) t.

(** No label line, as it is printed, starts with the stored name of a
    field. *)
Definition labels_inert (t : template) (st : store) : Prop :=
  forall text k n,
    In (LCONFIG_LINE text) t -> name_at st k = Some n ->
    prefixb n (label_text text) = false.

Definition labels_inertb (t : template) (st : store) : bool :=
  forallb (fun e =>
    match e with
    | LCONFIG_LINE text =>
        forallb (fun p => negb (prefixb (snd p) (label_text text))) (all_names st)
    | _ => true
    end) t.

(** The stored values are what [Set] stores: clamped already, an [int] in
    the range of its type, a [double] reproduced by [atof] from its
    [%.17g] text. *)
Definition values_clamped `{DoubleText} (st : store) : Prop :=
  (forall c, In c (lcfg_ints st) -> int_name c <> None ->
     lcfgIntSet c (int_cur c) = c /\ int_range (int_cur c))
  /\ (forall c, In c (lcfg_dbls st) -> dbl_name c <> None ->
     lcfgDblSet c (dbl_cur c) = c
     /\ atof (fmt_g17 (dbl_cur c) ++ [NL]) = dbl_cur c)
  /\ (forall c, In c (lcfg_strs st) -> str_name c <> None ->
     lcfgStrSet c (str_cur c) = c).

(** ** A running example: the template of the header's documentation *)

Module Example.

(** Binary64 constants, mantissa of 53 bits. *)
Definition d_1 : spec_float := S754_finite false 4503599627370496 (-52).
Definition d_half : spec_float := S754_finite false 4503599627370496 (-53).
Definition d_4 : spec_float := S754_finite false 4503599627370496 (-50).
Definition d_32 : spec_float := S754_finite false 4503599627370496 (-47).
Definition d_m4 : spec_float := S754_finite true 4503599627370496 (-50).
Definition d_m32 : spec_float := S754_finite true 4503599627370496 (-47).

Definition FOO_ANUMBER : nat := 0.
Definition FOO_BNUMBER : nat := 1.
Definition FOO_ADOUBLE : nat := 0.
Definition FOO_BDOUBLE : nat := 1.
Definition FOO_CDOUBLE : nat := 2.
Definition FOO_ASTRING : nat := 0.

Definition LCONFIG_TEMPLATE : template :=
  [ LCONFIG_LINE (lit "#example");
    LCONFIG_INT FOO_ANUMBER (lit "number_a") (-10) 10 0;
    LCONFIG_DBL FOO_ADOUBLE (lit "double_a") dbl_zero d_32 d_4;
    LCONFIG_LINE [];
    LCONFIG_LINE (lit "#foobar");
    LCONFIG_DBL FOO_BDOUBLE (lit "double_b") d_m32 dbl_zero d_m4;
    LCONFIG_STR FOO_ASTRING (lit "string_a") 32 (lit "ABCD");
    LCONFIG_INT FOO_BNUMBER (lit "number_b") 10 20 15;
    LCONFIG_DBL FOO_CDOUBLE (lit "double_c") dbl_zero d_1 d_half ].

(** No config file yet, the directory is readable and writable. *)
Definition fresh_disk : filesys := mk_fs None true true.

Definition start : world := mk_world (init_store LCONFIG_TEMPLATE) fresh_disk.

(** A template whose first default spans two lines. *)
Definition two_line_default : template :=
  [ LCONFIG_STR 0 (lit "motd") 16 [ "h"; "i"; NL; "y"; "o"; "u" ]%char;
    LCONFIG_STR 1 (lit "user") 8 (lit "bob") ].

(** A template whose default lies above the declared maximum. *)
Definition default_above_max : template :=
  [ LCONFIG_INT 0 (lit "volume") 0 10 50 ].

(** A template in which one name starts with another. *)
Definition nested_names : template :=
  [ LCONFIG_INT 0 (lit "size") 0 10 5;
    LCONFIG_INT 1 (lit "size max") 0 10 7 ].

(** The conversions of doubles restricted to the texts of the constants
    of this example. *)
Definition example_fmt (d : spec_float) : cstr :=
  match d with
  | S754_zero s => if s then lit "-0" else lit "0"
  | S754_infinity s => if s then lit "-inf" else lit "inf"
  | S754_nan => lit "nan"
  | S754_finite s m e =>
      (if s then lit "-" else [])
      ++ (if (e =? -50) then lit "4"
          else if (e =? -47) then lit "32"
          else if (e =? -52) then lit "1"
          else lit "0.5")
  end.

Definition example_atof (s : cstr) : spec_float :=
  let '(neg, r) :=
    match s with
    | c :: r => if Ascii.eqb c "-"%char then (true, r) else (false, s)
    | [] => (false, s)
    end in
  if prefixb (lit "4") r then S754_finite neg 4503599627370496 (-50)
  else if prefixb (lit "32") r then S754_finite neg 4503599627370496 (-47)
  else if prefixb (lit "1") r then S754_finite neg 4503599627370496 (-52)
  else if prefixb (lit "0.5") r then S754_finite neg 4503599627370496 (-53)
  else if prefixb (lit "inf") r then S754_infinity neg
  else if prefixb (lit "nan") r then S754_nan
  else S754_zero neg.

Definition example_libc : DoubleText :=
  {| atof := example_atof; fmt_g17 := example_fmt |}.

(** Config files on a readable disk. *)
Definition disk_with (text : string) : filesys :=
  mk_fs (Some (lit text ++ [NL])) true true.

End Example.

(** ** Vocabulary of the further properties *)

(** The descriptor of a field: everything but [cur]. *)
Definition int_desc (c : lcfg_int) : option cstr * Z * Z * Z :=
  (int_name c, int_min c, int_max c, int_def c).
Definition dbl_desc (c : lcfg_dbl)
  : option cstr * spec_float * spec_float * spec_float :=
  (dbl_name c, dbl_min c, dbl_max c, dbl_def c).
Definition str_desc (c : lcfg_str) : option cstr * nat * cstr :=
  (str_name c, str_len c, str_def c).

(** The descriptors of the three arrays, in the order of the ids. *)
Definition schema (st : store) :=
  (map int_desc (lcfg_ints st), map dbl_desc (lcfg_dbls st),
   map str_desc (lcfg_strs st)).

(** Every named [int] element holds a value within its bounds. *)
Definition int_invariant (st : store) : Prop :=
  forall c, In c (lcfg_ints st) -> int_name c <> None ->
            int_min c <= int_cur c <= int_max c.

(** What the reader of field [k] stores from the text [rest] behind the
    name: the converted text, clamped. *)
Definition stored_value `{DoubleText} (st : store) (k : key) (rest : cstr)
  : value :=
  match k with
  | KInt id =>
      VInt (int_cur (lcfgIntSet (nth id (lcfg_ints st) int_hole) (atoi rest)))
  | KDbl id =>
      VDbl (dbl_cur (lcfgDblSet (nth id (lcfg_dbls st) dbl_hole) (atof rest)))
  | KStr id =>
      VStr (Some (str_cur (lcfgStrSet (nth id (lcfg_strs st) str_hole) rest)))
  end.

(** A line of a file that [fgets] reads in one piece. *)
Definition fits_buffer (l : list ascii) : Prop :=
  one_line l = true /\ (length l <= LCONFIG_LMAX - 1)%nat.

(** The element entry [e] initialises at index [id], if any. *)
Definition decl_int (e : entry) (id : nat) : option lcfg_int :=
  match e with
  | LCONFIG_INT i name mn mx def =>
      if Nat.eqb i id then Some (mk_int (Some (name ++ [SP])) mn mx def def)
      else None
  | _ => None
  end.
Definition decl_dbl (e : entry) (id : nat) : option lcfg_dbl :=
  match e with
  | LCONFIG_DBL i name mn mx def =>
      if Nat.eqb i id then Some (mk_dbl (Some (name ++ [SP])) mn mx def def)
      else None
  | _ => None
  end.
Definition decl_str (e : entry) (id : nat) : option lcfg_str :=
  match e with
  | LCONFIG_STR i name len def =>
      if Nat.eqb i id
      then Some (mk_str (Some (name ++ [SP])) len def (init_buffer len def))
      else None
  | _ => None
  end.

(** The last entry of the template that initialises index [id]. *)
Fixpoint last_decl {A : Type} (decl : entry -> nat -> option A)
         (t : template) (id : nat) : option A :=
  match t with
  | [] => None
  | e :: r =>
      match last_decl decl r id with
      | Some c => Some c
      | None => decl e id
      end
  end.

(** ** The variant without doubles *)

(** The other header of the repository (src/unnamed/part_000) has the
    [int] and the string category only, and no [lconfigInit].  Its structs
    and its internal functions ([lcfgIntRead], [lcfgStrRead],
    [lcfgIntPrint], [lcfgStrPrint], [lcfgIntSet], [lcfgStrSet]) are those
    above, word for word; its globals and public functions follow. *)
Module NoDouble.

Record store := mk_store {
  lcfg_ints : list lcfg_int;
  lcfg_strs : list lcfg_str
}.

Inductive entry :=
| LCONFIG_LINE (text : cstr)
| LCONFIG_INT (id : nat) (name : cstr) (min max def : Z)
| LCONFIG_STR (id : nat) (name : cstr) (len : nat) (def : cstr).

Definition template := list entry.

Definition init_ints (t : template) : list lcfg_int :=
  fold_left (fun arr e =>
    match e with
    | LCONFIG_INT id name mn mx def =>
        designate int_hole id (mk_int (Some (name ++ [SP])) mn mx def def) arr
    | _ => arr
    end) t [int_hole].

Definition init_strs (t : template) : list lcfg_str :=
  fold_left (fun arr e =>
    match e with
    | LCONFIG_STR id name len def =>
        designate str_hole id
          (mk_str (Some (name ++ [SP])) len def (init_buffer len def)) arr
    | _ => arr
    end) t [str_hole].

Definition init_store (t : template) : store :=
  mk_store (init_ints t) (init_strs t).

Record world := mk_world {
  globals : store;
  disk : filesys
}.

Definition default_store (st : store) : store :=
  mk_store
    (map (fun c => if has_name (int_name c) then lcfgIntSet c (int_def c) else c)
         (lcfg_ints st))
    (map (fun c => if has_name (str_name c) then lcfgStrSet c (str_def c) else c)
         (lcfg_strs st)).

Definition lconfigDefault (w : world) : world :=
  mk_world (default_store (globals w)) (disk w).

Definition read_line (st : store) (txt : cstr) : store :=
  mk_store (map (int_step txt) (lcfg_ints st))
           (map (str_step txt) (lcfg_strs st)).

Fixpoint read_loop (fuel : nat) (lmax : nat) (cfg : list ascii) (st : store)
  : option store :=
  match fuel with
  | O => None
  | S f =>
      match fgets lmax cfg with
      | None => Some st
      | Some (buf, cfg') => read_loop f lmax cfg' (read_line st (c_str buf))
      end
  end.

Definition lconfigRead (w : world) : option (Z * world) :=
  match fopen_r (disk w) with
  | Some cfg =>
      match read_loop (S (length cfg)) LCONFIG_LMAX cfg (globals w) with
      | Some st => Some (0, mk_world st (disk w))
      | None => None
      end
  | None => Some (1, w)
  end.

Definition print_entry (st : store) (e : entry) : cstr :=
  match e with
  | LCONFIG_LINE text => label_text text
  | LCONFIG_INT id _ _ _ _ => lcfgIntPrint (nth id (lcfg_ints st) int_hole)
  | LCONFIG_STR id _ _ _ => lcfgStrPrint (nth id (lcfg_strs st) str_hole)
  end.

Definition file_text (t : template) (st : store) : list ascii :=
  concat (map (print_entry st) t).

Definition lconfigWrite (t : template) (w : world) : Z * world :=
  if fs_may_write (disk w)
  then (0, mk_world (globals w)
             (mk_fs (Some (file_text t (globals w)))
                    (fs_may_read (disk w)) (fs_may_write (disk w))))
  else (1, w).

Definition lconfigGetInt (w : world) (id : Z) : Z :=
  let arr := lcfg_ints (globals w) in
  if valid_id int_name int_hole arr id
  then int_cur (nth (Z.to_nat id) arr int_hole)
  else -1.

Definition lconfigSetInt (w : world) (id : Z) (val : Z) : world :=
  let st := globals w in
  if valid_id int_name int_hole (lcfg_ints st) id
  then mk_world
         (mk_store (upd (Z.to_nat id) (fun c => lcfgIntSet c val) (lcfg_ints st))
                   (lcfg_strs st))
         (disk w)
  else w.

Definition lconfigGetString (w : world) (id : Z) : option cstr :=
  let arr := lcfg_strs (globals w) in
  if valid_id str_name str_hole arr id
  then Some (str_cur (nth (Z.to_nat id) arr str_hole))
  else None.

Definition lconfigSetString (w : world) (id : Z) (val : cstr) : world :=
  let st := globals w in
  if valid_id str_name str_hole (lcfg_strs st) id
  then mk_world
         (mk_store (lcfg_ints st)
                   (upd (Z.to_nat id) (fun c => lcfgStrSet c val) (lcfg_strs st)))
         (disk w)
  else w.

End NoDouble.

(** A state of [lconfig.h] seen without its double category, and a
    template of the variant as a template of [lconfig.h]. *)
Definition forget_store (st : store) : NoDouble.store :=
  NoDouble.mk_store (lcfg_ints st) (lcfg_strs st).

Definition forget (w : world) : NoDouble.world :=
  NoDouble.mk_world (forget_store (globals w)) (disk w).

Definition embed (e : NoDouble.entry) : entry :=
  match e with
  | NoDouble.LCONFIG_LINE text => LCONFIG_LINE text
  | NoDouble.LCONFIG_INT id name mn mx def => LCONFIG_INT id name mn mx def
  | NoDouble.LCONFIG_STR id name len def => LCONFIG_STR id name len def
  end.


(** The text holds no number where [atoi] looks for one: behind the white
    space and an optional sign there is no digit. *)
Definition no_number (s : cstr) : bool :=
  match skip_space s with
  | [] => true
  | c :: r =>
      let digits :=
        if Ascii.eqb c "-"%char || Ascii.eqb c "+"%char then r else c :: r in
      match digits with
      | [] => true
      | c' :: _ => match digit_val c' with Some _ => false | None => true end
      end
  end.

(** A field's steps over the buffers of a file, one after the other. *)
Definition steps {A : Type} (step : cstr -> A -> A) (ls : list cstr) (c : A) : A :=
  fold_left (fun c txt => step txt c) ls c.

(** What the reader of a field with the given name takes from a buffer:
    the converted text behind the name, or nothing when the buffer does not
    start with the name. *)
Definition pick_int (name : option cstr) (txt : cstr) : option Z :=
  match name with
  | Some n =>
      if strncmp n txt (strlen n) =? 0
      then Some (atoi (offset (strlen n) txt)) else None
  | None => None
  end.

Definition pick_dbl `{DoubleText} (name : option cstr) (txt : cstr) : option spec_float :=
  match name with
  | Some n =>
      if strncmp n txt (strlen n) =? 0
      then Some (atof (offset (strlen n) txt)) else None
  | None => None
  end.

Definition pick_str (name : option cstr) (txt : cstr) : option cstr :=
  match name with
  | Some n =>
      if strncmp n txt (strlen n) =? 0
      then Some (offset (strlen n) txt) else None
  | None => None
  end.

(** * Properties *)

(** ** The model at the examples of the documentation *)

Example set_above_max :
  lconfigGetInt (lconfigSetInt Example.start 0 999) 0 = 10.
Proof. reflexivity. Qed.

Example set_below_min :
  lconfigGetInt (lconfigSetInt Example.start 0 (-999)) 0 = -10.
Proof. reflexivity. Qed.

Example set_long_string :
  lconfigGetString (lconfigSetString Example.start 0 (repeat "x"%char 40)) 0
  = Some (repeat "x"%char 32).
Proof. reflexivity. Qed.

Example atoi_texts :
  atoi (lit " -12x") = -12 /\ atoi (lit "abc") = 0 /\ atoi (lit "+7") = 7.
Proof. repeat split. Qed.

(** The config file of the header's example, as [lconfigWrite] prints it at
    program start ([%.17g] prints 4.0 as [4]). *)
Example canonical_file :
  @file_text Example.example_libc Example.LCONFIG_TEMPLATE (globals Example.start)
  = lit "#example" ++ NL :: lit "number_a 0" ++ NL :: lit "double_a 4" ++ NL
    :: NL :: lit "#foobar" ++ NL :: lit "double_b -4" ++ NL
    :: lit "string_a ABCD" ++ NL :: lit "number_b 15" ++ NL
    :: lit "double_c 0.5" ++ [NL].
Proof. reflexivity. Qed.

(** ** Arrays *)

Lemma upd_length {A : Type} (f : A -> A) (l : list A) (i : nat) :
  length (upd i f l) = length l.
Proof.
  revert i; induction l as [|x r IH]; intros [|i]; simpl; auto.
Qed.

Lemma nth_upd_same {A : Type} (f : A -> A) (d : A) (l : list A) (i : nat) :
  (i < length l)%nat -> nth i (upd i f l) d = f (nth i l d).
Proof.
  revert i; induction l as [|x r IH]; intros [|i]; simpl; intros Hi;
    try lia; auto.
  apply IH; lia.
Qed.

Lemma nth_upd_other {A : Type} (f : A -> A) (d : A) (l : list A) (i j : nat) :
  i <> j -> nth j (upd i f l) d = nth j l d.
Proof.
  revert i j; induction l as [|x r IH]; intros [|i] [|j]; simpl; intros Hij;
    try congruence; auto.
Qed.

Lemma valid_id_inv {A : Type} (name : A -> option cstr) (hole : A)
      (arr : list A) (id : Z) :
  valid_id name hole arr id = true ->
  (Z.to_nat id < length arr)%nat /\ 0 <= id
  /\ exists n, name (nth (Z.to_nat id) arr hole) = Some n.
Proof.
  unfold valid_id. rewrite !andb_true_iff, Z.leb_le, Z.ltb_lt.
  intros [[H0 H1] H2]. repeat split; try lia.
  destruct (name _) as [n|]; [eauto | discriminate].
Qed.

Lemma valid_id_upd {A : Type} (name : A -> option cstr) (hole : A)
      (arr : list A) (f : A -> A) (i : nat) (id : Z) :
  (forall c, name (f c) = name c) ->
  valid_id name hole (upd i f arr) id = valid_id name hole arr id.
Proof.
  intros Hf. unfold valid_id. rewrite upd_length.
  destruct (0 <=? id) eqn:H0; simpl; auto.
  destruct (id <? Z.of_nat (length arr)) eqn:H1; simpl; auto.
  apply Z.ltb_lt in H1. apply Z.leb_le in H0.
  destruct (Nat.eq_dec i (Z.to_nat id)) as [->|Hne].
  - rewrite nth_upd_same by lia. now rewrite Hf.
  - now rewrite nth_upd_other.
Qed.

(** ** Comparison of doubles *)

Lemma SFcompare_antisym (x y : spec_float) (c : comparison) :
  SFcompare x y = Some c -> SFcompare y x = Some (CompOpp c).
Proof.
  destruct x as [sx|sx| |sx mx ex], y as [sy|sy| |sy my ey]; simpl;
    try discriminate;
    try (destruct sx; intros [= <-]; reflexivity);
    try (destruct sy; intros [= <-]; reflexivity);
    try (intros [= <-]; reflexivity).
  - destruct sx, sy; intros [= <-]; reflexivity.
  - intros [= <-]. f_equal.
    rewrite (Z.compare_antisym ex ey).
    change (Pos.compare_cont Eq my mx) with (Pos.compare_cont (CompOpp Eq) my mx).
    rewrite <- (Pos.compare_cont_antisym mx my Eq).
    destruct sx, sy; simpl; try reflexivity;
      destruct (ex ?= ey)%Z; simpl; try reflexivity.
    all: destruct (Pos.compare_cont Eq mx my); reflexivity.
Qed.



Lemma SFleb_not_nan (x y : spec_float) :
  SFleb x y = true -> x <> S754_nan /\ y <> S754_nan.
Proof.
  unfold SFleb. destruct x, y; simpl; try discriminate; split; discriminate.
Qed.



Lemma SFleb_ltb_false (x y : spec_float) :
  SFleb x y = true -> SFltb y x = false.
Proof.
  unfold SFleb, SFltb. destruct (SFcompare x y) as [c|] eqn:Hc; try discriminate.
  rewrite (SFcompare_antisym _ _ _ Hc). destruct c; simpl; congruence.
Qed.

(** ** The clamping stores *)

Lemma lcfgIntSet_bounds (cfg : lcfg_int) (val : Z) :
  int_min cfg <= int_max cfg ->
  int_min cfg <= int_cur (lcfgIntSet cfg val) <= int_max cfg.
Proof.
  intros H. unfold lcfgIntSet; simpl.
  destruct (val <? int_min cfg) eqn:E1;
    [apply Z.ltb_lt in E1 | apply Z.ltb_ge in E1];
    match goal with |- context [?a >? ?b] => destruct (Z.gtb_spec a b) end; lia.
Qed.


(** ** Get after Set *)

Lemma lconfigGetInt_SetInt (w : world) (id val : Z) :
  registered_int w id ->
  lconfigGetInt (lconfigSetInt w id val) id
  = int_cur (lcfgIntSet (int_field w id) val).
Proof.
  unfold registered_int, lconfigGetInt, lconfigSetInt, int_field.
  intros Hreg. rewrite Hreg. simpl.
  rewrite valid_id_upd, Hreg by reflexivity.
  apply valid_id_inv in Hreg as (Hlt & _ & _).
  now rewrite nth_upd_same.
Qed.

Lemma lconfigGetDouble_SetDouble (w : world) (id : Z) (val : spec_float) :
  registered_dbl w id ->
  lconfigGetDouble (lconfigSetDouble w id val) id
  = dbl_cur (lcfgDblSet (dbl_field w id) val).
Proof.
  unfold registered_dbl, lconfigGetDouble, lconfigSetDouble, dbl_field.
  intros Hreg. rewrite Hreg. simpl.
  rewrite valid_id_upd, Hreg by reflexivity.
  apply valid_id_inv in Hreg as (Hlt & _ & _).
  now rewrite nth_upd_same.
Qed.

Lemma lconfigGetString_SetString (w : world) (id : Z) (val : cstr) :
  registered_str w id ->
  lconfigGetString (lconfigSetString w id val) id
  = Some (str_cur (lcfgStrSet (str_field w id) val)).
Proof.
  unfold registered_str, lconfigGetString, lconfigSetString, str_field.
  intros Hreg. rewrite Hreg. simpl.
  rewrite valid_id_upd, Hreg by reflexivity.
  apply valid_id_inv in Hreg as (Hlt & _ & _).
  now rewrite nth_upd_same.
Qed.




(** C2, as amended.  For an id that is not registered, [Get] returns -1,
    NAN and NULL.  NULL differs from what a registered string field
    returns; NAN differs from the value of a registered double field that
    lies within its bounds; -1 differs from the value of a registered int
    field that lies within bounds excluding -1. *)
Theorem get_unregistered_signal :
  (forall (w : world) (id : Z),
      ~ registered_int w id -> lconfigGetInt w id = -1)
  /\ (forall (w : world) (id : Z),
      ~ registered_dbl w id -> lconfigGetDouble w id = NAN)
  /\ (forall (w : world) (id : Z),
      ~ registered_str w id -> lconfigGetString w id = None)
  /\ (forall (w : world) (id : Z),
      registered_str w id -> lconfigGetString w id <> None)
  /\ (forall (w : world) (id : Z),
      registered_dbl w id ->
      dbl_between (dbl_min (dbl_field w id)) (dbl_cur (dbl_field w id))
                  (dbl_max (dbl_field w id)) ->
      lconfigGetDouble w id <> NAN)
  /\ (forall (w : world) (id : Z),
      registered_int w id ->
      int_min (int_field w id) <= int_cur (int_field w id)
      <= int_max (int_field w id) ->
      ~ (int_min (int_field w id) <= -1 <= int_max (int_field w id)) ->
      lconfigGetInt w id <> -1).
Proof.
  unfold registered_int, registered_dbl, registered_str,
    lconfigGetInt, lconfigGetDouble, lconfigGetString,
    int_field, dbl_field, str_field.
  repeat split.
  - intros w id H. now destruct (valid_id int_name _ _ id).
  - intros w id H. now destruct (valid_id dbl_name _ _ id).
  - intros w id H. now destruct (valid_id str_name _ _ id).
  - intros w id ->. discriminate.
  - intros w id -> [H _] E. unfold NAN in E. rewrite E in H.
    apply SFleb_not_nan in H. now destruct H.
  - intros w id -> Hin Hout. lia.
Qed.

Lemma get_unregistered_signal_witness :
  lconfigGetInt Example.start 7 = -1
  /\ lconfigGetDouble Example.start 7 = NAN
  /\ lconfigGetString Example.start 7 = None
  /\ lconfigGetString Example.start 0 <> None
  /\ lconfigGetDouble Example.start 2 <> NAN
  /\ lconfigGetInt Example.start 1 <> -1.
Proof.
  destruct get_unregistered_signal as (H1 & H2 & H3 & H4 & H5 & H6).
  repeat apply conj.
  - apply H1. vm_compute. discriminate.
  - apply H2. vm_compute. discriminate.
  - apply H3. vm_compute. discriminate.
  - apply H4. reflexivity.
  - apply H5; [reflexivity | split; reflexivity].
  - apply H6; [reflexivity | vm_compute; split; discriminate
               | vm_compute; intros [H _]; apply H; reflexivity].
Defined.

(** C2 as stated fails for the int category: -1 lies within the bounds
    [-10, 10] of [number_a], so the registered id 0 and the unregistered
    id 7 answer alike. *)
Lemma int_signal_is_a_valid_value :
  let w := lconfigSetInt Example.start 0 (-1) in
  registered_int w 0
  /\ ~ registered_int w 7
  /\ lconfigGetInt w 0 = -1
  /\ lconfigGetInt w 7 = -1.
Proof.
  repeat split. vm_compute. discriminate.
Qed.

(** ** Strings: truncation at the newline and at the buffer length *)

Lemma firstn_strcspn (len : nat) (s : cstr) :
  firstn (if (len <? strcspn_nl s)%nat then len else strcspn_nl s) s
  = firstn len (before_newline s).
Proof.
  revert len. induction s as [|c r IH]; intros len; simpl.
  - now destruct len.
  - destruct (Ascii.eqb c NL); simpl.
    + now destruct len.
    + destruct len as [|len]; simpl; [reflexivity|].
      specialize (IH len).
      change (S len <? S (strcspn_nl r))%nat with (len <? strcspn_nl r)%nat.
      destruct (len <? strcspn_nl r)%nat; simpl; now rewrite IH.
Qed.

Lemma before_newline_no_NL (s : cstr) : ~ In NL (before_newline s).
Proof.
  induction s as [|c r IH]; simpl; [tauto|].
  destruct (Ascii.eqb_spec c NL) as [->|Hne]; simpl; [tauto|].
  intros [H|H]; [congruence | tauto].
Qed.

Lemma firstn_In {A : Type} (n : nat) (l : list A) (x : A) :
  In x (firstn n l) -> In x l.
Proof.
  revert n; induction l as [|y r IH]; intros [|n]; simpl; try tauto.
  intros [H|H]; eauto.
Qed.

Lemma lcfgStrSet_cur (cfg : lcfg_str) (val : cstr) :
  str_cur (lcfgStrSet cfg val) = firstn (str_len cfg) (before_newline val).
Proof.
  unfold lcfgStrSet; simpl. apply firstn_strcspn.
Qed.

Lemma lcfgStrSet_ok (cfg : lcfg_str) (val : cstr) : str_ok (lcfgStrSet cfg val).
Proof.
  unfold str_ok. rewrite lcfgStrSet_cur. split.
  - intros H. apply firstn_In in H. now apply before_newline_no_NL in H.
  - simpl. rewrite length_firstn. lia.
Qed.

(** A value that already is one fitting line is stored as it stands. *)
Lemma before_newline_id (s : cstr) : ~ In NL s -> before_newline s = s.
Proof.
  induction s as [|c r IH]; simpl; [reflexivity|]. intros H.
  destruct (Ascii.eqb_spec c NL) as [->|Hne]; [tauto|].
  f_equal. apply IH. tauto.
Qed.

(** C6.  After [Set(id, s)] on a registered string field, [Get(id)] has at
    most [max_length] characters and is the first [max_length] characters of
    [s] cut in front of its first newline. *)
Theorem set_string_truncates (w : world) (id : Z) (s : cstr) :
  registered_str w id ->
  exists v : cstr,
    lconfigGetString (lconfigSetString w id s) id = Some v
    /\ (length v <= str_len (str_field w id))%nat
    /\ v = firstn (str_len (str_field w id)) (before_newline s).
Proof.
  intros Hreg. rewrite lconfigGetString_SetString by assumption.
  eexists; split; [reflexivity|]. rewrite lcfgStrSet_cur. split.
  - rewrite length_firstn. lia.
  - reflexivity.
Qed.

Lemma set_string_truncates_witness :
  exists v : cstr,
    lconfigGetString
      (lconfigSetString Example.start 0 (repeat "x"%char 40)) 0 = Some v
    /\ (length v <= 32)%nat
    /\ v = firstn 32 (before_newline (repeat "x"%char 40)).
Proof.
  apply (set_string_truncates Example.start 0 (repeat "x"%char 40)).
  reflexivity.
Defined.

(** ** [lconfigDefault] *)

Lemma valid_id_map {A : Type} (name : A -> option cstr) (hole : A)
      (arr : list A) (f : A -> A) (id : Z) :
  (forall c, name (f c) = name c) -> f hole = hole ->
  valid_id name hole (map f arr) id = valid_id name hole arr id.
Proof.
  intros Hname Hhole. unfold valid_id. rewrite length_map.
  rewrite <- Hhole at 1. now rewrite map_nth, Hname.
Qed.

Lemma nth_map_hole {A : Type} (hole : A) (arr : list A) (f : A -> A) (i : nat) :
  f hole = hole -> nth i (map f arr) hole = f (nth i arr hole).
Proof.
  intros Hhole. rewrite <- Hhole at 1. apply map_nth.
Qed.

Lemma lconfigGetInt_Default (w : world) (id : Z) :
  registered_int w id ->
  lconfigGetInt (lconfigDefault w) id
  = int_cur (lcfgIntSet (int_field w id) (int_def (int_field w id))).
Proof.
  unfold registered_int, lconfigGetInt, lconfigDefault, int_field. simpl.
  intros Hreg. rewrite valid_id_map, Hreg;
    [| intros c; now destruct (has_name (int_name c)) | reflexivity].
  rewrite nth_map_hole by reflexivity.
  apply valid_id_inv in Hreg as (_ & _ & n & ->). reflexivity.
Qed.

Lemma lconfigGetDouble_Default (w : world) (id : Z) :
  registered_dbl w id ->
  lconfigGetDouble (lconfigDefault w) id
  = dbl_cur (lcfgDblSet (dbl_field w id) (dbl_def (dbl_field w id))).
Proof.
  unfold registered_dbl, lconfigGetDouble, lconfigDefault, dbl_field. simpl.
  intros Hreg. rewrite valid_id_map, Hreg;
    [| intros c; now destruct (has_name (dbl_name c)) | reflexivity].
  rewrite nth_map_hole by reflexivity.
  apply valid_id_inv in Hreg as (_ & _ & n & ->). reflexivity.
Qed.

Lemma lconfigGetString_Default (w : world) (id : Z) :
  registered_str w id ->
  lconfigGetString (lconfigDefault w) id
  = Some (str_cur (lcfgStrSet (str_field w id) (str_def (str_field w id)))).
Proof.
  unfold registered_str, lconfigGetString, lconfigDefault, str_field. simpl.
  intros Hreg. rewrite valid_id_map, Hreg;
    [| intros c; now destruct (has_name (str_name c)) | reflexivity].
  rewrite nth_map_hole by reflexivity.
  apply valid_id_inv in Hreg as (_ & _ & n & ->). reflexivity.
Qed.

Lemma lcfgIntSet_in_bounds (cfg : lcfg_int) (val : Z) :
  int_min cfg <= val <= int_max cfg -> int_cur (lcfgIntSet cfg val) = val.
Proof.
  intros H. unfold lcfgIntSet; simpl.
  destruct (Z.ltb_spec val (int_min cfg)); [lia|].
  destruct (Z.gtb_spec val (int_max cfg)); [lia | reflexivity].
Qed.

Lemma lcfgDblSet_in_bounds (cfg : lcfg_dbl) (val : spec_float) :
  dbl_between (dbl_min cfg) val (dbl_max cfg) ->
  dbl_cur (lcfgDblSet cfg val) = val.
Proof.
  intros [H1 H2]. unfold lcfgDblSet; simpl.
  now rewrite (SFleb_ltb_false _ _ H1), (SFleb_ltb_false _ _ H2).
Qed.

Lemma lcfgStrSet_in_bounds (cfg : lcfg_str) (val : cstr) :
  ~ In NL val -> (length val <= str_len cfg)%nat ->
  str_cur (lcfgStrSet cfg val) = val.
Proof.
  intros Hnl Hlen. rewrite lcfgStrSet_cur, before_newline_id by assumption.
  now apply firstn_all2.
Qed.

(** C7, as amended.  After [lconfigDefault], [Get(id)] returns for every
    registered field the declared default passed through the clamping of
    [Set]: the declared default itself whenever it lies within the declared
    bounds (a string default: no newline, at most [max_length] characters).
    The file system is left as it was. *)
Theorem default_resets_to_clamped_default (w : world) :
  disk (lconfigDefault w) = disk w
  /\ (forall id : Z, registered_int w id ->
        lconfigGetInt (lconfigDefault w) id
        = int_cur (lcfgIntSet (int_field w id) (int_def (int_field w id)))
        /\ (int_min (int_field w id) <= int_def (int_field w id)
            <= int_max (int_field w id) ->
            lconfigGetInt (lconfigDefault w) id = int_def (int_field w id)))
  /\ (forall id : Z, registered_dbl w id ->
        lconfigGetDouble (lconfigDefault w) id
        = dbl_cur (lcfgDblSet (dbl_field w id) (dbl_def (dbl_field w id)))
        /\ (dbl_between (dbl_min (dbl_field w id)) (dbl_def (dbl_field w id))
                        (dbl_max (dbl_field w id)) ->
            lconfigGetDouble (lconfigDefault w) id = dbl_def (dbl_field w id)))
  /\ (forall id : Z, registered_str w id ->
        lconfigGetString (lconfigDefault w) id
        = Some (str_cur (lcfgStrSet (str_field w id) (str_def (str_field w id))))
        /\ (~ In NL (str_def (str_field w id)) ->
            (length (str_def (str_field w id)) <= str_len (str_field w id))%nat ->
            lconfigGetString (lconfigDefault w) id
            = Some (str_def (str_field w id)))).
Proof.
  split; [reflexivity|]. repeat apply conj; intros id Hreg.
  - rewrite lconfigGetInt_Default by assumption. split; [reflexivity|].
    apply lcfgIntSet_in_bounds.
  - rewrite lconfigGetDouble_Default by assumption. split; [reflexivity|].
    apply lcfgDblSet_in_bounds.
  - rewrite lconfigGetString_Default by assumption. split; [reflexivity|].
    intros Hnl Hlen. f_equal. now apply lcfgStrSet_in_bounds.
Qed.

Lemma default_resets_to_clamped_default_witness :
  let w := lconfigSetString
             (lconfigSetDouble (lconfigSetInt Example.start 1 12) 1 Example.d_m32)
             0 (lit "changed") in
  lconfigGetInt w 1 = 12
  /\ lconfigGetInt (lconfigDefault w) 1 = 15
  /\ lconfigGetDouble (lconfigDefault w) 1 = Example.d_m4
  /\ lconfigGetString (lconfigDefault w) 0 = Some (lit "ABCD").
Proof.
  intros w.
  destruct (default_resets_to_clamped_default w) as (_ & Hi & Hd & Hs).
  split; [reflexivity|]. repeat apply conj.
  - apply (Hi 1); [reflexivity | vm_compute; split; discriminate].
  - apply (Hd 1); [reflexivity | split; reflexivity].
  - apply (Hs 0); [reflexivity | vm_compute; intuition discriminate
                   | vm_compute; repeat constructor].
Defined.

(** C7 as stated fails when a declared default lies outside the declared
    bounds: the default 50 of a field with bounds [0, 10] is reset to 10. *)
Lemma default_out_of_bounds_is_clamped :
  let w := mk_world (init_store Example.default_above_max) Example.fresh_disk in
  registered_int w 0
  /\ int_def (int_field w 0) = 50
  /\ lconfigGetInt (lconfigDefault w) 0 = 10.
Proof.
  repeat split.
Qed.

(** ** [lconfigWrite] *)

Section Write.

Context {libc_double : DoubleText}.

(** C8.  [lconfigWrite] leaves the globals as they are, whether or not
    the destination could be opened (return value 0 or 1); every accessor
    answers as before. *)
Theorem write_keeps_store (t : template) (w : world) :
  globals (snd (lconfigWrite t w)) = globals w
  /\ fst (lconfigWrite t w) = (if fs_may_write (disk w) then 0 else 1)
  /\ (forall id, lconfigGetInt (snd (lconfigWrite t w)) id = lconfigGetInt w id)
  /\ (forall id, lconfigGetDouble (snd (lconfigWrite t w)) id
                 = lconfigGetDouble w id)
  /\ (forall id, lconfigGetString (snd (lconfigWrite t w)) id
                 = lconfigGetString w id).
Proof.
  assert (H : globals (snd (lconfigWrite t w)) = globals w).
  { unfold lconfigWrite. now destruct (fs_may_write (disk w)). }
  unfold lconfigGetInt, lconfigGetDouble, lconfigGetString.
  rewrite H. repeat split.
  unfold lconfigWrite. now destruct (fs_may_write (disk w)).
Qed.

End Write.

(** ** Integer text: [%d] and [atoi] *)

Lemma digit_cases (d : Z) :
  0 <= d <= 9 ->
  d = 0 \/ d = 1 \/ d = 2 \/ d = 3 \/ d = 4 \/ d = 5 \/ d = 6 \/ d = 7 \/ d = 8 \/ d = 9.
Proof. lia. Qed.

Ltac each_digit d H :=
  destruct (digit_cases d H) as [->|[->|[->|[->|[->|[->|[->|[->|[->| ->]]]]]]]]].

Lemma mod10 (n : Z) : 0 <= n mod 10 <= 9.
Proof. pose proof (Z.mod_pos_bound n 10). lia. Qed.

Lemma digit_val_char (d : Z) : 0 <= d <= 9 -> digit_val (digit_char d) = Some d.
Proof. intros H. each_digit d H; reflexivity. Qed.

Lemma digit_char_plain (d : Z) :
  0 <= d <= 9 ->
  isspace (digit_char d) = false
  /\ Ascii.eqb (digit_char d) "-"%char = false
  /\ Ascii.eqb (digit_char d) "+"%char = false.
Proof. intros H. each_digit d H; repeat split. Qed.

Lemma dec_digits_head (f : nat) (n : Z) (acc : cstr) :
  0 <= n ->
  exists d r, 0 <= d <= 9 /\ dec_digits (S f) n acc = digit_char d :: r.
Proof.
  revert n acc. induction f as [|f IH]; intros n acc Hn.
  - exists (n mod 10). simpl. destruct (n <? 10); eexists; split;
      try reflexivity; apply mod10.
  - change (dec_digits (S (S f)) n acc)
      with (let acc' := digit_char (n mod 10) :: acc in
            if n <? 10 then acc' else dec_digits (S f) (n / 10) acc').
    cbv zeta. destruct (n <? 10).
    + exists (n mod 10). eexists; split; [apply mod10 | reflexivity].
    + apply IH. apply Z.div_pos; lia.
Qed.

Lemma strtol_dec_digits (f : nat) (n : Z) (acc tl : cstr) (g : Z -> Z) :
  0 <= n < 2 ^ Z.of_nat (S f) ->
  (forall a, strtol_digits a (acc ++ tl) = g a) ->
  strtol_digits 0 (dec_digits (S f) n acc ++ tl) = g n.
Proof.
  revert n acc g. induction f as [|f IH]; intros n acc g Hn Hg.
  - change (2 ^ Z.of_nat 1) with 2 in Hn.
    assert (E : (n <? 10) = true) by (apply Z.ltb_lt; lia).
    simpl. rewrite E. simpl.
    rewrite digit_val_char by (apply mod10).
    rewrite Hg. f_equal. rewrite Z.mod_small; lia.
  - change (dec_digits (S (S f)) n acc)
      with (let acc' := digit_char (n mod 10) :: acc in
            if n <? 10 then acc' else dec_digits (S f) (n / 10) acc').
    cbv zeta. destruct (Z.ltb_spec n 10) as [Hlt|Hge].
    + simpl. rewrite digit_val_char by (apply mod10).
      rewrite Hg. f_equal. rewrite Z.mod_small; lia.
    + rewrite (IH (n / 10) _ (fun a => g (10 * a + n mod 10))).
      * f_equal. symmetry. apply Z.div_mod. lia.
      * split; [apply Z.div_pos; lia|].
        apply Z.div_lt_upper_bound; [lia|].
        rewrite Nat2Z.inj_succ, Z.pow_succ_r in Hn by lia. lia.
      * intros a. simpl.
        rewrite digit_val_char by (apply mod10). apply Hg.
Qed.

Lemma dec_fuel_enough (n : Z) : 0 <= n -> 0 <= n < 2 ^ Z.of_nat (dec_fuel n).
Proof.
  intros Hn. split; [assumption|]. unfold dec_fuel.
  rewrite Nat2Z.inj_succ, Z2Nat.id by apply Z.log2_nonneg.
  destruct (Z.eq_dec n 0) as [->|Hne]; [reflexivity|].
  apply Z.log2_spec. lia.
Qed.

Lemma strtol_digits_dec (n : Z) (rest : cstr) :
  0 <= n ->
  strtol_digits 0 (dec_digits (dec_fuel n) n [] ++ NL :: rest) = n.
Proof.
  intros Hn. unfold dec_fuel.
  apply (strtol_dec_digits _ n [] (NL :: rest) (fun a => a)).
  - apply (dec_fuel_enough n Hn).
  - reflexivity.
Qed.

Lemma to_int_range (z : Z) : int_range z -> to_int z = z.
Proof.
  unfold int_range, INT_MIN, INT_MAX, to_int. intros H.
  rewrite Z.mod_small; lia.
Qed.

Lemma strtol10_minus (s : cstr) :
  strtol10 ("-"%char :: s)
  = Z.max LONG_MIN (Z.min LONG_MAX (- strtol_digits 0 s)).
Proof. reflexivity. Qed.

Lemma strtol10_digit (d : Z) (r : cstr) :
  0 <= d <= 9 ->
  strtol10 (digit_char d :: r)
  = Z.max LONG_MIN (Z.min LONG_MAX (strtol_digits 0 (digit_char d :: r))).
Proof. intros H. each_digit d H; reflexivity. Qed.

(** [atoi] reads back what [%d] printed, whatever follows the newline. *)
Lemma atoi_fmt_d (z : Z) (rest : cstr) :
  int_range z -> atoi (fmt_d z ++ NL :: rest) = z.
Proof.
  intros Hz. unfold atoi.
  assert (E : strtol10 (fmt_d z ++ NL :: rest) = z).
  { unfold int_range, INT_MIN, INT_MAX in Hz. unfold fmt_d.
    destruct (Z.ltb_spec z 0) as [Hneg|Hpos].
    - rewrite <- app_comm_cons, strtol10_minus, strtol_digits_dec by lia.
      unfold LONG_MIN, LONG_MAX. lia.
    - pose proof (strtol_digits_dec z rest Hpos) as Hparse.
      unfold dec_fuel in Hparse |- *.
      destruct (dec_digits_head (Z.to_nat (Z.log2 z)) z [] Hpos)
        as (d & r & Hd & E).
      rewrite E in Hparse |- *. rewrite <- app_comm_cons in Hparse |- *.
      rewrite strtol10_digit, Hparse by assumption.
      unfold LONG_MIN, LONG_MAX. lia. }
  rewrite E. now apply to_int_range.
Qed.

(** ** Prefixes and [strncmp] *)

Lemma code_inj (c1 c2 : ascii) : code c1 = code c2 -> c1 = c2.
Proof.
  unfold code. intros H. apply N2Z.inj in H.
  rewrite <- (ascii_N_embedding c1), <- (ascii_N_embedding c2). now rewrite H.
Qed.

Lemma code_NUL (c : ascii) : code c = 0 -> c = NUL.
Proof. intros H. apply code_inj. exact H. Qed.

(** On a name that is a C string, the test of the readers is the test for
    an initial segment. *)
Lemma strncmp_prefixb (s1 s2 : cstr) :
  ~ In NUL s1 -> (strncmp s1 s2 (strlen s1) =? 0) = prefixb s1 s2.
Proof.
  unfold strlen. revert s2. induction s1 as [|c1 r1 IH]; intros s2 Hnul.
  - reflexivity.
  - simpl in Hnul. destruct s2 as [|c2 r2]; simpl.
    + apply Z.eqb_neq. intros H. apply code_NUL in H. intuition.
    + destruct (Ascii.eqb_spec c1 c2) as [->|Hne]; simpl.
      * apply IH. tauto.
      * apply Z.eqb_neq. intros H. apply Hne, code_inj. lia.
Qed.

Lemma prefixb_app (s1 s2 : cstr) :
  prefixb s1 s2 = true <-> exists r, s2 = s1 ++ r.
Proof.
  revert s2. induction s1 as [|c1 r1 IH]; intros s2; simpl.
  - split; eauto.
  - destruct s2 as [|c2 r2].
    + split; [discriminate | intros [r Hr]; discriminate].
    + rewrite andb_true_iff, IH. split.
      * intros [Hc [r ->]]. apply Ascii.eqb_eq in Hc. subst. eauto.
      * intros [r [= -> ->]]. split; [apply Ascii.eqb_refl | eauto].
Qed.

Lemma prefixb_refl (s : cstr) : prefixb s s = true.
Proof. apply prefixb_app. exists []. now rewrite app_nil_r. Qed.

(** Two initial segments of one text: one is an initial segment of the
    other. *)
Lemma prefixb_comparable (s1 s2 txt : cstr) :
  prefixb s1 txt = true -> prefixb s2 txt = true ->
  prefixb s1 s2 = true \/ prefixb s2 s1 = true.
Proof.
  revert s2 txt. induction s1 as [|c1 r1 IH]; intros s2 txt; simpl; [auto|].
  destruct s2 as [|c2 r2]; simpl; [auto|].
  destruct txt as [|c t]; [discriminate|].
  intros H1 H2. apply andb_true_iff in H1 as [E1 H1].
  apply andb_true_iff in H2 as [E2 H2].
  apply Ascii.eqb_eq in E1, E2. subst. rewrite Ascii.eqb_refl. simpl.
  eapply IH; eassumption.
Qed.

Lemma prefixb_trans_app (s1 s2 r : cstr) :
  prefixb s1 s2 = true -> prefixb s1 (s2 ++ r) = true.
Proof.
  rewrite !prefixb_app. intros [r' ->]. exists (r' ++ r). now rewrite app_assoc.
Qed.

Lemma offset_app (s r : cstr) : offset (strlen s) (s ++ r) = r.
Proof.
  unfold offset, strlen. induction s; simpl; auto.
Qed.

(** ** [fgets] *)

Lemma fgets_chars_split (n : nat) (s l r : list ascii) :
  fgets_chars n s = (l, r) -> s = l ++ r.
Proof.
  revert s l r. induction n as [|n IH]; intros s l r; simpl.
  - destruct s; intros [= <- <-]; reflexivity.
  - destruct s as [|c s']; [intros [= <- <-]; reflexivity|].
    destruct (Ascii.eqb c NL); [intros [= <- <-]; reflexivity|].
    destruct (fgets_chars n s') as [l' r'] eqn:E.
    intros [= <- <-]. simpl. f_equal. now apply IH.
Qed.

Lemma fgets_chars_progress (n : nat) (c : ascii) (s l r : list ascii) :
  fgets_chars (S n) (c :: s) = (l, r) -> (length r <= length s)%nat.
Proof.
  intros H. pose proof (fgets_chars_split _ _ _ _ H) as E. simpl in H.
  destruct (Ascii.eqb c NL).
  - injection H as <- <-. lia.
  - destruct (fgets_chars n s) as [l' r'] eqn:E'. injection H as <- <-.
    apply fgets_chars_split in E'. subst s. rewrite length_app. lia.
Qed.

Lemma fgets_chars_cons (n : nat) (c : ascii) (s : list ascii) :
  fgets_chars (S n) (c :: s)
  = if Ascii.eqb c NL then ([c], s)
    else let '(l, r') := fgets_chars n s in (c :: l, r').
Proof. reflexivity. Qed.

Lemma fgets_chars_chunk (n : nat) (c : ascii) (s buf rest : list ascii) :
  fgets_chars (S n) (c :: s) = (buf, rest) -> chunkb buf = true.
Proof.
  revert c s buf rest. induction n as [|n IH]; intros c s buf rest;
    rewrite fgets_chars_cons; destruct (Ascii.eqb c NL) eqn:Ec;
    try (now intros [= <- <-]).
  destruct s as [|c' s']; [simpl; now intros [= <- <-]|].
  destruct (fgets_chars (S n) (c' :: s')) as [l r'] eqn:E.
  intros [= <- <-]. apply IH in E.
  destruct l as [|c0 l0]; [discriminate|].
  change (chunkb (c :: c0 :: l0))
    with (negb (Ascii.eqb c NL) && chunkb (c0 :: l0)).
  now rewrite Ec, E.
Qed.

(** A chunk at the start of a text lies within its first line. *)
Lemma lines_of_chunk_head (buf rest : list ascii) :
  chunkb buf = true ->
  exists b ls, lines_of (buf ++ rest) = (buf ++ b) :: ls.
Proof.
  induction buf as [|c r IH]; [discriminate|]. destruct r as [|c' r'].
  - intros _. simpl. destruct (Ascii.eqb c NL).
    + now exists [], (lines_of rest).
    + destruct (lines_of rest) as [|l ls]; [now exists [], [] | now exists l, ls].
  - intros H.
    change (chunkb (c :: c' :: r'))
      with (negb (Ascii.eqb c NL) && chunkb (c' :: r')) in H.
    apply andb_true_iff in H as [Hc H]. apply negb_true_iff in Hc.
    destruct (IH H) as (b & ls & E).
    change ((c :: c' :: r') ++ rest) with (c :: ((c' :: r') ++ rest)).
    change (lines_of (c :: ((c' :: r') ++ rest)))
      with (if Ascii.eqb c NL then [c] :: lines_of ((c' :: r') ++ rest)
            else match lines_of ((c' :: r') ++ rest) with
                 | [] => [[c]]
                 | l :: ls => (c :: l) :: ls
                 end).
    rewrite Hc, E. now exists b, ls.
Qed.

(** A chunk anywhere in a text lies within one of its lines. *)
Lemma lines_of_chunk (pre buf rest : list ascii) :
  chunkb buf = true ->
  exists l a b, In l (lines_of (pre ++ buf ++ rest)) /\ l = a ++ buf ++ b.
Proof.
  intros H. induction pre as [|c pre IH].
  2: destruct IH as (l & a & b & Hin & ->).
  - destruct (lines_of_chunk_head buf rest H) as (b & ls & E).
    exists (buf ++ b), [], b. simpl. rewrite E. simpl. auto.
  - simpl. destruct (Ascii.eqb c NL).
    + exists (a ++ buf ++ b), a, b. simpl. auto.
    + destruct (lines_of (pre ++ buf ++ rest)) as [|l0 ls]; [contradiction|].
      destruct Hin as [->|Hin].
      * exists (c :: a ++ buf ++ b), (c :: a), b. simpl. auto.
      * exists (a ++ buf ++ b), a, b. simpl. auto.
Qed.

Lemma c_str_prefix (buf : list ascii) : exists r, buf = c_str buf ++ r.
Proof.
  induction buf as [|c b [r IH]]; simpl; [now exists []|].
  destruct (Ascii.eqb c NUL); [now exists (c :: b)|].
  exists r. simpl. now f_equal.
Qed.

Lemma one_line_fgets (n : nat) (l rest : list ascii) :
  one_line l = true -> (length l <= n)%nat ->
  fgets_chars n (l ++ rest) = (l, rest).
Proof.
  revert n. induction l as [|c r IH]; intros n; [discriminate|].
  destruct n as [|n]; [simpl; lia|]. simpl length. intros H Hlen.
  destruct r as [|c' r'].
  - simpl in H |- *. now rewrite H.
  - change (one_line (c :: c' :: r'))
      with (negb (Ascii.eqb c NL) && negb (Ascii.eqb c NUL) && one_line (c' :: r')) in H.
    rewrite !andb_true_iff, !negb_true_iff in H. destruct H as [[H1 H2] H3].
    change (fgets_chars (S n) ((c :: c' :: r') ++ rest))
      with (if Ascii.eqb c NL then ([c], (c' :: r') ++ rest)
            else let '(l, r'') := fgets_chars n ((c' :: r') ++ rest) in (c :: l, r'')).
    rewrite H1, IH; [reflexivity | assumption | simpl in *; lia].
Qed.

Lemma one_line_c_str (l : list ascii) : one_line l = true -> c_str l = l.
Proof.
  induction l as [|c r IH]; [discriminate|]. destruct r as [|c' r'].
  - simpl. intros H. apply Ascii.eqb_eq in H. subst. reflexivity.
  - change (one_line (c :: c' :: r'))
      with (negb (Ascii.eqb c NL) && negb (Ascii.eqb c NUL) && one_line (c' :: r')).
    rewrite !andb_true_iff, !negb_true_iff. intros [[H1 H2] H3].
    change (c_str (c :: c' :: r'))
      with (if Ascii.eqb c NUL then [] else c :: c_str (c' :: r')).
    rewrite H2, IH; auto.
Qed.

(** ** The readers of one field *)

Section Read.

Context {libc_double : DoubleText}.

Lemma lcfgIntRead_name (c : lcfg_int) (txt : cstr) :
  int_name (lcfgIntRead c txt) = int_name c.
Proof.
  unfold lcfgIntRead. destruct (int_name c) eqn:E; auto.
  destruct (_ =? 0); auto.
Qed.

Lemma lcfgDblRead_name (c : lcfg_dbl) (txt : cstr) :
  dbl_name (lcfgDblRead c txt) = dbl_name c.
Proof.
  unfold lcfgDblRead. destruct (dbl_name c) eqn:E; auto.
  destruct (_ =? 0); auto.
Qed.

Lemma lcfgStrRead_name (c : lcfg_str) (txt : cstr) :
  str_name (lcfgStrRead c txt) = str_name c.
Proof.
  unfold lcfgStrRead. destruct (str_name c) eqn:E; auto.
  destruct (_ =? 0); auto.
Qed.

Lemma lcfgIntRead_unmatched (c : lcfg_int) (txt n : cstr) :
  int_name c = Some n -> ~ In NUL n -> prefixb n txt = false ->
  lcfgIntRead c txt = c.
Proof.
  intros Hn Hnul Hp. unfold lcfgIntRead.
  now rewrite Hn, strncmp_prefixb, Hp.
Qed.

Lemma lcfgDblRead_unmatched (c : lcfg_dbl) (txt n : cstr) :
  dbl_name c = Some n -> ~ In NUL n -> prefixb n txt = false ->
  lcfgDblRead c txt = c.
Proof.
  intros Hn Hnul Hp. unfold lcfgDblRead.
  now rewrite Hn, strncmp_prefixb, Hp.
Qed.

Lemma lcfgStrRead_unmatched (c : lcfg_str) (txt n : cstr) :
  str_name c = Some n -> ~ In NUL n -> prefixb n txt = false ->
  lcfgStrRead c txt = c.
Proof.
  intros Hn Hnul Hp. unfold lcfgStrRead.
  now rewrite Hn, strncmp_prefixb, Hp.
Qed.

Lemma read_line_steps (st : store) (txt : cstr) :
  read_line st txt
  = mk_store (map (int_step txt) (lcfg_ints st))
             (map (dbl_step txt) (lcfg_dbls st))
             (map (str_step txt) (lcfg_strs st)).
Proof. reflexivity. Qed.

Lemma int_step_name txt c : int_name (int_step txt c) = int_name c.
Proof. unfold int_step. destruct (has_name _); auto using lcfgIntRead_name. Qed.
Lemma dbl_step_name txt c : dbl_name (dbl_step txt c) = dbl_name c.
Proof. unfold dbl_step. destruct (has_name _); auto using lcfgDblRead_name. Qed.
Lemma str_step_name txt c : str_name (str_step txt c) = str_name c.
Proof. unfold str_step. destruct (has_name _); auto using lcfgStrRead_name. Qed.

Lemma read_line_name_at (st : store) (txt : cstr) (k : key) :
  name_at (read_line st txt) k = name_at st k.
Proof.
  rewrite read_line_steps. destruct k as [id|id|id]; simpl.
  - rewrite nth_map_hole by reflexivity. apply int_step_name.
  - rewrite nth_map_hole by reflexivity. apply dbl_step_name.
  - rewrite nth_map_hole by reflexivity. apply str_step_name.
Qed.

(** [Get] of a field after one line, in terms of the element before. *)
Lemma get_read_line (st : store) (d : filesys) (txt : cstr) (k : key) :
  get (mk_world (read_line st txt) d) k
  = match k with
    | KInt id =>
        VInt (if valid_id int_name int_hole (lcfg_ints st) (Z.of_nat id)
              then int_cur (int_step txt (nth id (lcfg_ints st) int_hole))
              else -1)
    | KDbl id =>
        VDbl (if valid_id dbl_name dbl_hole (lcfg_dbls st) (Z.of_nat id)
              then dbl_cur (dbl_step txt (nth id (lcfg_dbls st) dbl_hole))
              else NAN)
    | KStr id =>
        VStr (if valid_id str_name str_hole (lcfg_strs st) (Z.of_nat id)
              then Some (str_cur (str_step txt (nth id (lcfg_strs st) str_hole)))
              else None)
    end.
Proof.
  rewrite read_line_steps. destruct k as [id|id|id]; simpl;
    unfold lconfigGetInt, lconfigGetDouble, lconfigGetString; simpl;
    rewrite valid_id_map, Nat2Z.id, nth_map_hole;
    auto using int_step_name, dbl_step_name, str_step_name.
Qed.

Lemma get_store (st : store) (d : filesys) (k : key) :
  get (mk_world st d) k
  = match k with
    | KInt id =>
        VInt (if valid_id int_name int_hole (lcfg_ints st) (Z.of_nat id)
              then int_cur (nth id (lcfg_ints st) int_hole) else -1)
    | KDbl id =>
        VDbl (if valid_id dbl_name dbl_hole (lcfg_dbls st) (Z.of_nat id)
              then dbl_cur (nth id (lcfg_dbls st) dbl_hole) else NAN)
    | KStr id =>
        VStr (if valid_id str_name str_hole (lcfg_strs st) (Z.of_nat id)
              then Some (str_cur (nth id (lcfg_strs st) str_hole)) else None)
    end.
Proof.
  destruct k as [id|id|id]; simpl;
    unfold lconfigGetInt, lconfigGetDouble, lconfigGetString; simpl;
    now rewrite Nat2Z.id.
Qed.

Lemma valid_id_no_name {A : Type} (name : A -> option cstr) (hole : A)
      (arr : list A) (id : nat) :
  name (nth id arr hole) = None -> valid_id name hole arr (Z.of_nat id) = false.
Proof.
  intros H. unfold valid_id. rewrite Nat2Z.id, H. simpl.
  now rewrite andb_false_r.
Qed.

(** A line on which the stored name of a field does not start leaves
    what [Get] returns for it. *)
Lemma read_line_get_unmatched (st : store) (d : filesys) (txt : cstr)
      (k : key) (n : cstr) :
  name_at st k = Some n -> ~ In NUL n -> prefixb n txt = false ->
  get (mk_world (read_line st txt) d) k = get (mk_world st d) k.
Proof.
  intros Hn Hnul Hp. rewrite get_read_line, get_store.
  destruct k as [id|id|id]; simpl in Hn.
  - unfold int_step. rewrite Hn. simpl.
    now rewrite (lcfgIntRead_unmatched _ _ _ Hn Hnul Hp).
  - unfold dbl_step. rewrite Hn. simpl.
    now rewrite (lcfgDblRead_unmatched _ _ _ Hn Hnul Hp).
  - unfold str_step. rewrite Hn. simpl.
    now rewrite (lcfgStrRead_unmatched _ _ _ Hn Hnul Hp).
Qed.

Lemma read_line_get_unregistered (st : store) (d : filesys) (txt : cstr)
      (k : key) :
  name_at st k = None ->
  get (mk_world (read_line st txt) d) k = get (mk_world st d) k.
Proof.
  intros Hn. rewrite get_read_line, get_store.
  destruct k as [id|id|id]; simpl in Hn;
    now rewrite valid_id_no_name by assumption.
Qed.

(** A field whose value one line changes has its stored name at the
    start of the line. *)
Lemma read_line_changed (st : store) (d : filesys) (txt : cstr) (k : key) :
  names_are_strings st ->
  get (mk_world (read_line st txt) d) k <> get (mk_world st d) k ->
  exists n, name_at st k = Some n /\ prefixb n txt = true.
Proof.
  intros Hwf Hch. destruct (name_at st k) as [n|] eqn:Hn.
  - exists n. split; [reflexivity|].
    destruct (prefixb n txt) eqn:Hp; [reflexivity|].
    exfalso. apply Hch. eapply read_line_get_unmatched; eauto.
  - exfalso. apply Hch. now apply read_line_get_unregistered.
Qed.

(** ** The loop of [lconfigRead] *)

Lemma read_loop_total (lmax fuel : nat) (cfg : list ascii) (st : store) :
  (2 <= lmax)%nat -> (length cfg < fuel)%nat ->
  exists st', read_loop fuel lmax cfg st = Some st'.
Proof.
  intros Hl. revert cfg st. induction fuel as [|f IH]; intros cfg st Hf; [lia|].
  simpl. destruct cfg as [|c s]; simpl; [eauto|].
  destruct lmax as [|[|n]]; try lia.
  change (S (S n) - 1)%nat with (S n)%nat.
  destruct (fgets_chars (S n) (c :: s)) as [buf rest] eqn:E.
  apply fgets_chars_progress in E. apply IH. simpl in Hf. lia.
Qed.

(** Induction over the buffers the loop sees: each is a segment of the
    file. *)
Lemma read_loop_segments (P : store -> Prop) (Q : cstr -> Prop) :
  (forall st txt, Q txt -> P st -> P (read_line st txt)) ->
  forall (fuel lmax : nat) (cfg : list ascii) (st st' : store),
    (forall pre buf rest, cfg = pre ++ buf ++ rest -> Q (c_str buf)) ->
    P st -> read_loop fuel lmax cfg st = Some st' -> P st'.
Proof.
  intros Hstep fuel lmax. induction fuel as [|f IH]; intros cfg st st' HQ HP;
    [discriminate|].
  simpl. destruct cfg as [|c s]; simpl; [now intros [= <-]|].
  destruct (fgets_chars (lmax - 1) (c :: s)) as [buf rest] eqn:E.
  apply fgets_chars_split in E. apply IH.
  - intros pre buf' rest' ->. apply (HQ (buf ++ pre) buf' rest').
    now rewrite E, <- app_assoc.
  - apply Hstep; [|assumption]. apply (HQ [] buf rest). exact E.
Qed.

(** The same over the buffers as [fgets] cuts them. *)
Lemma read_loop_chunks (P : store -> Prop) (Q : cstr -> Prop) :
  (forall st txt, Q txt -> P st -> P (read_line st txt)) ->
  forall (fuel lmax : nat) (cfg : list ascii) (st st' : store),
    (2 <= lmax)%nat ->
    (forall pre buf rest,
        cfg = pre ++ buf ++ rest -> chunkb buf = true -> Q (c_str buf)) ->
    P st -> read_loop fuel lmax cfg st = Some st' -> P st'.
Proof.
  intros Hstep fuel lmax. induction fuel as [|f IH];
    intros cfg st st' Hl HQ HP; [discriminate|].
  simpl. destruct cfg as [|c s]; simpl; [now intros [= <-]|].
  destruct lmax as [|[|n]]; try lia.
  change (S (S n) - 1)%nat with (S n).
  destruct (fgets_chars (S n) (c :: s)) as [buf rest] eqn:E.
  pose proof (fgets_chars_chunk _ _ _ _ _ E) as Hchunk.
  apply fgets_chars_split in E. apply IH; [lia| |].
  - intros pre buf' rest' -> Hb. apply (HQ (buf ++ pre) buf' rest'); [|exact Hb].
    now rewrite E, <- app_assoc.
  - apply Hstep; [|assumption]. now apply (HQ [] buf rest).
Qed.

Lemma read_loop_invariant (P : store -> Prop) :
  (forall st txt, P st -> P (read_line st txt)) ->
  forall (fuel lmax : nat) (cfg : list ascii) (st st' : store),
    P st -> read_loop fuel lmax cfg st = Some st' -> P st'.
Proof.
  intros Hstep fuel lmax cfg st st' HP.
  apply (read_loop_segments P (fun _ => True)); auto.
Qed.

Lemma lconfigRead_opened (w : world) (source : list ascii) :
  fopen_r (disk w) = Some source ->
  exists st', read_loop (S (length source)) LCONFIG_LMAX source (globals w)
              = Some st'
              /\ lconfigRead w = Some (0, mk_world st' (disk w)).
Proof.
  intros Hopen.
  destruct (read_loop_total LCONFIG_LMAX (S (length source)) source (globals w))
    as [st' Hst']; [unfold LCONFIG_LMAX; lia | lia |].
  exists st'. split; [assumption|].
  unfold lconfigRead. now rewrite Hopen, Hst'.
Qed.

(** C5.  When the source cannot be opened, [lconfigRead] returns 1 and
    the world, globals included, is as before; in every other case it
    returns 0. *)
Theorem read_fails_only_unopened (w : world) :
  (fopen_r (disk w) = None -> lconfigRead w = Some (1, w))
  /\ (forall source, fopen_r (disk w) = Some source ->
        exists w', lconfigRead w = Some (0, w')).
Proof.
  split.
  - intros H. unfold lconfigRead. now rewrite H.
  - intros source H. destruct (lconfigRead_opened w source H) as (st' & _ & E).
    eauto.
Qed.

(** C9.  A registered field whose stored name (a C string) occurs on no line
    of a readable source is returned by [Get] after [lconfigRead] as
    before. *)
Theorem read_keeps_absent_field (w : world) (source : list ascii)
        (k : key) (n : cstr) :
  fopen_r (disk w) = Some source ->
  name_at (globals w) k = Some n ->
  ~ In NUL n ->
  (forall l, In l (lines_of source) -> ~ occurs_in n l) ->
  exists w', lconfigRead w = Some (0, w') /\ get w' k = get w k.
Proof.
  intros Hopen Hn Hnul Hocc.
  destruct (lconfigRead_opened w source Hopen) as (st' & Hloop & E).
  exists (mk_world st' (disk w)). split; [assumption|].
  set (P := fun st => name_at st k = Some n
                      /\ get (mk_world st (disk w)) k = get w k).
  assert (HP : P st').
  { apply (read_loop_chunks P (fun txt => prefixb n txt = false))
      with (5 := Hloop).
    - intros st txt Hq [Hname Hget]. split.
      + now rewrite read_line_name_at.
      + rewrite <- Hget. eapply read_line_get_unmatched; eauto.
    - unfold LCONFIG_LMAX. lia.
    - intros pre buf rest -> Hchunk.
      destruct (prefixb n (c_str buf)) eqn:Hp; [|reflexivity].
      exfalso. apply prefixb_app in Hp as [r Hr].
      destruct (c_str_prefix buf) as [r' Hr'].
      destruct (lines_of_chunk pre buf rest Hchunk) as (l & a & b & Hin & ->).
      apply (Hocc _ Hin). exists a, (r ++ r' ++ b).
      rewrite Hr' at 1. rewrite Hr, <- !app_assoc. reflexivity.
    - split; [assumption|]. now destruct w. }
  apply HP.
Qed.

(** One buffer changes what [Get] returns for at most one field when no
    stored name is an initial segment of another. *)
Lemma read_line_one_field (st : store) (d : filesys) (txt : cstr) (k1 k2 : key) :
  names_are_strings st ->
  prefix_free st ->
  get (mk_world (read_line st txt) d) k1 <> get (mk_world st d) k1 ->
  get (mk_world (read_line st txt) d) k2 <> get (mk_world st d) k2 ->
  k1 = k2.
Proof.
  intros Hwf Hpf H1 H2.
  apply read_line_changed in H1 as (n1 & Hn1 & Hp1); [|assumption].
  apply read_line_changed in H2 as (n2 & Hn2 & Hp2); [|assumption].
  destruct (prefixb_comparable _ _ _ Hp1 Hp2) as [H|H].
  - exact (Hpf _ _ _ _ Hn1 Hn2 H).
  - symmetry. exact (Hpf _ _ _ _ Hn2 Hn1 H).
Qed.

(** *** The buffers of a file whose last line fits *)

Lemma read_loop_fuel (lmax f1 f2 : nat) (cfg : list ascii) (st : store) :
  (2 <= lmax)%nat -> (length cfg < f1)%nat -> (length cfg < f2)%nat ->
  read_loop f1 lmax cfg st = read_loop f2 lmax cfg st.
Proof.
  intros Hl. revert f2 cfg st.
  induction f1 as [|f1 IH]; intros f2 cfg st H1 H2; [lia|].
  destruct f2 as [|f2]; [lia|].
  destruct cfg as [|c s]; [reflexivity|].
  destruct lmax as [|[|n]]; try lia.
  cbn [read_loop fgets]. change (S (S n) - 1)%nat with (S n).
  destruct (fgets_chars (S n) (c :: s)) as [buf rest] eqn:E.
  apply fgets_chars_progress in E. simpl in H1, H2. apply IH; lia.
Qed.

(** [fgets] does not look behind a newline: on a text of complete lines it
    reads what it reads when more text follows. *)
Lemma fgets_chars_complete (n : nat) (c : ascii) (s rest : list ascii) :
  complete_lines (c :: s) = true ->
  exists buf r,
    fgets_chars n (c :: s) = (buf, r)
    /\ fgets_chars n ((c :: s) ++ rest) = (buf, r ++ rest)
    /\ complete_lines r = true.
Proof.
  revert c s. induction n as [|n IH]; intros c s H.
  - exists [], (c :: s). repeat split. exact H.
  - change ((c :: s) ++ rest) with (c :: (s ++ rest)).
    rewrite !fgets_chars_cons. destruct (Ascii.eqb c NL) eqn:Ec.
    + exists [c], s. repeat split. destruct s as [|c' s']; [reflexivity | exact H].
    + destruct s as [|c' s']; [simpl in H; congruence|].
      destruct (IH c' s' H) as (buf & r & E1 & E2 & Hr).
      exists (c :: buf), r. rewrite E1. simpl app in E2 |- *. rewrite E2. auto.
Qed.

(** Reading complete lines and then more text is reading the rest from
    where the lines lead. *)
Lemma read_loop_app (lmax fuel : nat) (pre rest : list ascii) (st : store) :
  (2 <= lmax)%nat -> complete_lines pre = true ->
  (length (pre ++ rest) < fuel)%nat ->
  exists st',
    read_loop fuel lmax pre st = Some st'
    /\ read_loop fuel lmax (pre ++ rest) st = read_loop fuel lmax rest st'.
Proof.
  intros Hl. revert pre st.
  induction fuel as [|f IH]; intros pre st Hc Hlen; [lia|].
  destruct pre as [|c s]; [exists st; split; reflexivity|].
  destruct lmax as [|[|n]]; try lia.
  destruct (fgets_chars_complete (S n) c s rest Hc) as (buf & r & E1 & E2 & Hr).
  pose proof (fgets_chars_progress _ _ _ _ _ E1) as Hp.
  rewrite length_app in Hlen. simpl in Hlen.
  destruct (IH r (read_line st (c_str buf)) Hr) as (st' & L1 & L2);
    [rewrite length_app; lia|].
  exists st'. split.
  - cbn [read_loop fgets]. change (S (S n) - 1)%nat with (S n).
    now rewrite E1.
  - transitivity (read_loop f (S (S n)) rest st').
    + change ((c :: s) ++ rest) with (c :: (s ++ rest)).
      cbn [read_loop fgets]. change (S (S n) - 1)%nat with (S n).
      change (c :: (s ++ rest)) with ((c :: s) ++ rest). now rewrite E2.
    + apply read_loop_fuel; lia.
Qed.

Lemma fgets_chars_whole (n : nat) (l : list ascii) :
  chunkb l = true -> (length l <= n)%nat -> fgets_chars n l = (l, []).
Proof.
  revert n. induction l as [|c r IH]; intros n; [discriminate|].
  destruct n as [|n]; [simpl; lia|]. simpl length. intros H Hlen.
  rewrite fgets_chars_cons. destruct r as [|c' r'].
  - destruct (Ascii.eqb c NL); [reflexivity | now destruct n].
  - change (chunkb (c :: c' :: r'))
      with (negb (Ascii.eqb c NL) && chunkb (c' :: r')) in H.
    apply andb_true_iff in H as [Hc H]. apply negb_true_iff in Hc.
    rewrite Hc, (IH n H) by (simpl in *; lia). reflexivity.
Qed.

Lemma read_loop_whole_line (fuel : nat) (l : list ascii) (st : store) :
  whole_line l -> (length l < fuel)%nat ->
  read_loop fuel LCONFIG_LMAX l st = Some (read_line st (c_str l)).
Proof.
  intros [Hc Hlen] Hfuel. destruct l as [|c r]; [discriminate|].
  destruct fuel as [|[|f]]; simpl in Hfuel; try lia.
  cbn [read_loop fgets]. now rewrite fgets_chars_whole.
Qed.

Lemma read_loop_name_at (fuel lmax : nat) (cfg : list ascii) (st st' : store) :
  read_loop fuel lmax cfg st = Some st' -> forall k, name_at st' k = name_at st k.
Proof.
  apply (read_loop_invariant (fun s => forall k, name_at s k = name_at st k));
    [|reflexivity].
  intros s txt H k. now rewrite read_line_name_at.
Qed.

Lemma get_any_disk (st : store) (d d' : filesys) (k : key) :
  get (mk_world st d) k = get (mk_world st d') k.
Proof. now rewrite !get_store. Qed.

Lemma complete_lines_app (a b : list ascii) :
  complete_lines a = true -> complete_lines b = true ->
  complete_lines (a ++ b) = true.
Proof.
  intros Ha Hb. induction a as [|c r IH]; [exact Hb|].
  destruct r as [|c' r'].
  - destruct b as [|c' b']; [exact Ha | exact Hb].
  - apply IH. exact Ha.
Qed.

(** C3, as amended.  When no stored name is an initial segment of the
    stored name of another field, an input line that [fgets] reads in one
    piece (at most [LCONFIG_LMAX - 1] characters, its newline counted)
    changes what [Get] returns for at most one field: what [lconfigRead]
    leaves of a source that ends with this line differs in at most one
    field from what it leaves of the lines in front of it, and the lines
    behind it in a longer source are read from the values it leaves. *)
Theorem line_updates_at_most_one_field
        (st : store) (d0 d1 : filesys) (before l : list ascii) :
  names_are_strings st ->
  prefix_free st ->
  complete_lines before = true ->
  whole_line l ->
  fopen_r d0 = Some before ->
  fopen_r d1 = Some (before ++ l) ->
  exists w0 w1,
    lconfigRead (mk_world st d0) = Some (0, w0)
    /\ lconfigRead (mk_world st d1) = Some (0, w1)
    /\ (forall k1 k2,
          get w1 k1 <> get w0 k1 -> get w1 k2 <> get w0 k2 -> k1 = k2)
    /\ (forall after d2 d3,
          complete_lines l = true ->
          fopen_r d2 = Some (before ++ l ++ after) ->
          fopen_r d3 = Some after ->
          exists w2 w3,
            lconfigRead (mk_world st d2) = Some (0, w2)
            /\ lconfigRead (mk_world (globals w1) d3) = Some (0, w3)
            /\ globals w2 = globals w3).
Proof.
  intros Hwf Hpf Hc Hl H0 H1.
  assert (Hlmax : (2 <= LCONFIG_LMAX)%nat) by (unfold LCONFIG_LMAX; lia).
  destruct (read_loop_app LCONFIG_LMAX (S (length (before ++ l))) before l st
              Hlmax Hc) as (st0 & L0 & L1); [lia|].
  assert (L0' : read_loop (S (length before)) LCONFIG_LMAX before st = Some st0).
  { rewrite <- L0. apply read_loop_fuel; rewrite ?length_app; lia. }
  rewrite (read_loop_whole_line _ l st0 Hl) in L1 by (rewrite length_app; lia).
  exists (mk_world st0 d0), (mk_world (read_line st0 (c_str l)) d1).
  split; [unfold lconfigRead; cbn [disk globals]; now rewrite H0, L0'|].
  split; [unfold lconfigRead; cbn [disk globals]; now rewrite H1, L1|].
  split.
  - intros k1 k2 D1 D2.
    pose proof (read_loop_name_at _ _ _ _ _ L0') as Hnames.
    apply (read_line_one_field st0 d1 (c_str l) k1 k2).
    + intros k n Hn. apply (Hwf k). now rewrite <- Hnames.
    + intros ka kb na nb Ha Hb. apply Hpf; now rewrite <- Hnames.
    + now rewrite (get_any_disk st0 d1 d0).
    + now rewrite (get_any_disk st0 d1 d0).
  - intros after d2 d3 Hcl H2 H3. cbn [globals].
    set (st1 := read_line st0 (c_str l)) in *.
    destruct (read_loop_app LCONFIG_LMAX (S (length ((before ++ l) ++ after)))
                (before ++ l) after st Hlmax (complete_lines_app _ _ Hc Hcl))
      as (st1' & M0 & M1); [lia|].
    assert (E : st1' = st1).
    { assert (E : Some st1' = Some st1); [|now injection E].
      rewrite <- M0, <- L1. apply read_loop_fuel; rewrite ?length_app; lia. }
    subst st1'.
    destruct (read_loop_total LCONFIG_LMAX (S (length after)) after st1 Hlmax)
      as [st3 L3]; [lia|].
    exists (mk_world st3 d2), (mk_world st3 d3).
    split; [|split; [|reflexivity]].
    + unfold lconfigRead. cbn [disk globals]. rewrite H2, app_assoc, M1.
      rewrite (read_loop_fuel LCONFIG_LMAX _ (S (length after)) after st1)
        by (rewrite ?length_app; lia).
      now rewrite L3.
    + unfold lconfigRead. cbn [disk globals]. now rewrite H3, L3.
Qed.

End Read.

(** ** String fields stay single lines *)

Lemma In_upd {A : Type} (f : A -> A) (l : list A) (i : nat) (x : A) :
  In x (upd i f l) -> In x l \/ exists y, In y l /\ x = f y.
Proof.
  revert i. induction l as [|a r IH]; intros [|i]; simpl; try tauto.
  - intros [<-|H]; eauto.
  - intros [<-|H]; auto. destruct (IH _ H) as [H'|(y & Hy & ->)]; eauto.
Qed.

Lemma In_designate {A : Type} (hole x : A) (i : nat) (l : list A) (c : A) :
  In c (designate hole i x l) -> c = hole \/ c = x \/ In c l.
Proof.
  revert l. induction i as [|i IH]; intros [|y r]; simpl.
  - intuition.
  - intuition.
  - intros [<-|H]; [auto|]. destruct (IH _ H) as [?|[?|[]]]; auto.
  - intros [<-|H]; [auto|]. destruct (IH _ H) as [?|[?|?]]; auto.
Qed.

(** The elements of [lcfg_strs] at program start: holes and the
    initialisers of the template. *)
Lemma init_strs_elements (t : template) (c : lcfg_str) :
  In c (init_strs t) ->
  c = str_hole
  \/ exists id name len def,
      In (LCONFIG_STR id name len def) t
      /\ c = mk_str (Some (name ++ [SP])) len def (init_buffer len def).
Proof.
  unfold init_strs.
  assert (H : forall acc,
             In c (fold_left (fun arr e =>
                     match e with
                     | LCONFIG_STR id name len def =>
                         designate str_hole id
                           (mk_str (Some (name ++ [SP])) len def
                                   (init_buffer len def)) arr
                     | _ => arr
                     end) t acc) ->
             In c acc \/ c = str_hole
             \/ exists id name len def,
                 In (LCONFIG_STR id name len def) t
                 /\ c = mk_str (Some (name ++ [SP])) len def
                               (init_buffer len def)).
  { induction t as [|e t IH]; intros acc Hin; simpl in Hin; [auto|].
    apply IH in Hin.
    destruct Hin as [Hin|[Hin|(id & nm & ln & df & Hin & ->)]]; auto.
    - destruct e as [text|id nm mn mx df|id nm mn mx df|id nm ln df]; auto.
      apply In_designate in Hin as [->|[->|Hin]]; auto.
      right; right. exists id, nm, ln, df. simpl; auto.
    - right; right. exists id, nm, ln, df. simpl; auto. }
  intros Hin. apply H in Hin as [[<-|[]]|Hin]; auto.
Qed.

Lemma init_buffer_fits (len : nat) (def : cstr) :
  (length def <= len)%nat -> init_buffer len def = def.
Proof. intros H. unfold init_buffer. apply firstn_all2. lia. Qed.

Lemma init_str_invariant (t : template) :
  (forall id name len def,
      In (LCONFIG_STR id name len def) t ->
      ~ In NL def /\ (length def <= len)%nat) ->
  str_invariant (init_store t).
Proof.
  intros Hdef c Hin Hname. simpl in Hin.
  apply init_strs_elements in Hin as [->|(id & nm & ln & df & Hin & ->)].
  - now elim Hname.
  - destruct (Hdef _ _ _ _ Hin) as [Hnl Hlen].
    unfold str_ok. cbn [str_cur str_len].
    rewrite init_buffer_fits by assumption. now split.
Qed.

Section StringInvariant.

Context {libc_double : DoubleText}.

Lemma default_str_invariant (st : store) : str_invariant (default_store st).
Proof.
  intros cfg Hin Hname. simpl in Hin.
  apply in_map_iff in Hin as (c & <- & Hc).
  destruct (has_name (str_name c)) eqn:E.
  - apply lcfgStrSet_ok.
  - destruct (str_name c); [discriminate | contradiction].
Qed.

Lemma set_string_str_invariant (w : world) (id : Z) (s : cstr) :
  str_invariant (globals w) -> str_invariant (globals (lconfigSetString w id s)).
Proof.
  intros Hinv. unfold lconfigSetString.
  destruct (valid_id str_name _ _ id); [|assumption].
  intros cfg Hin Hname. simpl in Hin.
  apply In_upd in Hin as [Hin|(c & Hc & ->)]; [now apply Hinv|].
  apply lcfgStrSet_ok.
Qed.

Lemma read_line_str_invariant (st : store) (txt : cstr) :
  str_invariant st -> str_invariant (read_line st txt).
Proof.
  intros Hinv cfg Hin Hname. simpl in Hin.
  apply in_map_iff in Hin as (c & <- & Hc). unfold str_step in *.
  destruct (has_name (str_name c)) eqn:E; [|now apply Hinv].
  unfold lcfgStrRead in *. destruct (str_name c) as [n|] eqn:En; [|discriminate].
  destruct (_ =? 0).
  - apply lcfgStrSet_ok.
  - apply Hinv; [assumption | congruence].
Qed.

(** C10, as amended.  Whatever [lcfgStrSet] stores has no newline and at
    most [len] characters, so the field written by [lconfigSetString]
    satisfies the invariant and [lconfigDefault] establishes it for every
    registered string field; [lconfigSetString] and [lconfigRead] keep it
    for the fields they do not write, provided it held before, as it does
    at program start when the declared defaults are such strings. *)
Theorem string_invariant_kept :
  (forall cfg val, str_ok (lcfgStrSet cfg val))
  /\ (forall t,
        (forall id name len def,
            In (LCONFIG_STR id name len def) t ->
            ~ In NL def /\ (length def <= len)%nat) ->
        str_invariant (init_store t))
  /\ (forall w id s, registered_str w id ->
        str_ok (str_field (lconfigSetString w id s) id))
  /\ (forall w, str_invariant (globals (lconfigDefault w)))
  /\ (forall w id s, str_invariant (globals w) ->
        str_invariant (globals (lconfigSetString w id s)))
  /\ (forall w r w', str_invariant (globals w) ->
        lconfigRead w = Some (r, w') -> str_invariant (globals w')).
Proof.
  repeat apply conj.
  - apply lcfgStrSet_ok.
  - apply init_str_invariant.
  - intros w id s Hreg. unfold str_field, lconfigSetString.
    unfold registered_str in Hreg. rewrite Hreg. simpl.
    apply valid_id_inv in Hreg as (Hlt & _ & _).
    rewrite nth_upd_same by assumption. apply lcfgStrSet_ok.
  - intros w. apply default_str_invariant.
  - apply set_string_str_invariant.
  - intros w r w' Hinv. unfold lconfigRead.
    destruct (fopen_r (disk w)) as [source|]; [|now intros [= <- <-]].
    destruct (read_loop _ _ _ _) as [st'|] eqn:Hloop; [|discriminate].
    intros [= <- <-]. simpl.
    eapply read_loop_invariant; [| exact Hinv | exact Hloop].
    intros st txt. apply read_line_str_invariant.
Qed.

End StringInvariant.

(** ** Write, then read *)

Lemma map_fix_nth {A : Type} (f : A -> A) (d : A) (l : list A) :
  (forall i, (i < length l)%nat -> f (nth i l d) = nth i l d) -> map f l = l.
Proof.
  induction l as [|a r IH]; intros H; simpl; [reflexivity|]. f_equal.
  - apply (H O). simpl. lia.
  - apply IH. intros i Hi. apply (H (S i)). simpl. lia.
Qed.

Lemma before_newline_app_NL (s r : cstr) :
  before_newline (s ++ NL :: r) = before_newline s.
Proof.
  induction s as [|c s IH]; simpl; [reflexivity|].
  destruct (Ascii.eqb c NL); [reflexivity | now rewrite IH].
Qed.

Lemma lcfgStrSet_line (c : lcfg_str) (s r : cstr) :
  lcfgStrSet c (s ++ NL :: r) = lcfgStrSet c s.
Proof.
  pose proof (lcfgStrSet_cur c (s ++ NL :: r)) as H1.
  pose proof (lcfgStrSet_cur c s) as H2.
  rewrite before_newline_app_NL, <- H2 in H1.
  unfold lcfgStrSet in *. simpl in *. now rewrite H1.
Qed.

Lemma one_line_nonempty (l : list ascii) : one_line l = true -> (1 <= length l)%nat.
Proof. destruct l; [discriminate | simpl; lia]. Qed.

Lemma store_eta (s : store) :
  mk_store (lcfg_ints s) (lcfg_dbls s) (lcfg_strs s) = s.
Proof. now destruct s. Qed.

Section RoundTrip.

Context {libc_double : DoubleText}.

Lemma read_loop_lines (lmax : nat) (ls : list (list ascii)) :
  Forall (fun l => one_line l = true /\ (length l <= lmax - 1)%nat) ls ->
  forall (fuel : nat) (st : store),
    (length ls < fuel)%nat ->
    read_loop fuel lmax (concat ls) st = Some (fold_left read_line ls st).
Proof.
  induction 1 as [|l ls [Hl Hlen] _ IH]; intros fuel st Hfuel.
  - destruct fuel; [lia | reflexivity].
  - destruct fuel as [|f]; [simpl in Hfuel; lia|].
    simpl concat. simpl read_loop.
    destruct l as [|c r] eqn:El; [discriminate|].
    simpl app. cbv beta iota delta [fgets].
    change (c :: r ++ concat ls) with ((c :: r) ++ concat ls).
    rewrite one_line_fgets, one_line_c_str by assumption.
    apply IH. simpl in Hfuel. lia.
Qed.

Lemma concat_length_lines (ls : list (list ascii)) :
  Forall (fun l => (1 <= length l)%nat) ls -> (length ls <= length (concat ls))%nat.
Proof.
  induction 1 as [|l ls Hl _ IH]; simpl; [lia|]. rewrite length_app. lia.
Qed.

Lemma fold_read_line_stable (st : store) (ls : list cstr) :
  (forall l, In l ls -> read_line st l = st) -> fold_left read_line ls st = st.
Proof.
  induction ls as [|l ls IH]; intros H; simpl; [reflexivity|].
  rewrite (H l) by (simpl; auto). apply IH. intros l' Hl'. apply H. simpl; auto.
Qed.

Variable t : template.
Variable st : store.
Hypothesis Hstr : names_are_strings st.
Hypothesis Hpf : prefix_free st.
Hypothesis Hreg : template_registered t st.
Hypothesis Hlab : labels_inert t st.
Hypothesis Hval : values_clamped st.

(** A printed line starts with the stored name of the field it was
    printed for, and of no other. *)
Lemma printed_line_owner (e : entry) (k : key) (n : cstr) :
  In e t -> name_at st k = Some n -> prefixb n (print_entry st e) = true ->
  match e with
  | LCONFIG_LINE _ => False
  | LCONFIG_INT id _ _ _ _ => k = KInt id
  | LCONFIG_DBL id _ _ _ _ => k = KDbl id
  | LCONFIG_STR id _ _ _ => k = KStr id
  end.
Proof.
  intros He Hn Hp. unfold template_registered in Hreg.
  rewrite Forall_forall in Hreg. specialize (Hreg e He).
  assert (Hown : forall k0 n0 rest,
             name_at st k0 = Some n0 -> prefixb n (n0 ++ rest) = true -> k = k0).
  { intros k0 n0 rest Hn0 Hp0.
    destruct (prefixb_comparable n n0 (n0 ++ rest) Hp0) as [H|H].
    - apply prefixb_trans_app, prefixb_refl.
    - exact (Hpf _ _ _ _ Hn Hn0 H).
    - symmetry. exact (Hpf _ _ _ _ Hn0 Hn H). }
  destruct e as [text|id nm mn mx df|id nm mn mx df|id nm ln df]; simpl in *.
  - rewrite (Hlab text k n He Hn) in Hp. discriminate.
  - destruct (int_name (nth id (lcfg_ints st) int_hole)) as [n0|] eqn:E;
      [|contradiction].
    unfold lcfgIntPrint in Hp. rewrite E in Hp. simpl in Hp.
    eapply (Hown (KInt id)); [exact E | exact Hp].
  - destruct (dbl_name (nth id (lcfg_dbls st) dbl_hole)) as [n0|] eqn:E;
      [|contradiction].
    unfold lcfgDblPrint in Hp. rewrite E in Hp. simpl in Hp.
    eapply (Hown (KDbl id)); [exact E | exact Hp].
  - destruct (str_name (nth id (lcfg_strs st) str_hole)) as [n0|] eqn:E;
      [|contradiction].
    unfold lcfgStrPrint in Hp. rewrite E in Hp. simpl in Hp.
    eapply (Hown (KStr id)); [exact E | exact Hp].
Qed.

Lemma int_step_printed (e : entry) (i : nat) :
  In e t -> (i < length (lcfg_ints st))%nat ->
  int_step (print_entry st e) (nth i (lcfg_ints st) int_hole)
  = nth i (lcfg_ints st) int_hole.
Proof.
  intros He Hi. set (c := nth i (lcfg_ints st) int_hole).
  unfold int_step. destruct (int_name c) as [n|] eqn:En; [simpl|reflexivity].
  assert (Hnul : ~ In NUL n) by (apply (Hstr (KInt i)); exact En).
  destruct (prefixb n (print_entry st e)) eqn:Hp;
    [|now apply (lcfgIntRead_unmatched c _ n)].
  pose proof (printed_line_owner e (KInt i) n He En Hp) as Hown.
  destruct e as [text|id nm mn mx df|id nm mn mx df|id nm ln df];
    try contradiction; try discriminate.
  injection Hown as <-. simpl. fold c.
  destruct Hval as (Hint & _ & _).
  destruct (Hint c) as [Hfix Hrange];
    [apply nth_In; assumption | congruence |].
  unfold lcfgIntRead, lcfgIntPrint. rewrite En. simpl name_text.
  rewrite strncmp_prefixb by assumption.
  rewrite (prefixb_trans_app n n _ (prefixb_refl n)).
  rewrite offset_app, atoi_fmt_d by assumption. exact Hfix.
Qed.

Lemma dbl_step_printed (e : entry) (i : nat) :
  In e t -> (i < length (lcfg_dbls st))%nat ->
  dbl_step (print_entry st e) (nth i (lcfg_dbls st) dbl_hole)
  = nth i (lcfg_dbls st) dbl_hole.
Proof.
  intros He Hi. set (c := nth i (lcfg_dbls st) dbl_hole).
  unfold dbl_step. destruct (dbl_name c) as [n|] eqn:En; [simpl|reflexivity].
  assert (Hnul : ~ In NUL n) by (apply (Hstr (KDbl i)); exact En).
  destruct (prefixb n (print_entry st e)) eqn:Hp;
    [|now apply (lcfgDblRead_unmatched c _ n)].
  pose proof (printed_line_owner e (KDbl i) n He En Hp) as Hown.
  destruct e as [text|id nm mn mx df|id nm mn mx df|id nm ln df];
    try contradiction; try discriminate.
  injection Hown as <-. simpl. fold c.
  destruct Hval as (_ & Hdbl & _).
  destruct (Hdbl c) as [Hfix Hback];
    [apply nth_In; assumption | congruence |].
  unfold lcfgDblRead, lcfgDblPrint. rewrite En. simpl name_text.
  rewrite strncmp_prefixb by assumption.
  rewrite (prefixb_trans_app n n _ (prefixb_refl n)).
  rewrite offset_app, Hback. exact Hfix.
Qed.

Lemma str_step_printed (e : entry) (i : nat) :
  In e t -> (i < length (lcfg_strs st))%nat ->
  str_step (print_entry st e) (nth i (lcfg_strs st) str_hole)
  = nth i (lcfg_strs st) str_hole.
Proof.
  intros He Hi. set (c := nth i (lcfg_strs st) str_hole).
  unfold str_step. destruct (str_name c) as [n|] eqn:En; [simpl|reflexivity].
  assert (Hnul : ~ In NUL n) by (apply (Hstr (KStr i)); exact En).
  destruct (prefixb n (print_entry st e)) eqn:Hp;
    [|now apply (lcfgStrRead_unmatched c _ n)].
  pose proof (printed_line_owner e (KStr i) n He En Hp) as Hown.
  destruct e as [text|id nm mn mx df|id nm mn mx df|id nm ln df];
    try contradiction; try discriminate.
  injection Hown as <-. simpl. fold c.
  destruct Hval as (_ & _ & Hs).
  pose proof (Hs c) as Hfix.
  unfold lcfgStrRead, lcfgStrPrint. rewrite En. simpl name_text.
  rewrite strncmp_prefixb by assumption.
  rewrite (prefixb_trans_app n n _ (prefixb_refl n)).
  rewrite offset_app, lcfgStrSet_line. apply Hfix; [|congruence].
  apply nth_In; assumption.
Qed.

(** Reading back one printed line leaves the globals as they are. *)
Lemma read_line_printed (e : entry) :
  In e t -> read_line st (print_entry st e) = st.
Proof.
  intros He. rewrite read_line_steps.
  transitivity (mk_store (lcfg_ints st) (lcfg_dbls st) (lcfg_strs st));
    [|apply store_eta].
  f_equal.
  - apply (map_fix_nth _ int_hole). intros i. now apply int_step_printed.
  - apply (map_fix_nth _ dbl_hole). intros i. now apply dbl_step_printed.
  - apply (map_fix_nth _ str_hole). intros i. now apply str_step_printed.
Qed.

Hypothesis Hfit : lines_fit t st.

Lemma read_loop_printed (fuel : nat) :
  (length (file_text t st) < fuel)%nat ->
  read_loop fuel LCONFIG_LMAX (file_text t st) st = Some st.
Proof.
  intros Hfuel. unfold file_text in *.
  assert (Hall : Forall (fun l => one_line l = true
                                  /\ (length l <= LCONFIG_LMAX - 1)%nat)
                        (map (print_entry st) t)).
  { apply Forall_map. exact Hfit. }
  rewrite (read_loop_lines _ _ Hall).
  - f_equal. apply fold_read_line_stable. intros l Hl.
    apply in_map_iff in Hl as (e & <- & He). now apply read_line_printed.
  - eapply Nat.le_lt_trans; [|exact Hfuel].
    apply concat_length_lines.
    eapply Forall_impl; [|exact Hall].
    intros l [Hl _]. now apply one_line_nonempty.
Qed.

End RoundTrip.

(** ** The checkers are sound *)

Lemma key_eqb_eq (k1 k2 : key) : key_eqb k1 k2 = true -> k1 = k2.
Proof.
  destruct k1, k2; simpl; try discriminate; intros H;
    apply Nat.eqb_eq in H; now subst.
Qed.

Lemma names_from_In {A : Type} (mk : nat -> key) (name : A -> option cstr)
      (d : A) (arr : list A) (i j : nat) (n : cstr) :
  name d = None -> name (nth j arr d) = Some n ->
  In (mk (i + j)%nat, n) (names_from mk name i arr).
Proof.
  intros Hd. revert i j. induction arr as [|c r IH]; intros i j Hn.
  - destruct j; simpl in Hn; congruence.
  - destruct j as [|j]; simpl in Hn |- *.
    + rewrite Hn, Nat.add_0_r. now left.
    + rewrite Nat.add_succ_r. specialize (IH (S i) j Hn).
      destruct (name c); [right|]; exact IH.
Qed.

Lemma name_at_all_names (st : store) (k : key) (n : cstr) :
  name_at st k = Some n -> In (k, n) (all_names st).
Proof.
  unfold all_names. rewrite !in_app_iff. destruct k as [id|id|id]; simpl; intros H.
  - left. apply (names_from_In KInt int_name int_hole _ O id n); auto.
  - right; left. apply (names_from_In KDbl dbl_name dbl_hole _ O id n); auto.
  - right; right. apply (names_from_In KStr str_name str_hole _ O id n); auto.
Qed.

Lemma names_are_stringsb_sound (st : store) :
  names_are_stringsb st = true -> names_are_strings st.
Proof.
  unfold names_are_stringsb. rewrite forallb_forall. intros H k n Hn Hin.
  specialize (H _ (name_at_all_names _ _ _ Hn)). simpl in H.
  apply negb_true_iff in H.
  assert (E : existsb (Ascii.eqb NUL) n = true).
  { apply existsb_exists. exists NUL. split; [assumption | apply Ascii.eqb_refl]. }
  congruence.
Qed.

Lemma prefix_freeb_sound (st : store) :
  prefix_freeb st = true -> prefix_free st.
Proof.
  unfold prefix_freeb. rewrite forallb_forall. intros H k1 k2 n1 n2 H1 H2 Hp.
  specialize (H _ (name_at_all_names _ _ _ H1)). rewrite forallb_forall in H.
  specialize (H _ (name_at_all_names _ _ _ H2)). simpl in H.
  rewrite Hp in H. now apply key_eqb_eq.
Qed.

Lemma labels_inertb_sound (t : template) (st : store) :
  labels_inertb t st = true -> labels_inert t st.
Proof.
  unfold labels_inertb. rewrite forallb_forall. intros H text k n He Hn.
  specialize (H _ He). simpl in H. rewrite forallb_forall in H.
  specialize (H _ (name_at_all_names _ _ _ Hn)). simpl in H.
  now apply negb_true_iff in H.
Qed.

Lemma labels_definedb_sound (t : template) :
  labels_definedb t = true -> labels_defined t.
Proof.
  unfold labels_definedb. rewrite forallb_forall. intros H text He.
  specialize (H _ He). simpl in H.
  now destruct (printf_noargs (text ++ [NL])).
Qed.

Lemma template_completeb_sound (t : template) (st : store) :
  template_completeb t st = true -> template_complete t st.
Proof.
  unfold template_completeb. rewrite forallb_forall. intros H k Hk.
  destruct (name_at st k) as [n|] eqn:Hn; [|congruence].
  specialize (H _ (name_at_all_names _ _ _ Hn)). simpl in H.
  apply existsb_exists in H as (e & He & Hke). exists e. split; [assumption|].
  destruct (entry_key e) as [k'|]; [|discriminate].
  apply key_eqb_eq in Hke. now subst.
Qed.

Lemma occursb_complete (n : cstr) (source : list ascii) :
  occurs_in n source -> occursb n source = true.
Proof.
  intros (pre & post & ->). induction pre as [|c pre IH].
  - assert (H : prefixb n (n ++ post) = true) by (apply prefixb_app; eauto).
    simpl app. destruct (n ++ post); simpl; rewrite H; reflexivity.
  - simpl. rewrite IH. apply orb_true_r.
Qed.

Lemma not_occursb (n : cstr) (source : list ascii) :
  occursb n source = false -> ~ occurs_in n source.
Proof.
  intros H Hocc. apply occursb_complete in Hocc. congruence.
Qed.

(** ** The theorems at the example *)

Lemma example_names_are_strings : names_are_strings (globals Example.start).
Proof. apply names_are_stringsb_sound. reflexivity. Qed.

Lemma example_prefix_free : prefix_free (globals Example.start).
Proof. apply prefix_freeb_sound. reflexivity. Qed.

Lemma read_fails_only_unopened_witness :
  @lconfigRead Example.example_libc Example.start = Some (1, Example.start)
  /\ exists w',
      @lconfigRead Example.example_libc
        (mk_world (globals Example.start) (Example.disk_with "number_a 3"))
      = Some (0, w').
Proof.
  split.
  - apply (@read_fails_only_unopened Example.example_libc Example.start).
    reflexivity.
  - eapply (@read_fails_only_unopened Example.example_libc
              (mk_world (globals Example.start) (Example.disk_with "number_a 3"))).
    reflexivity.
Defined.

Lemma read_keeps_absent_field_witness :
  let w := mk_world (globals Example.start) (Example.disk_with "number_b 12") in
  exists w',
    @lconfigRead Example.example_libc w = Some (0, w')
    /\ get w' (KInt 0) = get w (KInt 0).
Proof.
  intros w.
  apply (@read_keeps_absent_field Example.example_libc w
           (lit "number_b 12" ++ [NL]) (KInt 0) (lit "number_a" ++ [SP])).
  - reflexivity.
  - reflexivity.
  - apply (example_names_are_strings (KInt 0)). reflexivity.
  - intros l [<-|[]]. apply not_occursb. reflexivity.
Defined.

Lemma line_updates_at_most_one_field_witness :
  let before := lit "number_b 12" ++ [NL] in
  let l := lit "number_a 7" ++ [NL] in
  let after := lit "number_b 13" ++ [NL] in
  exists w0 w1,
    @lconfigRead Example.example_libc
      (mk_world (globals Example.start) (mk_fs (Some before) true true))
    = Some (0, w0)
    /\ @lconfigRead Example.example_libc
         (mk_world (globals Example.start) (mk_fs (Some (before ++ l)) true true))
       = Some (0, w1)
    /\ (forall k1 k2,
          get w1 k1 <> get w0 k1 -> get w1 k2 <> get w0 k2 -> k1 = k2)
    /\ exists w2 w3,
        @lconfigRead Example.example_libc
          (mk_world (globals Example.start)
                    (mk_fs (Some (before ++ l ++ after)) true true))
        = Some (0, w2)
        /\ @lconfigRead Example.example_libc
             (mk_world (globals w1) (mk_fs (Some after) true true))
           = Some (0, w3)
        /\ globals w2 = globals w3.
Proof.
  intros before l after.
  destruct (@line_updates_at_most_one_field Example.example_libc
              (globals Example.start)
              (mk_fs (Some before) true true)
              (mk_fs (Some (before ++ l)) true true) before l)
    as (w0 & w1 & E0 & E1 & Hone & Hrest).
  - exact example_names_are_strings.
  - exact example_prefix_free.
  - reflexivity.
  - split; [reflexivity | apply Nat.leb_le; reflexivity].
  - reflexivity.
  - reflexivity.
  - exists w0, w1. repeat apply conj; try assumption.
    apply (Hrest after (mk_fs (Some (before ++ l ++ after)) true true)
                 (mk_fs (Some after) true true)); reflexivity.
Defined.

(** C3 as stated fails when one name starts with another: the line
    [size max 3] is read by both [size] (as [atoi "max 3"], which is 0) and
    [size max]. *)
Lemma nested_names_one_line_two_fields :
  let w := mk_world (init_store Example.nested_names)
                    (Example.disk_with "size max 3") in
  exists w',
    @lconfigRead Example.example_libc w = Some (0, w')
    /\ get w (KInt 0) = VInt 5 /\ get w' (KInt 0) = VInt 0
    /\ get w (KInt 1) = VInt 7 /\ get w' (KInt 1) = VInt 3.
Proof.
  intros w. eexists. split; [vm_compute; reflexivity|]. repeat split.
Qed.

(** The bound on the length of the line matters as well: a longer line
    reaches the loop of [lconfigRead] in several buffers, and a later buffer
    can start with the name of another field. *)
Example long_line_updates_two_fields :
  let line := lit "number_a 5" ++ repeat "x"%char 501
              ++ lit "number_b 12" ++ [NL] in
  let w := mk_world (globals Example.start) (mk_fs (Some line) true true) in
  lines_of line = [line]
  /\ prefix_free (globals w)
  /\ exists w',
      @lconfigRead Example.example_libc w = Some (0, w')
      /\ get w (KInt 0) = VInt 0 /\ get w' (KInt 0) = VInt 5
      /\ get w (KInt 1) = VInt 15 /\ get w' (KInt 1) = VInt 12.
Proof.
  intros line w. split; [vm_compute; reflexivity|].
  split; [exact example_prefix_free|].
  eexists. split; [vm_compute; reflexivity|]. repeat split.
Qed.

Lemma string_invariant_kept_witness :
  str_invariant
    (globals (lconfigSetString Example.start 0 (lit "two" ++ NL :: lit "lines"))).
Proof.
  destruct (@string_invariant_kept Example.example_libc)
    as (_ & Hinit & _ & _ & H & _).
  apply H. apply (Hinit Example.LCONFIG_TEMPLATE).
  intros id name len def Hin. simpl in Hin.
  repeat (destruct Hin as [Hin|Hin]; try discriminate).
  - injection Hin as <- <- <- <-. split.
    + simpl. intuition discriminate.
    + vm_compute. repeat constructor.
  - contradiction.
Defined.

(** C10 as stated fails for a field no operation has written: a declared
    default holding a newline is still what [Get] returns for field 0 after
    [lconfigSetString] on field 1. *)
Lemma newline_default_survives :
  let w := lconfigSetString
             (mk_world (init_store Example.two_line_default) Example.fresh_disk)
             1 (lit "alice") in
  registered_str w 0
  /\ lconfigGetString w 0 = Some [ "h"; "i"; NL; "y"; "o"; "u" ]%char
  /\ In NL (str_cur (str_field w 0))
  /\ ~ str_ok (str_field w 0).
Proof.
  assert (H : In NL [ "h"; "i"; NL; "y"; "o"; "u" ]%char) by (simpl; auto).
  repeat apply conj; try reflexivity; try exact H.
  intros [Hnl _]. apply Hnl. exact H.
Qed.

(** C4 as stated fails when one name starts with another: the written line
    [size max 7] is read back by [size] as well, which becomes 0. *)
Lemma nested_names_round_trip_fails :
  let w := mk_world (init_store Example.nested_names) Example.fresh_disk in
  exists w1 w2,
    @lconfigWrite Example.example_libc Example.nested_names w = (0, w1)
    /\ @lconfigRead Example.example_libc w1 = Some (0, w2)
    /\ lconfigGetInt w 0 = 5
    /\ lconfigGetInt w2 0 = 0.
Proof.
  intros w. eexists. eexists. split; [reflexivity|].
  split; [vm_compute; reflexivity|]. split; reflexivity.
Qed.

(** * Further properties of the code *)

(** ** More on the comparison of doubles *)

Lemma SFltb_irrefl (x : spec_float) : SFltb x x = false.
Proof.
  unfold SFltb. destruct x as [s|s| |s m e]; simpl; try reflexivity.
  - now destruct s.
  - rewrite Z.compare_refl.
    assert (Pos.compare_cont Eq m m = Eq) as -> by apply Pos.compare_refl.
    now destruct s.
Qed.

Lemma SFltb_trans (x y z : spec_float) :
  SFltb x y = true -> SFltb y z = true -> SFltb x z = true.
Proof.
  unfold SFltb.
  destruct x as [sx|sx| |sx mx ex], y as [sy|sy| |sy my ey],
    z as [sz|sz| |sz mz ez]; simpl; try discriminate;
    try (destruct sx, sy, sz; simpl; congruence).
  change (Pos.compare_cont Eq mx my) with (Pos.compare mx my).
  change (Pos.compare_cont Eq my mz) with (Pos.compare my mz).
  change (Pos.compare_cont Eq mx mz) with (Pos.compare mx mz).
  destruct sx, sy, sz; simpl; try congruence;
    destruct (Z.compare_spec ex ey), (Z.compare_spec ey ez),
      (Z.compare_spec ex ez); subst; try lia; try congruence;
    destruct (Pos.compare_spec mx my), (Pos.compare_spec my mz),
      (Pos.compare_spec mx mz); subst; simpl; try lia; try congruence.
Qed.

(** ** Stores within the bounds are exact, stores outside saturate *)

(** X1.  A value within the declared bounds is stored as it is: [Get]
    after [Set] returns it (a string: one that holds no newline and fits
    the declared length). *)
Theorem set_within_bounds_is_exact :
  (forall (w : world) (id v : Z),
      registered_int w id ->
      int_min (int_field w id) <= v <= int_max (int_field w id) ->
      lconfigGetInt (lconfigSetInt w id v) id = v)
  /\ (forall (w : world) (id : Z) (v : spec_float),
      registered_dbl w id ->
      dbl_between (dbl_min (dbl_field w id)) v (dbl_max (dbl_field w id)) ->
      lconfigGetDouble (lconfigSetDouble w id v) id = v)
  /\ (forall (w : world) (id : Z) (s : cstr),
      registered_str w id ->
      ~ In NL s -> (length s <= str_len (str_field w id))%nat ->
      lconfigGetString (lconfigSetString w id s) id = Some s).
Proof.
  repeat apply conj.
  - intros w id v Hreg Hv. rewrite lconfigGetInt_SetInt by assumption.
    now apply lcfgIntSet_in_bounds.
  - intros w id v Hreg Hv. rewrite lconfigGetDouble_SetDouble by assumption.
    now apply lcfgDblSet_in_bounds.
  - intros w id s Hreg Hnl Hlen. rewrite lconfigGetString_SetString by assumption.
    f_equal. now apply lcfgStrSet_in_bounds.
Qed.

Lemma set_within_bounds_is_exact_witness :
  lconfigGetInt (lconfigSetInt Example.start 1 17) 1 = 17
  /\ lconfigGetDouble (lconfigSetDouble Example.start 0 Example.d_1) 0 = Example.d_1
  /\ lconfigGetString (lconfigSetString Example.start 0 (lit "hello")) 0
     = Some (lit "hello").
Proof.
  destruct set_within_bounds_is_exact as (Hi & Hd & Hs). repeat apply conj.
  - apply (Hi Example.start 1 17); [reflexivity | simpl; lia].
  - apply (Hd Example.start 0 Example.d_1); [reflexivity | split; reflexivity].
  - apply (Hs Example.start 0 (lit "hello"));
      [reflexivity | simpl; intuition discriminate | vm_compute; repeat constructor].
Defined.

Lemma lcfgIntSet_above (cfg : lcfg_int) (val : Z) :
  val > int_max cfg -> int_cur (lcfgIntSet cfg val) = int_max cfg.
Proof.
  intros H. unfold lcfgIntSet; simpl.
  destruct (Z.ltb_spec val (int_min cfg));
    match goal with |- context [?a >? ?b] => destruct (Z.gtb_spec a b) end; lia.
Qed.

Lemma lcfgIntSet_below (cfg : lcfg_int) (val : Z) :
  val < int_min cfg -> int_min cfg <= int_max cfg ->
  int_cur (lcfgIntSet cfg val) = int_min cfg.
Proof.
  intros H Hmm. unfold lcfgIntSet; simpl.
  destruct (Z.ltb_spec val (int_min cfg));
    match goal with |- context [?a >? ?b] => destruct (Z.gtb_spec a b) end; lia.
Qed.

Lemma lcfgDblSet_above (cfg : lcfg_dbl) (val : spec_float) :
  SFltb (dbl_max cfg) val = true ->
  SFleb (dbl_min cfg) (dbl_max cfg) = true ->
  dbl_cur (lcfgDblSet cfg val) = dbl_max cfg.
Proof.
  intros H Hmm. unfold lcfgDblSet; simpl.
  destruct (SFltb val (dbl_min cfg)) eqn:E.
  - pose proof (SFltb_trans _ _ _ H E) as Hc.
    rewrite (SFleb_ltb_false _ _ Hmm) in Hc. discriminate.
  - now rewrite H.
Qed.

Lemma lcfgDblSet_below (cfg : lcfg_dbl) (val : spec_float) :
  SFltb val (dbl_min cfg) = true ->
  SFleb (dbl_min cfg) (dbl_max cfg) = true ->
  dbl_cur (lcfgDblSet cfg val) = dbl_min cfg.
Proof.
  intros H Hmm. unfold lcfgDblSet; simpl.
  now rewrite H, (SFleb_ltb_false _ _ Hmm).
Qed.

(** X2.  Saturation: an [int] above [max] is stored as [max], whatever the
    bounds; below [min] it is stored as [min] when [min <= max].  With
    [min <= max], a [double] above [max] (as [+inf]) is stored as [max] and
    one below [min] as [min]. *)
Theorem set_outside_bounds_saturates :
  (forall (w : world) (id v : Z),
      registered_int w id -> v > int_max (int_field w id) ->
      lconfigGetInt (lconfigSetInt w id v) id = int_max (int_field w id))
  /\ (forall (w : world) (id v : Z),
      registered_int w id -> v < int_min (int_field w id) ->
      int_min (int_field w id) <= int_max (int_field w id) ->
      lconfigGetInt (lconfigSetInt w id v) id = int_min (int_field w id))
  /\ (forall (w : world) (id : Z) (v : spec_float),
      registered_dbl w id ->
      SFleb (dbl_min (dbl_field w id)) (dbl_max (dbl_field w id)) = true ->
      (SFltb (dbl_max (dbl_field w id)) v = true ->
       lconfigGetDouble (lconfigSetDouble w id v) id = dbl_max (dbl_field w id))
      /\ (SFltb v (dbl_min (dbl_field w id)) = true ->
          lconfigGetDouble (lconfigSetDouble w id v) id
          = dbl_min (dbl_field w id))).
Proof.
  repeat apply conj.
  - intros w id v Hreg Hv. rewrite lconfigGetInt_SetInt by assumption.
    now apply lcfgIntSet_above.
  - intros w id v Hreg Hv Hmm. rewrite lconfigGetInt_SetInt by assumption.
    now apply lcfgIntSet_below.
  - intros w id v Hreg Hmm. rewrite lconfigGetDouble_SetDouble by assumption.
    split; intros Hv; [now apply lcfgDblSet_above | now apply lcfgDblSet_below].
Qed.

Lemma set_outside_bounds_saturates_witness :
  lconfigGetInt (lconfigSetInt Example.start 1 2147483647) 1 = 20
  /\ lconfigGetInt (lconfigSetInt Example.start 1 (-5)) 1 = 10
  /\ lconfigGetDouble (lconfigSetDouble Example.start 1 (S754_infinity false)) 1
     = dbl_zero
  /\ lconfigGetDouble (lconfigSetDouble Example.start 1 (S754_infinity true)) 1
     = Example.d_m32.
Proof.
  destruct set_outside_bounds_saturates as (Hhi & Hlo & Hd). repeat apply conj.
  - apply (Hhi Example.start 1 2147483647); [reflexivity | simpl; lia].
  - apply (Hlo Example.start 1 (-5)); [reflexivity | simpl; lia | simpl; lia].
  - apply (Hd Example.start 1 (S754_infinity false)); reflexivity.
  - apply (Hd Example.start 1 (S754_infinity true)); reflexivity.
Defined.

(** ** What a [Set] leaves alone *)

Lemma upd_fix {A : Type} (f : A -> A) (d : A) (l : list A) (i : nat) :
  f (nth i l d) = nth i l d -> upd i f l = l.
Proof.
  revert i. induction l as [|x r IH]; intros [|i]; simpl; intros H; auto.
  - now rewrite H.
  - now rewrite IH.
Qed.

Lemma upd_upd {A : Type} (f g : A -> A) (l : list A) (i : nat) :
  upd i f (upd i g l) = upd i (fun x => f (g x)) l.
Proof.
  revert i. induction l as [|x r IH]; intros [|i]; simpl; auto.
  now rewrite IH.
Qed.

Lemma upd_ext_nth {A : Type} (f g : A -> A) (d : A) (l : list A) (i : nat) :
  f (nth i l d) = g (nth i l d) -> upd i f l = upd i g l.
Proof.
  revert i. induction l as [|x r IH]; intros [|i]; simpl; intros H; auto.
  - now rewrite H.
  - now rewrite (IH i H).
Qed.

Lemma get_int_other (st : store) (d : filesys) (arr : list lcfg_int)
      (f : lcfg_int -> lcfg_int) (i j : nat) :
  (forall c, int_name (f c) = int_name c) -> i <> j ->
  lconfigGetInt (mk_world (mk_store (upd i f arr) (lcfg_dbls st) (lcfg_strs st)) d)
                (Z.of_nat j)
  = lconfigGetInt (mk_world (mk_store arr (lcfg_dbls st) (lcfg_strs st)) d)
                  (Z.of_nat j).
Proof.
  intros Hf Hij. unfold lconfigGetInt. simpl.
  now rewrite valid_id_upd, Nat2Z.id, nth_upd_other.
Qed.

Lemma get_dbl_other (st : store) (d : filesys) (arr : list lcfg_dbl)
      (f : lcfg_dbl -> lcfg_dbl) (i j : nat) :
  (forall c, dbl_name (f c) = dbl_name c) -> i <> j ->
  lconfigGetDouble (mk_world (mk_store (lcfg_ints st) (upd i f arr) (lcfg_strs st)) d)
                   (Z.of_nat j)
  = lconfigGetDouble (mk_world (mk_store (lcfg_ints st) arr (lcfg_strs st)) d)
                     (Z.of_nat j).
Proof.
  intros Hf Hij. unfold lconfigGetDouble. simpl.
  now rewrite valid_id_upd, Nat2Z.id, nth_upd_other.
Qed.

Lemma get_str_other (st : store) (d : filesys) (arr : list lcfg_str)
      (f : lcfg_str -> lcfg_str) (i j : nat) :
  (forall c, str_name (f c) = str_name c) -> i <> j ->
  lconfigGetString (mk_world (mk_store (lcfg_ints st) (lcfg_dbls st) (upd i f arr)) d)
                   (Z.of_nat j)
  = lconfigGetString (mk_world (mk_store (lcfg_ints st) (lcfg_dbls st) arr) d)
                     (Z.of_nat j).
Proof.
  intros Hf Hij. unfold lconfigGetString. simpl.
  now rewrite valid_id_upd, Nat2Z.id, nth_upd_other.
Qed.

Lemma setint_frame (w : world) (id v : Z) (k : key) :
  k <> KInt (Z.to_nat id) -> get (lconfigSetInt w id v) k = get w k.
Proof.
  intros Hk. unfold lconfigSetInt.
  destruct (valid_id int_name _ _ id); [|reflexivity].
  destruct w as [[ints dbls strs] d]. destruct k as [j|j|j]; simpl; try reflexivity.
  f_equal.
  apply (get_int_other (mk_store ints dbls strs) d ints); [reflexivity|congruence].
Qed.

Lemma setdouble_frame (w : world) (id : Z) (v : spec_float) (k : key) :
  k <> KDbl (Z.to_nat id) -> get (lconfigSetDouble w id v) k = get w k.
Proof.
  intros Hk. unfold lconfigSetDouble.
  destruct (valid_id dbl_name _ _ id); [|reflexivity].
  destruct w as [[ints dbls strs] d]. destruct k as [j|j|j]; simpl; try reflexivity.
  f_equal.
  apply (get_dbl_other (mk_store ints dbls strs) d dbls); [reflexivity|congruence].
Qed.

Lemma setstring_frame (w : world) (id : Z) (v : cstr) (k : key) :
  k <> KStr (Z.to_nat id) -> get (lconfigSetString w id v) k = get w k.
Proof.
  intros Hk. unfold lconfigSetString.
  destruct (valid_id str_name _ _ id); [|reflexivity].
  destruct w as [[ints dbls strs] d]. destruct k as [j|j|j]; simpl; try reflexivity.
  f_equal.
  apply (get_str_other (mk_store ints dbls strs) d strs); [reflexivity|congruence].
Qed.

(** X3.  A [Set] changes what [Get] returns for the addressed field at
    most: every other id of the category and every field of the other
    categories answer as before; with an id that is not registered
    (negative or beyond the array included) the whole state is left as it
    is. *)
Theorem set_touches_one_field :
  (forall (w : world) (id v : Z) (k : key),
      k <> KInt (Z.to_nat id) -> get (lconfigSetInt w id v) k = get w k)
  /\ (forall (w : world) (id : Z) (v : spec_float) (k : key),
      k <> KDbl (Z.to_nat id) -> get (lconfigSetDouble w id v) k = get w k)
  /\ (forall (w : world) (id : Z) (v : cstr) (k : key),
      k <> KStr (Z.to_nat id) -> get (lconfigSetString w id v) k = get w k)
  /\ (forall (w : world) (id v : Z),
      ~ registered_int w id -> lconfigSetInt w id v = w)
  /\ (forall (w : world) (id : Z) (v : spec_float),
      ~ registered_dbl w id -> lconfigSetDouble w id v = w)
  /\ (forall (w : world) (id : Z) (v : cstr),
      ~ registered_str w id -> lconfigSetString w id v = w).
Proof.
  repeat apply conj.
  - apply setint_frame.
  - apply setdouble_frame.
  - apply setstring_frame.
  - intros w id v H. unfold lconfigSetInt, registered_int in *.
    now destruct (valid_id int_name _ _ id).
  - intros w id v H. unfold lconfigSetDouble, registered_dbl in *.
    now destruct (valid_id dbl_name _ _ id).
  - intros w id v H. unfold lconfigSetString, registered_str in *.
    now destruct (valid_id str_name _ _ id).
Qed.

Lemma set_touches_one_field_witness :
  get (lconfigSetInt Example.start 0 7) (KInt 1) = VInt 15
  /\ get (lconfigSetDouble Example.start 2 Example.d_1) (KStr 0)
     = VStr (Some (lit "ABCD"))
  /\ get (lconfigSetString Example.start 0 (lit "x")) (KInt 0) = VInt 0
  /\ lconfigSetInt Example.start (-1) 7 = Example.start
  /\ lconfigSetDouble Example.start 3 Example.d_1 = Example.start
  /\ lconfigSetString Example.start 1 (lit "x") = Example.start.
Proof.
  destruct set_touches_one_field as (Hi & Hd & Hs & Ni & Nd & Ns).
  repeat apply conj.
  - rewrite (Hi Example.start 0 7 (KInt 1)); [reflexivity | discriminate].
  - rewrite (Hd Example.start 2 Example.d_1 (KStr 0)); [reflexivity | discriminate].
  - rewrite (Hs Example.start 0 (lit "x") (KInt 0)); [reflexivity | discriminate].
  - apply Ni. vm_compute. discriminate.
  - apply Nd. vm_compute. discriminate.
  - apply Ns. vm_compute. discriminate.
Defined.

(** ** Stored values are fixed points of the clamping *)

Ltac split_clamp :=
  repeat match goal with
         | |- context [if ?a <? ?b then _ else _] =>
             lazymatch a with
             | context [if _ then _ else _] => fail
             | _ => destruct (Z.ltb_spec a b)
             end
         | |- context [if ?a >? ?b then _ else _] =>
             lazymatch a with
             | context [if _ then _ else _] => fail
             | _ => destruct (Z.gtb_spec a b)
             end
         end.

Lemma lcfgIntSet_idem (c : lcfg_int) (v : Z) :
  lcfgIntSet (lcfgIntSet c v) (int_cur (lcfgIntSet c v)) = lcfgIntSet c v.
Proof.
  unfold lcfgIntSet; simpl. f_equal. split_clamp; lia.
Qed.

Lemma lcfgDblSet_idem (c : lcfg_dbl) (v : spec_float) :
  lcfgDblSet (lcfgDblSet c v) (dbl_cur (lcfgDblSet c v)) = lcfgDblSet c v.
Proof.
  unfold lcfgDblSet; simpl. f_equal.
  destruct (SFltb v (dbl_min c)) eqn:E1; simpl.
  - destruct (SFltb (dbl_max c) (dbl_min c)) eqn:E2; simpl.
    + now rewrite E2, E2.
    + now rewrite SFltb_irrefl, E2.
  - destruct (SFltb (dbl_max c) v) eqn:E2; simpl.
    + destruct (SFltb (dbl_max c) (dbl_min c)) eqn:E3; simpl.
      * now rewrite E3.
      * now rewrite SFltb_irrefl.
    + now rewrite E1, E2.
Qed.

Lemma lcfgStrSet_idem (c : lcfg_str) (v : cstr) :
  lcfgStrSet (lcfgStrSet c v) (str_cur (lcfgStrSet c v)) = lcfgStrSet c v.
Proof.
  destruct (lcfgStrSet_ok c v) as [Hnl Hlen].
  pose proof (lcfgStrSet_in_bounds (lcfgStrSet c v) _ Hnl Hlen) as H.
  unfold lcfgStrSet in *. simpl in *. now rewrite H.
Qed.

(** X4.  What a [Set] has stored is clamped already: storing back what
    [Get] returns leaves the whole state as it is. *)
Theorem set_of_get_is_identity :
  (forall (w : world) (id v : Z),
      let w' := lconfigSetInt w id v in
      lconfigSetInt w' id (lconfigGetInt w' id) = w')
  /\ (forall (w : world) (id : Z) (v : spec_float),
      let w' := lconfigSetDouble w id v in
      lconfigSetDouble w' id (lconfigGetDouble w' id) = w')
  /\ (forall (w : world) (id : Z) (v s : cstr),
      let w' := lconfigSetString w id v in
      lconfigGetString w' id = Some s -> lconfigSetString w' id s = w').
Proof.
  repeat apply conj.
  - intros w id v w'. subst w'.
    destruct (valid_id int_name int_hole (lcfg_ints (globals w)) id) eqn:Hreg.
    + rewrite (lconfigGetInt_SetInt w id v Hreg).
      unfold lconfigSetInt. rewrite Hreg. simpl.
      rewrite valid_id_upd, Hreg by reflexivity. rewrite upd_upd. do 2 f_equal.
      apply (upd_ext_nth _ _ int_hole). unfold int_field. apply lcfgIntSet_idem.
    + unfold lconfigSetInt at 2 3 4. rewrite Hreg.
      unfold lconfigSetInt. now rewrite Hreg.
  - intros w id v w'. subst w'.
    destruct (valid_id dbl_name dbl_hole (lcfg_dbls (globals w)) id) eqn:Hreg.
    + rewrite (lconfigGetDouble_SetDouble w id v Hreg).
      unfold lconfigSetDouble. rewrite Hreg. simpl.
      rewrite valid_id_upd, Hreg by reflexivity. rewrite upd_upd. do 2 f_equal.
      apply (upd_ext_nth _ _ dbl_hole). unfold dbl_field. apply lcfgDblSet_idem.
    + unfold lconfigSetDouble at 2 3 4. rewrite Hreg.
      unfold lconfigSetDouble. now rewrite Hreg.
  - intros w id v s w'. subst w'.
    destruct (valid_id str_name str_hole (lcfg_strs (globals w)) id) eqn:Hreg.
    + rewrite (lconfigGetString_SetString w id v Hreg). intros [= <-].
      unfold lconfigSetString. rewrite Hreg. simpl.
      rewrite valid_id_upd, Hreg by reflexivity. rewrite upd_upd. do 2 f_equal.
      apply (upd_ext_nth _ _ str_hole). unfold str_field. apply lcfgStrSet_idem.
    + intros _. unfold lconfigSetString at 2 3. rewrite Hreg.
      unfold lconfigSetString. now rewrite Hreg.
Qed.

Lemma set_of_get_is_identity_witness :
  let w' := lconfigSetString Example.start 0 (repeat "x"%char 40) in
  lconfigSetString w' 0 (repeat "x"%char 32) = w'.
Proof.
  intros w'. destruct set_of_get_is_identity as (_ & _ & H).
  apply (H Example.start 0 (repeat "x"%char 40) (repeat "x"%char 32)).
  reflexivity.
Defined.

(** ** The descriptors never change *)

Lemma lcfgIntSet_desc (c : lcfg_int) (v : Z) : int_desc (lcfgIntSet c v) = int_desc c.
Proof. reflexivity. Qed.
Lemma lcfgDblSet_desc (c : lcfg_dbl) (v : spec_float) :
  dbl_desc (lcfgDblSet c v) = dbl_desc c.
Proof. reflexivity. Qed.
Lemma lcfgStrSet_desc (c : lcfg_str) (v : cstr) : str_desc (lcfgStrSet c v) = str_desc c.
Proof. reflexivity. Qed.

Lemma map_upd_fix {A B : Type} (g : A -> B) (f : A -> A) (l : list A) (i : nat) :
  (forall c, g (f c) = g c) -> map g (upd i f l) = map g l.
Proof.
  intros H. revert i. induction l as [|x r IH]; intros [|i]; simpl; auto.
  - now rewrite H.
  - now rewrite IH.
Qed.

Lemma map_map_fix {A B : Type} (g : A -> B) (f : A -> A) (l : list A) :
  (forall c, g (f c) = g c) -> map g (map f l) = map g l.
Proof.
  intros H. rewrite map_map. apply map_ext. exact H.
Qed.

Lemma schema_default (st : store) : schema (default_store st) = schema st.
Proof.
  unfold schema, default_store. simpl.
  rewrite !map_map_fix; [reflexivity | | |]; intros c; now destruct (has_name _).
Qed.

Section Schema.

Context {libc_double : DoubleText}.

Lemma int_step_desc (txt : cstr) (c : lcfg_int) : int_desc (int_step txt c) = int_desc c.
Proof.
  unfold int_step, lcfgIntRead. destruct (has_name _); [|reflexivity].
  destruct (int_name c); [|reflexivity]. now destruct (_ =? 0).
Qed.

Lemma dbl_step_desc (txt : cstr) (c : lcfg_dbl) : dbl_desc (dbl_step txt c) = dbl_desc c.
Proof.
  unfold dbl_step, lcfgDblRead. destruct (has_name _); [|reflexivity].
  destruct (dbl_name c); [|reflexivity]. now destruct (_ =? 0).
Qed.

Lemma str_step_desc (txt : cstr) (c : lcfg_str) : str_desc (str_step txt c) = str_desc c.
Proof.
  unfold str_step, lcfgStrRead. destruct (has_name _); [|reflexivity].
  destruct (str_name c); [|reflexivity]. now destruct (_ =? 0).
Qed.

Lemma schema_read_line (st : store) (txt : cstr) :
  schema (read_line st txt) = schema st.
Proof.
  unfold schema, read_line. simpl.
  now rewrite !map_map_fix
    by auto using int_step_desc, dbl_step_desc, str_step_desc.
Qed.

Lemma schema_read_loop (fuel lmax : nat) (cfg : list ascii) (st st' : store) :
  read_loop fuel lmax cfg st = Some st' -> schema st' = schema st.
Proof.
  apply (read_loop_invariant (fun s => schema s = schema st)); [|reflexivity].
  intros s txt Hs. now rewrite schema_read_line.
Qed.

(** [lconfigRead] always returns; it keeps the descriptors and the disk. *)
Lemma lconfigRead_frame (w : world) :
  exists r w', lconfigRead w = Some (r, w')
               /\ schema (globals w') = schema (globals w)
               /\ disk w' = disk w.
Proof.
  destruct (fopen_r (disk w)) as [source|] eqn:Hopen.
  - destruct (lconfigRead_opened w source Hopen) as (st' & Hloop & E).
    exists 0, (mk_world st' (disk w)). repeat split; [assumption|].
    simpl. eapply schema_read_loop. exact Hloop.
  - exists 1, w. unfold lconfigRead. now rewrite Hopen.
Qed.

(** X5.  The descriptors (names, bounds, defaults, and with them the sizes
    of the arrays and the set of registered ids) are the same after every
    operation; [lconfigRead] and [lconfigInit] always return, and
    [lconfigRead] leaves the file as it is. *)
Theorem operations_keep_descriptors :
  (forall w id v, schema (globals (lconfigSetInt w id v)) = schema (globals w))
  /\ (forall w id v, schema (globals (lconfigSetDouble w id v)) = schema (globals w))
  /\ (forall w id v, schema (globals (lconfigSetString w id v)) = schema (globals w))
  /\ (forall w, schema (globals (lconfigDefault w)) = schema (globals w))
  /\ (forall t w, schema (globals (snd (lconfigWrite t w))) = schema (globals w))
  /\ (forall w, exists r w',
         lconfigRead w = Some (r, w')
         /\ schema (globals w') = schema (globals w)
         /\ disk w' = disk w)
  /\ (forall t w, exists w',
         lconfigInit t w = Some w'
         /\ schema (globals w') = schema (globals w)).
Proof.
  repeat apply conj.
  - intros w id v. unfold lconfigSetInt. destruct (valid_id _ _ _ id); [|reflexivity].
    unfold schema. simpl. now rewrite map_upd_fix.
  - intros w id v. unfold lconfigSetDouble. destruct (valid_id _ _ _ id); [|reflexivity].
    unfold schema. simpl. now rewrite map_upd_fix.
  - intros w id v. unfold lconfigSetString. destruct (valid_id _ _ _ id); [|reflexivity].
    unfold schema. simpl. now rewrite map_upd_fix.
  - intros w. apply schema_default.
  - intros t w. unfold lconfigWrite. now destruct (fs_may_write (disk w)).
  - intros w. destruct (lconfigRead_frame w) as (r & w' & E & Hs & Hd). eauto.
  - intros t w. destruct (lconfigRead_frame w) as (r & w' & E & Hs & _).
    unfold lconfigInit. rewrite E. eexists. split; [reflexivity|].
    rewrite <- Hs. unfold lconfigWrite. now destruct (fs_may_write (disk w')).
Qed.

End Schema.

(** ** [lconfigDefault] forgets the history *)

Lemma schema_nth_int (st1 st2 : store) (i : nat) :
  schema st1 = schema st2 ->
  int_desc (nth i (lcfg_ints st1) int_hole) = int_desc (nth i (lcfg_ints st2) int_hole)
  /\ length (lcfg_ints st1) = length (lcfg_ints st2).
Proof.
  unfold schema. intros [= H _ _]. split.
  - change (int_desc int_hole) with (int_desc int_hole).
    rewrite <- !(map_nth int_desc). now rewrite H.
  - rewrite <- (length_map int_desc (lcfg_ints st1)), H. apply length_map.
Qed.

Lemma schema_nth_dbl (st1 st2 : store) (i : nat) :
  schema st1 = schema st2 ->
  dbl_desc (nth i (lcfg_dbls st1) dbl_hole) = dbl_desc (nth i (lcfg_dbls st2) dbl_hole)
  /\ length (lcfg_dbls st1) = length (lcfg_dbls st2).
Proof.
  unfold schema. intros [= _ H _]. split.
  - rewrite <- !(map_nth dbl_desc). now rewrite H.
  - rewrite <- (length_map dbl_desc (lcfg_dbls st1)), H. apply length_map.
Qed.

Lemma schema_nth_str (st1 st2 : store) (i : nat) :
  schema st1 = schema st2 ->
  str_desc (nth i (lcfg_strs st1) str_hole) = str_desc (nth i (lcfg_strs st2) str_hole)
  /\ length (lcfg_strs st1) = length (lcfg_strs st2).
Proof.
  unfold schema. intros [= _ _ H]. split.
  - rewrite <- !(map_nth str_desc). now rewrite H.
  - rewrite <- (length_map str_desc (lcfg_strs st1)), H. apply length_map.
Qed.

(** What [Get] returns after [lconfigDefault], from the descriptor alone. *)
Lemma get_default (st : store) (d : filesys) (k : key) :
  get (lconfigDefault (mk_world st d)) k
  = match k with
    | KInt id =>
        let c := nth id (lcfg_ints st) int_hole in
        VInt (if valid_id int_name int_hole (lcfg_ints st) (Z.of_nat id)
              then int_cur (lcfgIntSet c (int_def c)) else -1)
    | KDbl id =>
        let c := nth id (lcfg_dbls st) dbl_hole in
        VDbl (if valid_id dbl_name dbl_hole (lcfg_dbls st) (Z.of_nat id)
              then dbl_cur (lcfgDblSet c (dbl_def c)) else NAN)
    | KStr id =>
        let c := nth id (lcfg_strs st) str_hole in
        VStr (if valid_id str_name str_hole (lcfg_strs st) (Z.of_nat id)
              then Some (str_cur (lcfgStrSet c (str_def c))) else None)
    end.
Proof.
  destruct k as [id|id|id]; simpl;
    unfold lconfigGetInt, lconfigGetDouble, lconfigGetString; simpl;
    (rewrite valid_id_map, Nat2Z.id, nth_map_hole;
     [| reflexivity | intros c; now destruct (has_name _) | reflexivity]).
  - destruct (valid_id int_name _ _ _) eqn:E; [|reflexivity].
    apply valid_id_inv in E as (_ & _ & n & E). rewrite Nat2Z.id in E. now rewrite E.
  - destruct (valid_id dbl_name _ _ _) eqn:E; [|reflexivity].
    apply valid_id_inv in E as (_ & _ & n & E). rewrite Nat2Z.id in E. now rewrite E.
  - destruct (valid_id str_name _ _ _) eqn:E; [|reflexivity].
    apply valid_id_inv in E as (_ & _ & n & E). rewrite Nat2Z.id in E. now rewrite E.
Qed.

Lemma valid_id_schema {A B : Type} (name : A -> option cstr) (desc : A -> B)
      (pick : B -> option cstr) (hole : A) (arr1 arr2 : list A) (id : nat) :
  (forall c, pick (desc c) = name c) ->
  desc (nth id arr1 hole) = desc (nth id arr2 hole) ->
  length arr1 = length arr2 ->
  valid_id name hole arr1 (Z.of_nat id) = valid_id name hole arr2 (Z.of_nat id).
Proof.
  intros Hpick Hd Hl. unfold valid_id.
  rewrite Hl, Nat2Z.id, <- !Hpick, Hd. reflexivity.
Qed.

(** X6.  What [Get] returns after [lconfigDefault] depends on the
    descriptors only: two states with the same descriptors answer alike
    after it, whatever values they held. *)
Theorem default_depends_on_descriptors (w1 w2 : world) (k : key) :
  schema (globals w1) = schema (globals w2) ->
  get (lconfigDefault w1) k = get (lconfigDefault w2) k.
Proof.
  intros Hs. destruct w1 as [st1 d1], w2 as [st2 d2]. simpl in Hs.
  rewrite !get_default. destruct k as [id|id|id]; cbv zeta.
  - destruct (schema_nth_int st1 st2 id Hs) as [Hd Hl].
    rewrite (valid_id_schema int_name int_desc (fun d => fst (fst (fst d)))
               int_hole _ _ id (fun _ => eq_refl) Hd Hl).
    injection Hd as Hn Hmin Hmax Hdef. unfold lcfgIntSet. simpl.
    now rewrite Hmin, Hmax, Hdef.
  - destruct (schema_nth_dbl st1 st2 id Hs) as [Hd Hl].
    rewrite (valid_id_schema dbl_name dbl_desc (fun d => fst (fst (fst d)))
               dbl_hole _ _ id (fun _ => eq_refl) Hd Hl).
    injection Hd as Hn Hmin Hmax Hdef. unfold lcfgDblSet. simpl.
    now rewrite Hmin, Hmax, Hdef.
  - destruct (schema_nth_str st1 st2 id Hs) as [Hd Hl].
    rewrite (valid_id_schema str_name str_desc (fun d => fst (fst d))
               str_hole _ _ id (fun _ => eq_refl) Hd Hl).
    injection Hd as Hn Hlen Hdef. unfold lcfgStrSet. simpl.
    now rewrite Hlen, Hdef.
Qed.

Lemma default_depends_on_descriptors_witness :
  get (lconfigDefault (lconfigSetInt Example.start 1 12)) (KInt 1)
  = get (lconfigDefault Example.start) (KInt 1).
Proof.
  apply (default_depends_on_descriptors
           (lconfigSetInt Example.start 1 12) Example.start (KInt 1)).
  reflexivity.
Defined.

(** ** [int] fields stay within their bounds *)

Section IntInvariant.

Context {libc_double : DoubleText}.

Lemma int_invariant_default (st : store) :
  (forall c, In c (lcfg_ints st) -> int_name c <> None -> int_min c <= int_max c) ->
  int_invariant (default_store st).
Proof.
  intros Hmm c Hin Hname. simpl in Hin.
  apply in_map_iff in Hin as (c0 & <- & Hc0).
  destruct (has_name (int_name c0)) eqn:E.
  - apply (lcfgIntSet_bounds c0). apply Hmm; [assumption|].
    now destruct (int_name c0).
  - destruct (int_name c0); [discriminate | contradiction].
Qed.

Lemma int_invariant_set (w : world) (id v : Z) :
  int_invariant (globals w) -> int_invariant (globals (lconfigSetInt w id v)).
Proof.
  intros Hinv. unfold lconfigSetInt.
  destruct (valid_id int_name _ _ id); [|assumption].
  intros c Hin Hname. simpl in Hin.
  apply In_upd in Hin as [Hin|(c0 & Hc0 & ->)]; [now apply Hinv|].
  apply (lcfgIntSet_bounds c0). specialize (Hinv c0 Hc0 Hname). lia.
Qed.

Lemma int_invariant_read_line (st : store) (txt : cstr) :
  int_invariant st -> int_invariant (read_line st txt).
Proof.
  intros Hinv c Hin Hname. simpl in Hin.
  apply in_map_iff in Hin as (c0 & <- & Hc0). unfold int_step in *.
  destruct (has_name (int_name c0)) eqn:E; [|now apply Hinv].
  unfold lcfgIntRead in *. destruct (int_name c0) as [n|] eqn:En; [|discriminate].
  assert (H0 : int_min c0 <= int_cur c0 <= int_max c0)
    by (apply Hinv; [assumption | congruence]).
  destruct (_ =? 0); [|exact H0].
  apply (lcfgIntSet_bounds c0). lia.
Qed.

Lemma read_keeps_int_invariant (w : world) (r : Z) (w' : world) :
  int_invariant (globals w) -> lconfigRead w = Some (r, w') ->
  int_invariant (globals w').
Proof.
  intros Hinv. unfold lconfigRead.
  destruct (fopen_r (disk w)) as [source|]; [|now intros [= <- <-]].
  destruct (read_loop _ _ _ _) as [st'|] eqn:Hloop; [|discriminate].
  intros [= <- <-]. simpl.
  eapply read_loop_invariant; [| exact Hinv | exact Hloop].
  intros st txt. apply int_invariant_read_line.
Qed.

Lemma read_keeps_str_invariant (w : world) (r : Z) (w' : world) :
  str_invariant (globals w) -> lconfigRead w = Some (r, w') ->
  str_invariant (globals w').
Proof.
  intros Hinv. unfold lconfigRead.
  destruct (fopen_r (disk w)) as [source|]; [|now intros [= <- <-]].
  destruct (read_loop _ _ _ _) as [st'|] eqn:Hloop; [|discriminate].
  intros [= <- <-]. simpl.
  eapply read_loop_invariant; [| exact Hinv | exact Hloop].
  intros st txt. apply read_line_str_invariant.
Qed.

(** X7.  The values of the registered [int] fields stay within their
    bounds: [lconfigDefault] brings them there when the declared bounds
    satisfy [min <= max], and every [Set] and [lconfigRead] (whatever the
    file holds) keeps them there. *)
Theorem int_fields_stay_within_bounds :
  (forall w,
      (forall c, In c (lcfg_ints (globals w)) -> int_name c <> None ->
                 int_min c <= int_max c) ->
      int_invariant (globals (lconfigDefault w)))
  /\ (forall w id v, int_invariant (globals w) ->
        int_invariant (globals (lconfigSetInt w id v)))
  /\ (forall w id v, int_invariant (globals w) ->
        int_invariant (globals (lconfigSetDouble w id v)))
  /\ (forall w id v, int_invariant (globals w) ->
        int_invariant (globals (lconfigSetString w id v)))
  /\ (forall w r w', int_invariant (globals w) ->
        lconfigRead w = Some (r, w') -> int_invariant (globals w')).
Proof.
  repeat apply conj.
  - intros w. apply int_invariant_default.
  - apply int_invariant_set.
  - intros w id v H. unfold lconfigSetDouble. now destruct (valid_id _ _ _ id).
  - intros w id v H. unfold lconfigSetString. now destruct (valid_id _ _ _ id).
  - apply read_keeps_int_invariant.
Qed.

End IntInvariant.

Lemma example_int_invariant : int_invariant (globals Example.start).
Proof.
  intros c [<-|[<-|[]]] _; simpl; lia.
Qed.

Lemma int_fields_stay_within_bounds_witness :
  exists w',
    @lconfigRead Example.example_libc
      (mk_world (globals Example.start) (Example.disk_with "number_b 999"))
    = Some (0, w')
    /\ int_invariant (globals w')
    /\ lconfigGetInt w' 1 = 20.
Proof.
  destruct (@int_fields_stay_within_bounds Example.example_libc)
    as (_ & _ & _ & _ & H).
  eexists. split; [vm_compute; reflexivity|]. split; [|reflexivity].
  eapply (H (mk_world (globals Example.start) (Example.disk_with "number_b 999"))).
  - exact example_int_invariant.
  - vm_compute. reflexivity.
Defined.

(** ** What a matching line stores *)

Lemma valid_id_named {A : Type} (name : A -> option cstr) (hole : A)
      (arr : list A) (id : nat) (n : cstr) :
  name hole = None -> name (nth id arr hole) = Some n ->
  valid_id name hole arr (Z.of_nat id) = true.
Proof.
  intros Hhole Hn. unfold valid_id. rewrite Nat2Z.id, Hn. simpl.
  rewrite andb_true_r, andb_true_iff, Z.leb_le, Z.ltb_lt. split; [lia|].
  destruct (Nat.lt_ge_cases id (length arr)) as [H|H]; [lia|].
  rewrite nth_overflow in Hn by assumption. congruence.
Qed.

Section Matching.

Context {libc_double : DoubleText}.

Lemma read_line_get_matched (st : store) (d : filesys) (k : key) (n rest : cstr) :
  name_at st k = Some n -> ~ In NUL n ->
  get (mk_world (read_line st (n ++ rest)) d) k = stored_value st k rest.
Proof.
  intros Hn Hnul. rewrite get_read_line.
  assert (Hp : prefixb n (n ++ rest) = true)
    by (apply prefixb_trans_app, prefixb_refl).
  destruct k as [id|id|id]; simpl in Hn |- *.
  - rewrite (valid_id_named int_name int_hole _ id n eq_refl Hn).
    unfold int_step, lcfgIntRead. rewrite Hn. simpl.
    now rewrite strncmp_prefixb, Hp, offset_app.
  - rewrite (valid_id_named dbl_name dbl_hole _ id n eq_refl Hn).
    unfold dbl_step, lcfgDblRead. rewrite Hn. simpl.
    now rewrite strncmp_prefixb, Hp, offset_app.
  - rewrite (valid_id_named str_name str_hole _ id n eq_refl Hn).
    unfold str_step, lcfgStrRead. rewrite Hn. simpl.
    now rewrite strncmp_prefixb, Hp, offset_app.
Qed.

(** X8.  A buffer that starts with the stored name of a registered field
    makes it hold the text behind the name, converted ([atoi], [atof], or
    the text itself up to its newline) and clamped; when no stored name is
    an initial segment of another, every other field answers as before. *)
Theorem matching_line_stores_clamped_value
        (w : world) (k : key) (n rest : cstr) :
  name_at (globals w) k = Some n ->
  names_are_strings (globals w) ->
  let w' := mk_world (read_line (globals w) (n ++ rest)) (disk w) in
  get w' k = stored_value (globals w) k rest
  /\ (prefix_free (globals w) -> forall k', k' <> k -> get w' k' = get w k').
Proof.
  intros Hn Hwf w'. subst w'. destruct w as [st d]. simpl in *. split.
  - apply read_line_get_matched; [assumption | exact (Hwf k n Hn)].
  - intros Hpf k' Hk'.
    destruct (name_at st k') as [n'|] eqn:Hn';
      [|now apply read_line_get_unregistered].
    apply (read_line_get_unmatched st d _ k' n' Hn' (Hwf k' n' Hn')).
    destruct (prefixb n' (n ++ rest)) eqn:Hp; [|reflexivity].
    exfalso. apply Hk'.
    assert (Hp0 : prefixb n (n ++ rest) = true)
      by (apply prefixb_trans_app, prefixb_refl).
    destruct (prefixb_comparable _ _ _ Hp Hp0) as [H|H].
    + exact (Hpf _ _ _ _ Hn' Hn H).
    + symmetry. exact (Hpf _ _ _ _ Hn Hn' H).
Qed.

(** The value a reader stores depends on the descriptor only. *)
Lemma stored_value_schema (st1 st2 : store) (k : key) (rest : cstr) :
  schema st1 = schema st2 -> stored_value st1 k rest = stored_value st2 k rest.
Proof.
  intros Hs. destruct k as [id|id|id]; simpl.
  - destruct (schema_nth_int st1 st2 id Hs) as [[= _ Hmin Hmax _] _].
    unfold lcfgIntSet. simpl. now rewrite Hmin, Hmax.
  - destruct (schema_nth_dbl st1 st2 id Hs) as [[= _ Hmin Hmax _] _].
    unfold lcfgDblSet. simpl. now rewrite Hmin, Hmax.
  - destruct (schema_nth_str st1 st2 id Hs) as [[= _ Hlen _] _].
    unfold lcfgStrSet. simpl. now rewrite Hlen.
Qed.

Lemma name_at_schema (st1 st2 : store) (k : key) :
  schema st1 = schema st2 -> name_at st1 k = name_at st2 k.
Proof.
  intros Hs. destruct k as [id|id|id]; simpl.
  - now destruct (schema_nth_int st1 st2 id Hs) as [[= -> _ _ _] _].
  - now destruct (schema_nth_dbl st1 st2 id Hs) as [[= -> _ _ _] _].
  - now destruct (schema_nth_str st1 st2 id Hs) as [[= -> _ _] _].
Qed.

Lemma schema_fold_read_line (ls : list cstr) (st : store) :
  schema (fold_left read_line ls st) = schema st.
Proof.
  revert st. induction ls as [|l ls IH]; intros st; simpl; [reflexivity|].
  now rewrite IH, schema_read_line.
Qed.

Lemma fold_read_line_unmatched (d : filesys) (k : key) (n : cstr)
      (ls : list cstr) (st : store) :
  name_at st k = Some n -> ~ In NUL n ->
  Forall (fun l => prefixb n l = false) ls ->
  get (mk_world (fold_left read_line ls st) d) k = get (mk_world st d) k.
Proof.
  intros Hn Hnul Hls. revert st Hn.
  induction Hls as [|l ls Hl _ IH]; intros st Hn; simpl; [reflexivity|].
  rewrite IH by (now rewrite read_line_name_at).
  now apply (read_line_get_unmatched st d l k n).
Qed.

(** X9.  In a file whose lines [fgets] reads in one piece, the last line
    that starts with the stored name of a field decides its value: it holds
    the text behind the name on that line, converted and clamped, whatever
    the earlier lines stored. *)
Theorem last_matching_line_wins
        (w : world) (k : key) (n rest : cstr) (before after : list cstr) :
  name_at (globals w) k = Some n ->
  ~ In NUL n ->
  fopen_r (disk w) = Some (concat (before ++ (n ++ rest) :: after)) ->
  Forall fits_buffer (before ++ (n ++ rest) :: after) ->
  Forall (fun l => prefixb n l = false) after ->
  exists w',
    lconfigRead w = Some (0, w')
    /\ get w' k = stored_value (globals w) k rest.
Proof.
  intros Hn Hnul Hopen Hfit Hafter.
  unfold lconfigRead. rewrite Hopen.
  rewrite (read_loop_lines _ _ Hfit).
  - eexists. split; [reflexivity|].
    rewrite fold_left_app. simpl fold_left.
    set (st1 := fold_left read_line before (globals w)).
    assert (Hs1 : schema st1 = schema (globals w))
      by apply schema_fold_read_line.
    assert (Hn1 : name_at st1 k = Some n)
      by (now rewrite (name_at_schema _ _ k Hs1)).
    rewrite (fold_read_line_unmatched (disk w) k n after)
      by (try rewrite read_line_name_at; assumption).
    rewrite (read_line_get_matched st1 (disk w) k n rest Hn1 Hnul).
    now apply stored_value_schema.
  - apply Nat.lt_succ_r. apply concat_length_lines.
    eapply Forall_impl; [|exact Hfit].
    intros l [Hl _]. now apply one_line_nonempty.
Qed.

End Matching.

Lemma matching_line_stores_clamped_value_witness :
  let w' := mk_world (@read_line Example.example_libc (globals Example.start)
                        ((lit "number_b" ++ [SP]) ++ lit "999" ++ [NL]))
                     (disk Example.start) in
  get w' (KInt 1) = VInt 20
  /\ get w' (KInt 0) = VInt 0.
Proof.
  intros w'.
  destruct (@matching_line_stores_clamped_value Example.example_libc
              Example.start (KInt 1) (lit "number_b" ++ [SP]) (lit "999" ++ [NL]))
    as [H1 H2].
  - reflexivity.
  - exact example_names_are_strings.
  - split.
    + subst w'. rewrite H1. reflexivity.
    + subst w'. rewrite (H2 example_prefix_free (KInt 0)); [reflexivity|discriminate].
Defined.

Lemma last_matching_line_wins_witness :
  exists w',
    @lconfigRead Example.example_libc
      (mk_world (globals Example.start)
         (mk_fs (Some (concat [lit "number_a 3" ++ [NL];
                               lit "number_a 7" ++ [NL];
                               lit "#number_a 9" ++ [NL]])) true true))
    = Some (0, w')
    /\ get w' (KInt 0) = VInt 7.
Proof.
  destruct (@last_matching_line_wins Example.example_libc
              (mk_world (globals Example.start)
                 (mk_fs (Some (concat [lit "number_a 3" ++ [NL];
                                       lit "number_a 7" ++ [NL];
                                       lit "#number_a 9" ++ [NL]])) true true))
              (KInt 0) (lit "number_a" ++ [SP]) (lit "7" ++ [NL])
              [lit "number_a 3" ++ [NL]] [lit "#number_a 9" ++ [NL]])
    as (w' & E & Hget).
  - reflexivity.
  - apply (example_names_are_strings (KInt 0)). reflexivity.
  - reflexivity.
  - repeat constructor; apply Nat.leb_le; reflexivity.
  - repeat constructor.
  - exists w'. split; [exact E|]. rewrite Hget. reflexivity.
Defined.

(** ** Write, then read: the values come back *)

Lemma key_eq_dec (k1 k2 : key) : {k1 = k2} + {k1 <> k2}.
Proof. decide equality; apply Nat.eq_dec. Qed.

Lemma entry_key_dec (e : entry) (k : key) :
  {entry_key e = Some k} + {entry_key e <> Some k}.
Proof. decide equality. apply key_eq_dec. Qed.

Lemma get_unregistered (st : store) (d : filesys) (k : key) :
  name_at st k = None ->
  get (mk_world st d) k
  = match k with
    | KInt _ => VInt (-1)
    | KDbl _ => VDbl NAN
    | KStr _ => VStr None
    end.
Proof.
  intros H. rewrite get_store.
  destruct k as [id|id|id]; simpl in H; now rewrite valid_id_no_name.
Qed.

Lemma named_In {A : Type} (name : A -> option cstr) (hole : A)
      (arr : list A) (id : nat) (n : cstr) :
  name hole = None -> name (nth id arr hole) = Some n ->
  In (nth id arr hole) arr.
Proof.
  intros Hhole Hn. apply nth_In.
  destruct (Nat.lt_ge_cases id (length arr)) as [H|H]; [assumption|].
  rewrite nth_overflow in Hn by assumption. congruence.
Qed.

Section Restore.

Context {libc_double : DoubleText}.

Variable t : template.
Variable st : store.
Hypothesis Hstr : names_are_strings st.
Hypothesis Hpf : prefix_free st.
Hypothesis Hreg : template_registered t st.
Hypothesis Hlab : labels_inert t st.
Hypothesis Hval : values_clamped st.

(** The line printed for a field gives it back its value, whatever it
    holds when the line is read. *)
Lemma read_line_printed_own (e : entry) (k : key) (s : store) (d : filesys) :
  In e t -> entry_key e = Some k -> schema s = schema st ->
  get (mk_world (read_line s (print_entry st e)) d) k = get (mk_world st d) k.
Proof.
  intros He Hk Hs.
  unfold template_registered in Hreg. rewrite Forall_forall in Hreg.
  specialize (Hreg e He). destruct Hval as (Hint & Hdbl & Hs3).
  destruct e as [text|id nm mn mx df|id nm mn mx df|id nm ln df];
    simpl in Hk; try discriminate; injection Hk as <-;
    cbn [name_at print_entry] in Hreg |- *.
  - set (c := nth id (lcfg_ints st) int_hole) in *.
    destruct (int_name c) as [n|] eqn:En; [|contradiction].
    destruct (Hint c) as [Hfix Hrange];
      [apply (named_In int_name int_hole _ id n eq_refl En) | congruence |].
    unfold lcfgIntPrint. rewrite En. cbn [name_text].
    rewrite (read_line_get_matched s d (KInt id) n).
    + rewrite (stored_value_schema s st _ _ Hs). cbn [stored_value]. fold c.
      rewrite atoi_fmt_d by assumption. rewrite Hfix, get_store.
      now rewrite (valid_id_named int_name int_hole _ id n eq_refl En).
    + rewrite (name_at_schema s st _ Hs). exact En.
    + apply (Hstr (KInt id)). exact En.
  - set (c := nth id (lcfg_dbls st) dbl_hole) in *.
    destruct (dbl_name c) as [n|] eqn:En; [|contradiction].
    destruct (Hdbl c) as [Hfix Hback];
      [apply (named_In dbl_name dbl_hole _ id n eq_refl En) | congruence |].
    unfold lcfgDblPrint. rewrite En. cbn [name_text].
    rewrite (read_line_get_matched s d (KDbl id) n).
    + rewrite (stored_value_schema s st _ _ Hs). cbn [stored_value]. fold c.
      rewrite Hback, Hfix, get_store.
      now rewrite (valid_id_named dbl_name dbl_hole _ id n eq_refl En).
    + rewrite (name_at_schema s st _ Hs). exact En.
    + apply (Hstr (KDbl id)). exact En.
  - set (c := nth id (lcfg_strs st) str_hole) in *.
    destruct (str_name c) as [n|] eqn:En; [|contradiction].
    assert (Hfix : lcfgStrSet c (str_cur c) = c).
    { apply Hs3; [apply (named_In str_name str_hole _ id n eq_refl En) | congruence]. }
    unfold lcfgStrPrint. rewrite En. cbn [name_text].
    rewrite (read_line_get_matched s d (KStr id) n).
    + rewrite (stored_value_schema s st _ _ Hs). cbn [stored_value]. fold c.
      rewrite lcfgStrSet_line, Hfix, get_store.
      now rewrite (valid_id_named str_name str_hole _ id n eq_refl En).
    + rewrite (name_at_schema s st _ Hs). exact En.
    + apply (Hstr (KStr id)). exact En.
Qed.

(** Every other printed line leaves the field as it is. *)
Lemma read_line_printed_other (e : entry) (k : key) (n : cstr) (s : store)
      (d : filesys) :
  In e t -> entry_key e <> Some k -> name_at st k = Some n ->
  schema s = schema st ->
  get (mk_world (read_line s (print_entry st e)) d) k = get (mk_world s d) k.
Proof.
  intros He Hk Hn Hs.
  apply (read_line_get_unmatched s d _ k n).
  - now rewrite (name_at_schema s st k Hs).
  - exact (Hstr k n Hn).
  - destruct (prefixb n (print_entry st e)) eqn:Hp; [|reflexivity].
    exfalso.
    pose proof (printed_line_owner t st Hpf Hreg Hlab e k n He Hn Hp) as Hown.
    destruct e; simpl in Hk; [exact Hown | | |]; apply Hk; now rewrite Hown.
Qed.

Lemma fold_printed_restores (k : key) (n : cstr) (d : filesys) :
  name_at st k = Some n ->
  forall (es : list entry) (s : store),
    (forall e, In e es -> In e t) ->
    schema s = schema st ->
    get (mk_world s d) k = get (mk_world st d) k
    \/ (exists e, In e es /\ entry_key e = Some k) ->
    get (mk_world (fold_left read_line (map (print_entry st) es) s) d) k
    = get (mk_world st d) k.
Proof.
  intros Hn es. induction es as [|e es IH]; intros s Hin Hs Hor.
  - destruct Hor as [H|(e & [] & _)]. exact H.
  - simpl. apply IH.
    + intros e' He'. apply Hin. now right.
    + now rewrite schema_read_line.
    + destruct (entry_key_dec e k) as [Hk|Hk].
      * left. apply read_line_printed_own; [apply Hin; now left | assumption..].
      * rewrite (read_line_printed_other e k n);
          [| apply Hin; now left | assumption..].
        destruct Hor as [H|(e' & [<-|He'] & Hk')];
          [now left | contradiction | right; eauto].
Qed.

End Restore.

(** C4, as amended.  When both [fopen] succeed, [lconfigWrite] followed by
    [lconfigRead] returns 0 twice and leaves every field with the value it
    had before, provided that: stored names are C strings, none of them an
    initial segment of another or of a label line as it is printed; the
    labels are formats [fprintf] is defined on without an argument; the
    template prints registered fields only; every printed line is one line
    of text of at most [LCONFIG_LMAX - 1] characters; and the stored values
    are clamped already, the [int] ones in range and the [double] ones
    reproduced by [atof] from their [%.17g] text.  When moreover the
    template prints every registered field, reading the written file
    brings back these values whatever the fields hold at the time of the
    read. *)
Theorem write_then_read_restores {libc_double : DoubleText}
        (t : template) (w : world) :
  fs_may_write (disk w) = true ->
  fs_may_read (disk w) = true ->
  names_are_strings (globals w) ->
  prefix_free (globals w) ->
  template_registered t (globals w) ->
  labels_defined t ->
  labels_inert t (globals w) ->
  lines_fit t (globals w) ->
  values_clamped (globals w) ->
  exists w1 w2,
    lconfigWrite t w = (0, w1)
    /\ lconfigRead w1 = Some (0, w2)
    /\ globals w2 = globals w
    /\ (forall k, get w2 k = get w k)
    /\ (template_complete t (globals w) ->
        forall st', schema st' = schema (globals w) ->
        exists w3,
          lconfigRead (mk_world st' (disk w1)) = Some (0, w3)
          /\ forall k, get w3 k = get w k).
Proof.
  intros Hw Hr Hstr Hpf Hreg Hdef Hlab Hfit Hval.
  destruct w as [st d]. cbn [disk globals] in *.
  unfold lconfigWrite. cbn [disk globals]. rewrite Hw.
  eexists. exists (mk_world st (mk_fs (Some (file_text t st)) (fs_may_read d) true)).
  split; [reflexivity|].
  unfold lconfigRead, fopen_r. cbn [disk globals fs_may_read fs_file].
  rewrite Hr, read_loop_printed by (assumption || lia).
  split; [reflexivity|]. split; [reflexivity|].
  split; [intros k; now rewrite !get_store|].
  intros Hcomp st' Hs.
  assert (Hall : Forall (fun l => one_line l = true
                                  /\ (length l <= LCONFIG_LMAX - 1)%nat)
                        (map (print_entry st) t)).
  { apply Forall_map. exact Hfit. }
  unfold file_text. rewrite (read_loop_lines _ _ Hall).
  - eexists. split; [reflexivity|]. intros k.
    destruct (name_at st k) as [n|] eqn:Hn.
    + rewrite (get_any_disk _ _ d).
      apply (fold_printed_restores t st Hstr Hpf Hreg Hlab Hval k n d Hn t st');
        [auto | exact Hs |].
      right. apply Hcomp. congruence.
    + rewrite !get_unregistered; [reflexivity | exact Hn |].
      rewrite (name_at_schema _ st'); [|apply schema_fold_read_line].
      now rewrite (name_at_schema st' st).
  - apply Nat.lt_succ_r, concat_length_lines.
    eapply Forall_impl; [|exact Hall].
    intros l [Hl _]. now apply one_line_nonempty.
Qed.

Lemma write_then_read_restores_witness :
  let w := lconfigSetInt Example.start 1 12 in
  exists w1 w2,
    @lconfigWrite Example.example_libc Example.LCONFIG_TEMPLATE w = (0, w1)
    /\ @lconfigRead Example.example_libc w1 = Some (0, w2)
    /\ globals w2 = globals w
    /\ (forall k, get w2 k = get w k)
    /\ forall st', schema st' = schema (globals w) ->
       exists w3,
         @lconfigRead Example.example_libc (mk_world st' (disk w1)) = Some (0, w3)
         /\ forall k, get w3 k = get w k.
Proof.
  intros w.
  destruct (@write_then_read_restores Example.example_libc
              Example.LCONFIG_TEMPLATE w)
    as (w1 & w2 & E1 & E2 & Hg & Hget & Hany).
  - reflexivity.
  - reflexivity.
  - apply names_are_stringsb_sound. reflexivity.
  - apply prefix_freeb_sound. reflexivity.
  - repeat constructor; vm_compute; discriminate.
  - apply labels_definedb_sound. reflexivity.
  - apply labels_inertb_sound. reflexivity.
  - repeat constructor; try reflexivity; apply Nat.leb_le; reflexivity.
  - repeat apply conj.
    + intros c [<-|[<-|[]]] _; split; try reflexivity;
        vm_compute; split; discriminate.
    + intros c [<-|[<-|[<-|[]]]] _; split; reflexivity.
    + intros c [<-|[]] _; reflexivity.
  - exists w1, w2. repeat apply conj; try assumption.
    apply Hany. apply template_completeb_sound. reflexivity.
Defined.

(** A label is a format: [%%] is printed as one [%], so that a label can
    start, once printed, with a name its text does not start with.  The
    written label line is then read back as a line of the field. *)
Example percent_label_resets_field :
  let t := [ LCONFIG_INT 0 (lit "100%") 0 10 5;
             LCONFIG_LINE (lit "100%% sure") ] in
  let w := mk_world (init_store t) Example.fresh_disk in
  label_text (lit "100%% sure") = lit "100% sure" ++ [NL]
  /\ printf_noargs (lit "50% off" ++ [NL]) = None
  /\ exists w1 w2,
      @lconfigWrite Example.example_libc t w = (0, w1)
      /\ @lconfigRead Example.example_libc w1 = Some (0, w2)
      /\ lconfigGetInt w 0 = 5
      /\ lconfigGetInt w2 0 = 0.
Proof.
  intros t w. split; [reflexivity|]. split; [reflexivity|].
  eexists. eexists. split; [reflexivity|].
  split; [vm_compute; reflexivity|]. split; reflexivity.
Qed.

(** ** The written file, line by line *)

Lemma lines_of_one_line (l rest : list ascii) :
  one_line l = true -> lines_of (l ++ rest) = l :: lines_of rest.
Proof.
  induction l as [|c r IH]; [discriminate|]. destruct r as [|c' r'].
  - simpl. now intros ->.
  - intros H.
    change (one_line (c :: c' :: r'))
      with (negb (Ascii.eqb c NL) && negb (Ascii.eqb c NUL) && one_line (c' :: r')) in H.
    rewrite !andb_true_iff, !negb_true_iff in H. destruct H as [[H1 H2] H3].
    change ((c :: c' :: r') ++ rest) with (c :: ((c' :: r') ++ rest)).
    change (lines_of (c :: ((c' :: r') ++ rest)))
      with (if Ascii.eqb c NL then [c] :: lines_of ((c' :: r') ++ rest)
            else match lines_of ((c' :: r') ++ rest) with
                 | [] => [[c]]
                 | l :: ls => (c :: l) :: ls
                 end).
    now rewrite H1, (IH H3).
Qed.

(** X10.  When the labels are formats [fprintf] is defined on without an
    argument and every entry prints one line of text (no newline inside a
    name, a printed label or a value), the written file consists of exactly
    one line per entry of the template, in the order of the template: the
    label as [fprintf] prints it, the line of the field otherwise. *)
Theorem written_file_follows_template {libc_double : DoubleText}
        (t : template) (w : world) :
  fs_may_write (disk w) = true ->
  labels_defined t ->
  Forall (fun e => one_line (print_entry (globals w) e) = true) t ->
  exists text,
    fs_file (disk (snd (lconfigWrite t w))) = Some text
    /\ lines_of text = map (print_entry (globals w)) t.
Proof.
  intros Hw _ Hall. unfold lconfigWrite. rewrite Hw. simpl.
  eexists. split; [reflexivity|]. unfold file_text.
  induction Hall as [|e t He _ IH]; simpl; [reflexivity|].
  now rewrite lines_of_one_line, IH.
Qed.

Lemma written_file_follows_template_witness :
  exists text,
    fs_file (disk (snd (@lconfigWrite Example.example_libc
                          Example.LCONFIG_TEMPLATE Example.start))) = Some text
    /\ lines_of text
       = map (@print_entry Example.example_libc (globals Example.start))
             Example.LCONFIG_TEMPLATE.
Proof.
  apply (@written_file_follows_template Example.example_libc
           Example.LCONFIG_TEMPLATE Example.start).
  - reflexivity.
  - apply labels_definedb_sound. reflexivity.
  - repeat constructor.
Defined.

(** ** [lconfigInit] *)

Section Init.

Context {libc_double : DoubleText}.

(** X11.  With a source that cannot be opened, [lconfigInit] keeps every
    value and still writes: where the destination can be opened (and the
    labels are formats [fprintf] is defined on without an argument) the
    file is created with the canonical text of the current values, and
    where it cannot the whole state is left as it is. *)
Theorem init_without_source (t : template) (w : world) :
  fopen_r (disk w) = None ->
  (fs_may_write (disk w) = true ->
   labels_defined t ->
   lconfigInit t w
   = Some (mk_world (globals w)
             (mk_fs (Some (file_text t (globals w)))
                    (fs_may_read (disk w)) true)))
  /\ (fs_may_write (disk w) = false -> lconfigInit t w = Some w).
Proof.
  intros Hopen. unfold lconfigInit, lconfigRead. rewrite Hopen.
  unfold lconfigWrite. split; [intros -> _ | intros ->]; reflexivity.
Qed.

(** X12.  A state whose file holds the canonical text of its values is a
    fixed point of [lconfigInit], under the conditions of the round trip:
    names that are C strings, none an initial segment of another or of a
    label line as it is printed, labels that are defined formats, a
    template of registered fields, lines that fit the buffer and values
    clamped already. *)
Theorem init_fixed_point (t : template) (w : world) :
  fs_file (disk w) = Some (file_text t (globals w)) ->
  fs_may_read (disk w) = true ->
  fs_may_write (disk w) = true ->
  names_are_strings (globals w) ->
  prefix_free (globals w) ->
  template_registered t (globals w) ->
  labels_defined t ->
  labels_inert t (globals w) ->
  lines_fit t (globals w) ->
  values_clamped (globals w) ->
  lconfigInit t w = Some w.
Proof.
  intros Hfile Hr Hw Hstr Hpf Hreg Hdef Hlab Hfit Hval.
  destruct w as [st [f r wr]]. cbn [disk globals fs_file fs_may_read fs_may_write] in *.
  subst f r wr.
  unfold lconfigInit, lconfigRead, fopen_r.
  cbn [disk globals fs_file fs_may_read fs_may_write].
  rewrite read_loop_printed by (assumption || lia).
  unfold lconfigWrite. cbn [disk globals fs_file fs_may_read fs_may_write snd].
  reflexivity.
Qed.

(** X13.  [lconfigInit] always returns; the values afterwards are those
    [lconfigRead] leaves, and where the destination can be opened (and the
    labels are formats [fprintf] is defined on without an argument) the
    file afterwards holds the canonical text of exactly these values.  [int]
    values within their bounds and one-line strings that fit, if that is
    what the fields held before, is what they hold, and what the file
    shows, afterwards: values of the old file outside the bounds are
    clamped. *)
Theorem init_reads_then_writes (t : template) (w : world) :
  exists r w1 w2,
    lconfigRead w = Some (r, w1)
    /\ lconfigInit t w = Some w2
    /\ globals w2 = globals w1
    /\ (fs_may_write (disk w) = true -> labels_defined t ->
        fs_file (disk w2) = Some (file_text t (globals w2)))
    /\ (fs_may_write (disk w) = false -> disk w2 = disk w)
    /\ (int_invariant (globals w) -> int_invariant (globals w2))
    /\ (str_invariant (globals w) -> str_invariant (globals w2)).
Proof.
  destruct (lconfigRead_frame w) as (r & w1 & E & _ & Hd).
  exists r, w1. unfold lconfigInit. rewrite E. eexists. split; [reflexivity|].
  split; [reflexivity|].
  assert (Hg : globals (snd (lconfigWrite t w1)) = globals w1).
  { unfold lconfigWrite. now destruct (fs_may_write (disk w1)). }
  split; [exact Hg|]. rewrite Hg.
  repeat apply conj.
  - unfold lconfigWrite. rewrite Hd. now intros -> _.
  - unfold lconfigWrite. rewrite Hd. now intros ->.
  - intros H. exact (read_keeps_int_invariant w r w1 H E).
  - intros H. exact (read_keeps_str_invariant w r w1 H E).
Qed.

End Init.

Lemma init_without_source_witness :
  @lconfigInit Example.example_libc Example.LCONFIG_TEMPLATE Example.start
  = Some (mk_world (globals Example.start)
            (mk_fs (Some (@file_text Example.example_libc
                            Example.LCONFIG_TEMPLATE (globals Example.start)))
                   true true))
  /\ @lconfigInit Example.example_libc Example.LCONFIG_TEMPLATE
       (mk_world (globals Example.start) (mk_fs None false false))
     = Some (mk_world (globals Example.start) (mk_fs None false false)).
Proof.
  split.
  - apply (@init_without_source Example.example_libc
             Example.LCONFIG_TEMPLATE Example.start);
      [reflexivity | reflexivity | apply labels_definedb_sound; reflexivity].
  - apply (@init_without_source Example.example_libc Example.LCONFIG_TEMPLATE
             (mk_world (globals Example.start) (mk_fs None false false)));
      reflexivity.
Defined.

Lemma init_reads_then_writes_witness :
  let w := mk_world (globals Example.start) (Example.disk_with "number_b 999") in
  exists w2,
    @lconfigInit Example.example_libc Example.LCONFIG_TEMPLATE w = Some w2
    /\ int_invariant (globals w2)
    /\ lconfigGetInt w2 1 = 20.
Proof.
  intros w.
  destruct (@init_reads_then_writes Example.example_libc
              Example.LCONFIG_TEMPLATE w)
    as (r & w1 & w2 & _ & E & _ & _ & _ & Hint & _).
  exists w2. split; [exact E|]. split; [exact (Hint example_int_invariant)|].
  vm_compute in E. injection E as <-. reflexivity.
Defined.

Lemma init_fixed_point_witness :
  let w := snd (@lconfigWrite Example.example_libc Example.LCONFIG_TEMPLATE
                  (lconfigSetInt Example.start 1 12)) in
  @lconfigInit Example.example_libc Example.LCONFIG_TEMPLATE w = Some w.
Proof.
  intros w.
  apply (@init_fixed_point Example.example_libc Example.LCONFIG_TEMPLATE w).
  - reflexivity.
  - reflexivity.
  - reflexivity.
  - apply names_are_stringsb_sound. reflexivity.
  - apply prefix_freeb_sound. reflexivity.
  - repeat constructor; vm_compute; discriminate.
  - apply labels_definedb_sound. reflexivity.
  - apply labels_inertb_sound. reflexivity.
  - repeat constructor; try reflexivity; apply Nat.leb_le; reflexivity.
  - repeat apply conj.
    + intros c [<-|[<-|[]]] _; split; try reflexivity;
        vm_compute; split; discriminate.
    + intros c [<-|[<-|[<-|[]]]] _; split; reflexivity.
    + intros c [<-|[]] _; reflexivity.
Defined.

(** ** The arrays at program start *)

Lemma nth_designate {A : Type} (hole x : A) (i j : nat) (l : list A) :
  nth j (designate hole i x l) hole
  = if Nat.eqb i j then x else nth j l hole.
Proof.
  revert j l. induction i as [|i IH]; intros [|j] [|y r]; simpl; auto.
  - now destruct j.
  - rewrite IH. destruct (Nat.eqb i j); [reflexivity | now destruct j].
Qed.

Lemma nth_init_fold {A : Type} (hole : A) (decl : entry -> nat -> option A)
      (step : list A -> entry -> list A) (id : nat) :
  (forall arr e,
      nth id (step arr e) hole
      = match decl e id with Some c => c | None => nth id arr hole end) ->
  forall (t : template) (acc : list A),
    nth id (fold_left step t acc) hole
    = match last_decl decl t id with
      | Some c => c
      | None => nth id acc hole
      end.
Proof.
  intros Hstep t. induction t as [|e t IH]; intros acc; simpl; [reflexivity|].
  rewrite IH. destruct (last_decl decl t id); [reflexivity|]. apply Hstep.
Qed.

Lemma nth_init_ints (t : template) (id : nat) :
  nth id (init_ints t) int_hole
  = match last_decl decl_int t id with Some c => c | None => int_hole end.
Proof.
  unfold init_ints. rewrite (nth_init_fold int_hole decl_int).
  - destruct (last_decl decl_int t id); [reflexivity | now destruct id as [|[|]]].
  - intros arr e. destruct e; simpl; try reflexivity.
    rewrite nth_designate. now destruct (Nat.eqb _ id).
Qed.

Lemma nth_init_dbls (t : template) (id : nat) :
  nth id (init_dbls t) dbl_hole
  = match last_decl decl_dbl t id with Some c => c | None => dbl_hole end.
Proof.
  unfold init_dbls. rewrite (nth_init_fold dbl_hole decl_dbl).
  - destruct (last_decl decl_dbl t id); [reflexivity | now destruct id as [|[|]]].
  - intros arr e. destruct e; simpl; try reflexivity.
    rewrite nth_designate. now destruct (Nat.eqb _ id).
Qed.

Lemma nth_init_strs (t : template) (id : nat) :
  nth id (init_strs t) str_hole
  = match last_decl decl_str t id with Some c => c | None => str_hole end.
Proof.
  unfold init_strs. rewrite (nth_init_fold str_hole decl_str).
  - destruct (last_decl decl_str t id); [reflexivity | now destruct id as [|[|]]].
  - intros arr e. destruct e; simpl; try reflexivity.
    rewrite nth_designate. now destruct (Nat.eqb _ id).
Qed.

Lemma last_decl_app {A : Type} (decl : entry -> nat -> option A)
      (before after : template) (e : entry) (id : nat) (c : A) :
  decl e id = Some c ->
  (forall e', In e' after -> decl e' id = None) ->
  last_decl decl (before ++ e :: after) id = Some c.
Proof.
  intros He Hafter.
  assert (Ha : last_decl decl after id = None).
  { induction after as [|a r IH]; simpl; [reflexivity|].
    rewrite IH by (intros; apply Hafter; simpl; auto).
    apply Hafter. simpl; auto. }
  induction before as [|b r IH]; simpl.
  - now rewrite Ha.
  - now rewrite IH.
Qed.

Lemma last_decl_none {A : Type} (decl : entry -> nat -> option A)
      (t : template) (id : nat) :
  (forall e, In e t -> decl e id = None) -> last_decl decl t id = None.
Proof.
  induction t as [|a r IH]; intros H; simpl; [reflexivity|].
  rewrite IH by (intros; apply H; simpl; auto). apply H. simpl; auto.
Qed.

Lemma last_decl_some {A : Type} (decl : entry -> nat -> option A)
      (t : template) (id : nat) (e : entry) :
  In e t -> decl e id <> None -> last_decl decl t id <> None.
Proof.
  induction t as [|a r IH]; simpl; [tauto|]. intros [->|Hin] He.
  - destruct (last_decl decl r id); [discriminate | exact He].
  - specialize (IH Hin He). now destruct (last_decl decl r id).
Qed.

(** X14.  At program start the element of an id is the one its last
    declaration in the template initialises: the field is registered under
    the name [NAME " "] with the declared bounds or length, and [Get]
    returns the declared default as it stands (not clamped), for a string
    field when the default has at most [LEN] characters, which is what the
    buffer [char[LEN+1]] holds with a terminator.  An id that no entry of
    its category declares is not registered. *)
Theorem start_state_follows_template (d : filesys) :
  (forall before after id name mn mx def,
      (forall e, In e after -> decl_int e id = None) ->
      let w := mk_world
                 (init_store (before ++ LCONFIG_INT id name mn mx def :: after)) d in
      int_field w (Z.of_nat id) = mk_int (Some (name ++ [SP])) mn mx def def
      /\ lconfigGetInt w (Z.of_nat id) = def)
  /\ (forall before after id name mn mx def,
      (forall e, In e after -> decl_dbl e id = None) ->
      let w := mk_world
                 (init_store (before ++ LCONFIG_DBL id name mn mx def :: after)) d in
      dbl_field w (Z.of_nat id) = mk_dbl (Some (name ++ [SP])) mn mx def def
      /\ lconfigGetDouble w (Z.of_nat id) = def)
  /\ (forall before after id name len def,
      (forall e, In e after -> decl_str e id = None) ->
      let w := mk_world
                 (init_store (before ++ LCONFIG_STR id name len def :: after)) d in
      registered_str w (Z.of_nat id)
      /\ str_desc (str_field w (Z.of_nat id)) = (Some (name ++ [SP]), len, def)
      /\ ((length def <= len)%nat ->
          lconfigGetString w (Z.of_nat id) = Some def))
  /\ (forall t id,
      let w := mk_world (init_store t) d in
      ((forall e, In e t -> decl_int e id = None) ->
       ~ registered_int w (Z.of_nat id))
      /\ ((forall e, In e t -> decl_dbl e id = None) ->
          ~ registered_dbl w (Z.of_nat id))
      /\ ((forall e, In e t -> decl_str e id = None) ->
          ~ registered_str w (Z.of_nat id))).
Proof.
  repeat apply conj.
  - intros before after id name mn mx def Hafter w.
    assert (E : int_field w (Z.of_nat id) = mk_int (Some (name ++ [SP])) mn mx def def).
    { unfold int_field. subst w. simpl. rewrite Nat2Z.id, nth_init_ints.
      erewrite last_decl_app; [reflexivity | | exact Hafter].
      simpl. now rewrite Nat.eqb_refl. }
    split; [exact E|]. unfold lconfigGetInt. unfold int_field in E.
    rewrite Nat2Z.id in *.
    rewrite (valid_id_named int_name int_hole _ id (name ++ [SP]) eq_refl)
      by (now rewrite E).
    now rewrite E.
  - intros before after id name mn mx def Hafter w.
    assert (E : dbl_field w (Z.of_nat id) = mk_dbl (Some (name ++ [SP])) mn mx def def).
    { unfold dbl_field. subst w. simpl. rewrite Nat2Z.id, nth_init_dbls.
      erewrite last_decl_app; [reflexivity | | exact Hafter].
      simpl. now rewrite Nat.eqb_refl. }
    split; [exact E|]. unfold lconfigGetDouble. unfold dbl_field in E.
    rewrite Nat2Z.id in *.
    rewrite (valid_id_named dbl_name dbl_hole _ id (name ++ [SP]) eq_refl)
      by (now rewrite E).
    now rewrite E.
  - intros before after id name len def Hafter w.
    assert (E : str_field w (Z.of_nat id)
                = mk_str (Some (name ++ [SP])) len def (init_buffer len def)).
    { unfold str_field. subst w. simpl. rewrite Nat2Z.id, nth_init_strs.
      erewrite last_decl_app; [reflexivity | | exact Hafter].
      simpl. now rewrite Nat.eqb_refl. }
    assert (Hreg : registered_str w (Z.of_nat id)).
    { unfold registered_str. unfold str_field in E. rewrite Nat2Z.id in E.
      apply (valid_id_named str_name str_hole _ id (name ++ [SP]) eq_refl).
      now rewrite E. }
    split; [exact Hreg|]. split; [now rewrite E|].
    intros Hlen. unfold lconfigGetString. unfold registered_str in Hreg.
    rewrite Hreg. unfold str_field in E. rewrite E. cbn [str_cur].
    now rewrite init_buffer_fits.
  - intros t id w. subst w. repeat apply conj; intros H.
    + unfold registered_int. simpl.
      rewrite valid_id_no_name; [discriminate|].
      now rewrite nth_init_ints, last_decl_none.
    + unfold registered_dbl. simpl.
      rewrite valid_id_no_name; [discriminate|].
      now rewrite nth_init_dbls, last_decl_none.
    + unfold registered_str. simpl.
      rewrite valid_id_no_name; [discriminate|].
      now rewrite nth_init_strs, last_decl_none.
Qed.

Lemma start_state_follows_template_witness :
  let w := mk_world
             (init_store ([LCONFIG_INT 3 (lit "depth") 0 9 4]
                          ++ LCONFIG_INT 3 (lit "width") 1 5 80
                          :: [LCONFIG_LINE (lit "#end")]))
             Example.fresh_disk in
  let w' := mk_world
              (init_store ([LCONFIG_LINE (lit "#users")]
                           ++ LCONFIG_STR 2 (lit "user") 8 (lit "bob") :: []))
              Example.fresh_disk in
  int_field w 3 = mk_int (Some (lit "width" ++ [SP])) 1 5 80 80
  /\ lconfigGetInt w 3 = 80
  /\ ~ registered_int w 1
  /\ registered_str w' 2
  /\ lconfigGetString w' 2 = Some (lit "bob").
Proof.
  intros w w'. destruct (start_state_follows_template Example.fresh_disk)
    as (Hi & _ & Hs & Hnone).
  destruct (Hi [LCONFIG_INT 3 (lit "depth") 0 9 4] [LCONFIG_LINE (lit "#end")]
               3%nat (lit "width") 1 5 80) as [H1 H2].
  - intros e [<-|[]]. reflexivity.
  - destruct (Hs [LCONFIG_LINE (lit "#users")] [] 2%nat (lit "user") 8%nat
                 (lit "bob")) as (H3 & _ & H4).
    + intros e [].
    + repeat apply conj; [exact H1 | exact H2 | | exact H3 |].
      * apply (Hnone _ 1%nat). intros e [<-|[<-|[<-|[]]]]; reflexivity.
      * apply H4. apply Nat.leb_le. reflexivity.
Defined.

(** X15.  Every field the template declares is registered at program
    start, whichever declaration of its id came last: [lconfigWrite] prints
    named elements only. *)
Theorem declared_fields_are_registered (t : template) :
  template_registered t (init_store t).
Proof.
  unfold template_registered. apply Forall_forall. intros e He.
  destruct e as [text|id nm mn mx df|id nm mn mx df|id nm ln df]; simpl; [exact I| | |].
  - rewrite nth_init_ints.
    destruct (last_decl decl_int t id) as [c|] eqn:E.
    + clear He. revert c E. induction t as [|a r IH]; simpl; [discriminate|].
      intros c. destruct (last_decl decl_int r id); [intros [= <-]; now apply IH|].
      destruct a; simpl; try discriminate.
      destruct (Nat.eqb _ id); [intros [= <-]; discriminate | discriminate].
    + exfalso. revert E. eapply last_decl_some; [exact He|].
      simpl. now rewrite Nat.eqb_refl.
  - rewrite nth_init_dbls.
    destruct (last_decl decl_dbl t id) as [c|] eqn:E.
    + clear He. revert c E. induction t as [|a r IH]; simpl; [discriminate|].
      intros c. destruct (last_decl decl_dbl r id); [intros [= <-]; now apply IH|].
      destruct a; simpl; try discriminate.
      destruct (Nat.eqb _ id); [intros [= <-]; discriminate | discriminate].
    + exfalso. revert E. eapply last_decl_some; [exact He|].
      simpl. now rewrite Nat.eqb_refl.
  - rewrite nth_init_strs.
    destruct (last_decl decl_str t id) as [c|] eqn:E.
    + clear He. revert c E. induction t as [|a r IH]; simpl; [discriminate|].
      intros c. destruct (last_decl decl_str r id); [intros [= <-]; now apply IH|].
      destruct a; simpl; try discriminate.
      destruct (Nat.eqb _ id); [intros [= <-]; discriminate | discriminate].
    + exfalso. revert E. eapply last_decl_some; [exact He|].
      simpl. now rewrite Nat.eqb_refl.
Qed.

(** ** The variant without doubles agrees with [lconfig.h] *)

Lemma forget_setint (w : world) (id v : Z) :
  forget (lconfigSetInt w id v) = NoDouble.lconfigSetInt (forget w) id v.
Proof.
  unfold lconfigSetInt, NoDouble.lconfigSetInt. simpl.
  now destruct (valid_id int_name _ _ id).
Qed.

Lemma forget_setstring (w : world) (id : Z) (v : cstr) :
  forget (lconfigSetString w id v) = NoDouble.lconfigSetString (forget w) id v.
Proof.
  unfold lconfigSetString, NoDouble.lconfigSetString. simpl.
  now destruct (valid_id str_name _ _ id).
Qed.

Lemma forget_setdouble (w : world) (id : Z) (v : spec_float) :
  forget (lconfigSetDouble w id v) = forget w.
Proof.
  unfold lconfigSetDouble. now destruct (valid_id dbl_name _ _ id).
Qed.

Lemma init_ints_embed (t : NoDouble.template) :
  init_ints (map embed t) = NoDouble.init_ints t.
Proof.
  unfold init_ints, NoDouble.init_ints. generalize [int_hole].
  induction t as [|e t IH]; intros acc; simpl; [reflexivity|].
  rewrite IH. now destruct e.
Qed.

Lemma init_strs_embed (t : NoDouble.template) :
  init_strs (map embed t) = NoDouble.init_strs t.
Proof.
  unfold init_strs, NoDouble.init_strs. generalize [str_hole].
  induction t as [|e t IH]; intros acc; simpl; [reflexivity|].
  rewrite IH. now destruct e.
Qed.

Lemma init_dbls_embed (t : NoDouble.template) :
  init_dbls (map embed t) = [dbl_hole].
Proof.
  unfold init_dbls. generalize [dbl_hole].
  induction t as [|e t IH]; intros acc; simpl; [reflexivity|].
  rewrite <- (IH acc). now destruct e.
Qed.

(** X16.  On the two categories they share, the accessors and
    [lconfigDefault] of the variant without doubles compute what those of
    [lconfig.h] compute, a [lconfigSetDouble] there is not seen here, and
    the arrays at program start are the same for the same template (with
    [lcfg_dbls] the single hole). *)
Theorem variant_agrees_on_state :
  (forall w id v,
      forget (lconfigSetInt w id v) = NoDouble.lconfigSetInt (forget w) id v)
  /\ (forall w id v,
      forget (lconfigSetString w id v) = NoDouble.lconfigSetString (forget w) id v)
  /\ (forall w id, NoDouble.lconfigGetInt (forget w) id = lconfigGetInt w id)
  /\ (forall w id, NoDouble.lconfigGetString (forget w) id = lconfigGetString w id)
  /\ (forall w, forget (lconfigDefault w) = NoDouble.lconfigDefault (forget w))
  /\ (forall w id v, forget (lconfigSetDouble w id v) = forget w)
  /\ (forall t,
      forget_store (init_store (map embed t)) = NoDouble.init_store t
      /\ lcfg_dbls (init_store (map embed t)) = [dbl_hole]).
Proof.
  repeat apply conj; try reflexivity.
  - apply forget_setint.
  - apply forget_setstring.
  - apply forget_setdouble.
  - intros t. split.
    + unfold forget_store, NoDouble.init_store. simpl.
      now rewrite init_ints_embed, init_strs_embed.
    + simpl. apply init_dbls_embed.
Qed.

Section VariantFiles.

Context {libc_double : DoubleText}.

Lemma forget_read_line (st : store) (txt : cstr) :
  forget_store (read_line st txt) = NoDouble.read_line (forget_store st) txt.
Proof. reflexivity. Qed.

Lemma forget_read_loop (fuel lmax : nat) (cfg : list ascii) (st : store) :
  NoDouble.read_loop fuel lmax cfg (forget_store st)
  = option_map forget_store (read_loop fuel lmax cfg st).
Proof.
  revert cfg st. induction fuel as [|f IH]; intros cfg st; simpl; [reflexivity|].
  destruct (fgets lmax cfg) as [[buf cfg']|]; [|reflexivity].
  now rewrite <- IH, forget_read_line.
Qed.

Lemma forget_read (w : world) :
  NoDouble.lconfigRead (forget w)
  = match lconfigRead w with
    | Some (r, w') => Some (r, forget w')
    | None => None
    end.
Proof.
  unfold NoDouble.lconfigRead, lconfigRead.
  cbn [forget NoDouble.disk NoDouble.globals].
  destruct (fopen_r (disk w)) as [cfg|]; [|reflexivity].
  rewrite forget_read_loop.
  now destruct (read_loop (S (length cfg)) LCONFIG_LMAX cfg (globals w)).
Qed.

Lemma print_entry_embed (st : store) (e : NoDouble.entry) :
  print_entry st (embed e) = NoDouble.print_entry (forget_store st) e.
Proof. now destruct e. Qed.

Lemma file_text_embed (t : NoDouble.template) (st : store) :
  file_text (map embed t) st = NoDouble.file_text t (forget_store st).
Proof.
  unfold file_text, NoDouble.file_text. rewrite map_map. f_equal.
  apply map_ext. intros e. apply print_entry_embed.
Qed.

Lemma forget_write (t : NoDouble.template) (w : world) :
  NoDouble.lconfigWrite t (forget w)
  = (fst (lconfigWrite (map embed t) w),
     forget (snd (lconfigWrite (map embed t) w))).
Proof.
  unfold NoDouble.lconfigWrite, lconfigWrite.
  cbn [forget NoDouble.disk NoDouble.globals].
  destruct (fs_may_write (disk w)); [|reflexivity].
  cbn [fst snd]. unfold forget. cbn [globals disk].
  now rewrite file_text_embed.
Qed.

(** X17.  On a template without double fields, [lconfigRead] and
    [lconfigWrite] of the variant return what those of [lconfig.h] return
    and leave the same [int] and string values and the same file, whatever
    conversions of doubles the C library provides. *)
Theorem variant_agrees_on_files :
  (forall w,
      NoDouble.lconfigRead (forget w)
      = match lconfigRead w with
        | Some (r, w') => Some (r, forget w')
        | None => None
        end)
  /\ (forall t w,
      NoDouble.lconfigWrite t (forget w)
      = (fst (lconfigWrite (map embed t) w),
         forget (snd (lconfigWrite (map embed t) w)))).
Proof.
  split; [apply forget_read | apply forget_write].
Qed.

End VariantFiles.

(** ** The round trip of the variant *)




(** ** A matching line without a number *)

Lemma strtol_digits_none (s : cstr) :
  match s with
  | [] => true
  | c :: _ => match digit_val c with Some _ => false | None => true end
  end = true ->
  strtol_digits 0 s = 0.
Proof.
  destruct s as [|c r]; simpl; [reflexivity|].
  now destruct (digit_val c).
Qed.

Lemma atoi_no_number (s : cstr) : no_number s = true -> atoi s = 0.
Proof.
  unfold no_number, atoi, strtol10.
  destruct (skip_space s) as [|c r]; [reflexivity|].
  destruct (Ascii.eqb c "-"%char) eqn:Em;
    [|destruct (Ascii.eqb c "+"%char) eqn:Ep];
    cbn [orb]; cbv beta iota zeta; intros H.
  - now rewrite (strtol_digits_none r H).
  - now rewrite (strtol_digits_none r H).
  - now rewrite (strtol_digits_none (c :: r) H).
Qed.

(** X19.  A buffer that starts with the stored name of a registered [int]
    field but holds no number behind it (no digit after the white space and
    an optional sign) does not keep the old value: the field holds 0
    clamped into its bounds. *)
Theorem matching_line_without_number {libc_double : DoubleText}
        (w : world) (id : nat) (n rest : cstr) :
  name_at (globals w) (KInt id) = Some n ->
  ~ In NUL n ->
  no_number rest = true ->
  lconfigGetInt (mk_world (read_line (globals w) (n ++ rest)) (disk w))
                (Z.of_nat id)
  = int_cur (lcfgIntSet (int_field w (Z.of_nat id)) 0).
Proof.
  intros Hn Hnul Hrest.
  pose proof (read_line_get_matched (globals w) (disk w) (KInt id) n rest Hn Hnul)
    as H.
  simpl in H. injection H as H. rewrite H, (atoi_no_number rest Hrest).
  unfold int_field. now rewrite Nat2Z.id.
Qed.

Lemma matching_line_without_number_witness :
  lconfigGetInt
    (mk_world (@read_line Example.example_libc
                 (globals (lconfigSetInt Example.start 1 12))
                 ((lit "number_b" ++ [SP]) ++ lit "twelve" ++ [NL]))
              Example.fresh_disk) 1
  = 10.
Proof.
  apply (@matching_line_without_number Example.example_libc
           (lconfigSetInt Example.start 1 12) 1%nat
           (lit "number_b" ++ [SP]) (lit "twelve" ++ [NL])); reflexivity
  || (apply (example_names_are_strings (KInt 1)); reflexivity).
Defined.

(** ** Reading the same file again *)

Section Refold.

(** The readers of one category, in general: a step either leaves the
    element or stores a value that the name and the text determine. *)
Variables (A V : Type) (name : A -> option cstr) (set : A -> V -> A)
          (pick : option cstr -> cstr -> option V) (step : cstr -> A -> A).
Hypothesis step_spec :
  forall txt c,
    step txt c = match pick (name c) txt with Some v => set c v | None => c end.
Hypothesis name_set : forall c v, name (set c v) = name c.
Hypothesis set_set : forall c v0 v, set (set c v0) v = set c v.

Lemma steps_uniform (ls : list cstr) (c : A) :
  (forall c', name c' = name c -> steps step ls c' = c')
  \/ (exists v, forall c', name c' = name c -> steps step ls c' = set c' v).
Proof.
  revert c. induction ls as [|txt ls IH]; intros c; [now left|].
  assert (Hstep : forall c', name c' = name c -> name (step txt c') = name c).
  { intros c' Hc'. rewrite step_spec.
    destruct (pick (name c') txt); [now rewrite name_set | assumption]. }
  destruct (IH c) as [Hkeep|[v Hv]].
  - destruct (pick (name c) txt) as [v|] eqn:Ep.
    + right. exists v. intros c' Hc'. unfold steps. simpl.
      change (steps step ls (step txt c') = set c' v).
      rewrite (Hkeep _ (Hstep c' Hc')), step_spec, Hc', Ep. reflexivity.
    + left. intros c' Hc'. unfold steps. simpl.
      change (steps step ls (step txt c') = c').
      rewrite (Hkeep _ (Hstep c' Hc')), step_spec, Hc', Ep. reflexivity.
  - right. exists v. intros c' Hc'. unfold steps. simpl.
    change (steps step ls (step txt c') = set c' v).
    rewrite (Hv _ (Hstep c' Hc')), step_spec.
    destruct (pick (name c') txt); [apply set_set | reflexivity].
Qed.

Lemma steps_idem (ls : list cstr) (c : A) : steps step ls (steps step ls c) = steps step ls c.
Proof.
  destruct (steps_uniform ls c) as [Hkeep|[v Hv]].
  - now rewrite !(Hkeep c eq_refl).
  - rewrite (Hv c eq_refl), (Hv (set c v) (name_set c v)). apply set_set.
Qed.

End Refold.

Section ReadTwice.

Context {libc_double : DoubleText}.

Lemma int_step_pick (txt : cstr) (c : lcfg_int) :
  int_step txt c
  = match pick_int (int_name c) txt with Some v => lcfgIntSet c v | None => c end.
Proof.
  unfold int_step, lcfgIntRead, pick_int.
  destruct (int_name c); simpl; [|reflexivity]. now destruct (_ =? 0).
Qed.

Lemma dbl_step_pick (txt : cstr) (c : lcfg_dbl) :
  dbl_step txt c
  = match pick_dbl (dbl_name c) txt with Some v => lcfgDblSet c v | None => c end.
Proof.
  unfold dbl_step, lcfgDblRead, pick_dbl.
  destruct (dbl_name c); simpl; [|reflexivity]. now destruct (_ =? 0).
Qed.

Lemma str_step_pick (txt : cstr) (c : lcfg_str) :
  str_step txt c
  = match pick_str (str_name c) txt with Some v => lcfgStrSet c v | None => c end.
Proof.
  unfold str_step, lcfgStrRead, pick_str.
  destruct (str_name c); simpl; [|reflexivity]. now destruct (_ =? 0).
Qed.

Lemma fold_read_line_maps (ls : list cstr) (st : store) :
  fold_left read_line ls st
  = mk_store (map (steps int_step ls) (lcfg_ints st))
             (map (steps dbl_step ls) (lcfg_dbls st))
             (map (steps str_step ls) (lcfg_strs st)).
Proof.
  revert st. induction ls as [|txt ls IH]; intros st.
  - simpl. unfold steps. simpl. rewrite !map_id. now destruct st.
  - simpl fold_left at 1. rewrite IH. unfold read_line. simpl.
    now rewrite !map_map.
Qed.

Lemma fold_read_line_idem (ls : list cstr) (st : store) :
  fold_left read_line ls (fold_left read_line ls st) = fold_left read_line ls st.
Proof.
  rewrite !fold_read_line_maps. simpl. rewrite !map_map. f_equal.
  - apply map_ext. intros c.
    apply (steps_idem _ _ int_name lcfgIntSet pick_int int_step int_step_pick);
      reflexivity.
  - apply map_ext. intros c.
    apply (steps_idem _ _ dbl_name lcfgDblSet pick_dbl dbl_step dbl_step_pick);
      reflexivity.
  - apply map_ext. intros c.
    apply (steps_idem _ _ str_name lcfgStrSet pick_str str_step str_step_pick);
      reflexivity.
Qed.

(** The loop is a fold over the buffers [fgets] cuts from the file. *)
Lemma read_loop_fold (fuel lmax : nat) (cfg : list ascii) :
  (exists ls, forall st,
        read_loop fuel lmax cfg st = Some (fold_left read_line ls st))
  \/ (forall st, read_loop fuel lmax cfg st = None).
Proof.
  revert cfg. induction fuel as [|f IH]; intros cfg; [now right|].
  simpl. destruct (fgets lmax cfg) as [[buf cfg']|].
  - destruct (IH cfg') as [[ls Hls]|Hnone].
    + left. exists (c_str buf :: ls). intros st. now rewrite Hls.
    + right. intros st. apply Hnone.
  - left. now exists [].
Qed.

(** X20.  [lconfigRead] is idempotent: reading the same file once more
    returns the same value and leaves every field as the first reading left
    it (what a line stores does not depend on the value held before). *)
Theorem read_twice_is_read_once (w : world) (r : Z) (w' : world) :
  lconfigRead w = Some (r, w') -> lconfigRead w' = Some (r, w').
Proof.
  unfold lconfigRead. destruct (fopen_r (disk w)) as [cfg|] eqn:Hopen.
  - destruct (read_loop_fold (S (length cfg)) LCONFIG_LMAX cfg) as [[ls Hls]|Hnone].
    + rewrite Hls. intros [= <- <-]. cbn [disk globals].
      now rewrite Hopen, Hls, fold_read_line_idem.
    + now rewrite Hnone.
  - intros [= <- <-]. now rewrite Hopen.
Qed.

End ReadTwice.

Lemma read_twice_is_read_once_witness :
  let w := mk_world (globals Example.start)
             (Example.disk_with "number_b 999") in
  exists w',
    @lconfigRead Example.example_libc w = Some (0, w')
    /\ @lconfigRead Example.example_libc w' = Some (0, w')
    /\ lconfigGetInt w' 1 = 20.
Proof.
  intros w. eexists. split; [vm_compute; reflexivity|]. split; [|reflexivity].
  apply (@read_twice_is_read_once Example.example_libc w).
  vm_compute. reflexivity.
Defined.

(** ** How [Set]s compose *)

Lemma upd_comm {A : Type} (f g : A -> A) (l : list A) (i j : nat) :
  i <> j -> upd i f (upd j g l) = upd j g (upd i f l).
Proof.
  revert i j. induction l as [|x r IH]; intros [|i] [|j] H; simpl; auto;
    try congruence.
  now rewrite IH by congruence.
Qed.

Lemma setint_setint (w : world) (id v1 v2 : Z) :
  lconfigSetInt (lconfigSetInt w id v1) id v2 = lconfigSetInt w id v2.
Proof.
  destruct (valid_id int_name int_hole (lcfg_ints (globals w)) id) eqn:Hreg.
  - unfold lconfigSetInt. rewrite Hreg. simpl.
    rewrite valid_id_upd, Hreg by reflexivity. now rewrite upd_upd.
  - unfold lconfigSetInt at 2. rewrite Hreg. reflexivity.
Qed.

Lemma setdouble_setdouble (w : world) (id : Z) (v1 v2 : spec_float) :
  lconfigSetDouble (lconfigSetDouble w id v1) id v2 = lconfigSetDouble w id v2.
Proof.
  destruct (valid_id dbl_name dbl_hole (lcfg_dbls (globals w)) id) eqn:Hreg.
  - unfold lconfigSetDouble. rewrite Hreg. simpl.
    rewrite valid_id_upd, Hreg by reflexivity. now rewrite upd_upd.
  - unfold lconfigSetDouble at 2. rewrite Hreg. reflexivity.
Qed.

Lemma setstring_setstring (w : world) (id : Z) (v1 v2 : cstr) :
  lconfigSetString (lconfigSetString w id v1) id v2 = lconfigSetString w id v2.
Proof.
  destruct (valid_id str_name str_hole (lcfg_strs (globals w)) id) eqn:Hreg.
  - unfold lconfigSetString. rewrite Hreg. simpl.
    rewrite valid_id_upd, Hreg by reflexivity. now rewrite upd_upd.
  - unfold lconfigSetString at 2. rewrite Hreg. reflexivity.
Qed.

Lemma setint_comm (w : world) (id1 id2 v1 v2 : Z) :
  id1 <> id2 ->
  lconfigSetInt (lconfigSetInt w id1 v1) id2 v2
  = lconfigSetInt (lconfigSetInt w id2 v2) id1 v1.
Proof.
  intros Hne.
  destruct (valid_id int_name int_hole (lcfg_ints (globals w)) id1) eqn:H1;
    destruct (valid_id int_name int_hole (lcfg_ints (globals w)) id2) eqn:H2;
    unfold lconfigSetInt; rewrite ?H1, ?H2; simpl;
    rewrite ?valid_id_upd, ?H1, ?H2 by reflexivity; simpl;
    rewrite ?H1, ?H2; try reflexivity.
  do 2 f_equal. apply upd_comm.
  apply valid_id_inv in H1 as (_ & H1 & _), H2 as (_ & H2 & _). lia.
Qed.

(** X21.  The last [Set] of a field decides: a [Set] after a [Set] of the
    same field leaves the state the later one alone would leave (the value
    held before plays no part in the clamping), and [Set]s of different
    [int] fields, or of fields of different categories, commute. *)
Theorem set_composition :
  (forall w id v1 v2,
      lconfigSetInt (lconfigSetInt w id v1) id v2 = lconfigSetInt w id v2)
  /\ (forall w id v1 v2,
      lconfigSetDouble (lconfigSetDouble w id v1) id v2 = lconfigSetDouble w id v2)
  /\ (forall w id v1 v2,
      lconfigSetString (lconfigSetString w id v1) id v2 = lconfigSetString w id v2)
  /\ (forall w id1 id2 v1 v2,
      id1 <> id2 ->
      lconfigSetInt (lconfigSetInt w id1 v1) id2 v2
      = lconfigSetInt (lconfigSetInt w id2 v2) id1 v1)
  /\ (forall w id1 id2 v1 v2,
      lconfigSetString (lconfigSetInt w id1 v1) id2 v2
      = lconfigSetInt (lconfigSetString w id2 v2) id1 v1).
Proof.
  repeat apply conj.
  - apply setint_setint.
  - apply setdouble_setdouble.
  - apply setstring_setstring.
  - apply setint_comm.
  - intros w id1 id2 v1 v2. unfold lconfigSetString, lconfigSetInt.
    destruct (valid_id int_name int_hole (lcfg_ints (globals w)) id1) eqn:H1;
      destruct (valid_id str_name str_hole (lcfg_strs (globals w)) id2) eqn:H2;
      simpl; rewrite ?H1, ?H2; reflexivity.
Qed.

Lemma set_composition_witness :
  lconfigSetInt (lconfigSetInt Example.start 0 3) 1 12
  = lconfigSetInt (lconfigSetInt Example.start 1 12) 0 3.
Proof.
  destruct set_composition as (_ & _ & _ & H & _).
  apply (H Example.start 0 1 3 12). discriminate.
Defined.
